(** * Blind Boggle board reconstruction: the bitset propagation solver

    A shallow embedding of [better_board_reconstruct.py] and the proofs of
    its documented properties.

    Conventions of the embedding.
    - Python integers are [Z]; bitsets use [Z.land], [Z.lor], [Z.lxor],
      [Z.shiftl] and [Z.testbit].
    - A Python [str] is the list of its code points ([list Z]), so that
      [ord(w[pos]) - 65] can be written as it is.
    - Python lists are [list]s read with [py_index], which wraps negative
      indices and fails outside [-len, len) as Python does.
    - The dictionaries [words_by_len], [index] and [all_mask] are [gmap]s
      keyed by the word length.
    - A run either yields a value, raises an exception, or (in the model
      only) runs out of fuel: [outcome]. *)

From Stdlib Require Import ZArith Lia String Ascii Sorted.
From stdpp Require Import base option list gmap fin_maps.

Local Open Scope Z_scope.

(** ** Outcomes of a Python computation *)

Inductive pyexc : Type :=
| IndexError
| KeyError
| ValueError.

Inductive outcome (A : Type) : Type :=
| Val (a : A)
| Exc (e : pyexc)
| OutOfFuel.

Arguments Val {A} a.
Arguments Exc {A} e.
Arguments OutOfFuel {A}.

#[global] Instance outcome_ret : MRet outcome := fun A a => Val a.
#[global] Instance outcome_bind : MBind outcome := fun A B f m =>
  match m with
  | Val a => f a
  | Exc e => Exc e
  | OutOfFuel => OutOfFuel
  end.

(** [l[i]] that raises [IndexError] when it is [None]. *)
Definition indexed {A} (o : option A) : outcome A :=
  match o with
  | Some a => Val a
  | None => Exc IndexError
  end.

(** What a loop body asks for: go on with the state [s], or leave the
    enclosing function at once with [r] ([return] inside a loop). *)
Inductive flow (S R : Type) : Type :=
| Go (s : S)
| Stop (r : R).

Arguments Go {S R} s.
Arguments Stop {S R} r.

(** ** Python lists *)

(** The position [l[i]] refers to: [i] when [0 <= i < len(l)],
    [len(l) + i] when [-len(l) <= i < 0], nothing otherwise. *)
Definition py_pos {A} (l : list A) (i : Z) : option nat :=
  if 0 <=? i then
    (if i <? Z.of_nat (length l) then Some (Z.to_nat i) else None)
  else
    (if - Z.of_nat (length l) <=? i then Some (Z.to_nat (Z.of_nat (length l) + i))
     else None).

Definition py_index {A} (l : list A) (i : Z) : option A :=
  n ← py_pos l i; l !! n.

(** [l[i] = x], in place. *)
Definition py_store {A} (l : list A) (i : Z) (x : A) : option (list A) :=
  n ← py_pos l i; Some (<[n := x]> l).

(** [for i, x in enumerate(l)] with a body that may leave early. *)
Fixpoint for_enum {A S R} (body : nat -> A -> S -> outcome (flow S R))
    (i : nat) (l : list A) (s : S) : outcome (flow S R) :=
  match l with
  | [] => Val (Go s)
  | x :: l' =>
      r ← body i x s;
      match r with
      | Go s' => for_enum body (Datatypes.S i) l' s'
      | Stop r => Val (Stop r)
      end
  end.

(** ** Bit tricks *)

Definition ALL : Z := Z.shiftl 1 26 - 1.

(** [int.bit_length]: the number of bits of [abs x]. *)
Definition bit_length (x : Z) : Z :=
  if x =? 0 then 0 else Z.log2 (Z.abs x) + 1.

Fixpoint popcount (p : positive) : Z :=
  match p with
  | xH => 1
  | xO p' => popcount p'
  | xI p' => 1 + popcount p'
  end.

(** [bitcount]: both [int.bit_count] and [bin(x).count("1")] count the
    ones of [abs x]. *)
Definition bitcount (x : Z) : Z :=
  match x with
  | Z0 => 0
  | Zpos p => popcount p
  | Zneg p => popcount p
  end.

(** The loop shared by [iter_bits] (a generator, consumed lazily by the
    [for] of [solve]) and [allowed_words_for_pos]:
<<
    while x:
        lsb = x & -x
        body(lsb.bit_length() - 1)
        x ^= lsb
>>
    The body may leave the enclosing function. *)
Fixpoint for_bits {S R} (fuel : nat) (body : Z -> S -> outcome (flow S R))
    (x : Z) (s : S) : outcome (flow S R) :=
  match fuel with
  | O => OutOfFuel
  | Datatypes.S fuel' =>
      if x =? 0 then Val (Go s)
      else
        let lsb := Z.land x (- x) in
        r ← body (bit_length lsb - 1) s;
        match r with
        | Go s' => for_bits fuel' body (Z.lxor x lsb) s'
        | Stop r => Val (Stop r)
        end
  end.

(** ** Data model *)

(** A Python [str], by code points. *)
Abbreviation word := (list Z).

(** A path as [main] hands it to the solver: [(cell_ids, L)]. *)
Abbreviation path := (list Z * nat)%type.

(** Code points of a literal. *)
Fixpoint codepoints (s : string) : word :=
  match s with
  | EmptyString => []
  | String c s' => Z.of_N (N_of_ascii c) :: codepoints s'
  end.

Section Loader.

(** [str.strip], [str.isalpha] and [str.upper] are the interpreter's
    Unicode routines; the loader is parametric in them. *)
Variable str_strip : word -> word.
Variable str_isalpha : word -> bool.
Variable str_upper : word -> word.

(** [load_paths], after [json.load]: [data] holds, for each item, the
    coordinate pairs of [item["path"]]. *)
Definition scan_coords (coords : list (Z * Z)) (mx : Z * Z) : Z * Z :=
  fold_left (fun '(max_r, max_c) '(r, c) =>
               (if r >? max_r then r else max_r,
                if c >? max_c then c else max_c))
            coords mx.

Definition load_paths (data : list (list (Z * Z)))
  : list (list (Z * Z) * nat) * Z * Z * nat :=
  let '(raw, (max_r, max_c), max_len) :=
    fold_left (fun '(raw, mx, max_len) coords =>
                 let L := length coords in
                 (raw ++ [(coords, L)],
                  scan_coords coords mx,
                  if (max_len <? L)%nat then L else max_len))
              data ([], (0, 0), 0%nat) in
  (raw, max_r + 1, max_c + 1, max_len).

(** [words_by_len[L].append(w)] on a [defaultdict(list)]. *)
Definition dict_append (words_by_len : gmap nat (list word)) (L : nat) (w : word)
  : gmap nat (list word) :=
  <[L := default [] (words_by_len !! L) ++ [w]]> words_by_len.

Definition load_line (max_len : nat) (words_by_len : gmap nat (list word))
    (line : word) : gmap nat (list word) :=
  let w := str_strip line in
  if bool_decide (w = []) || negb (str_isalpha w) then words_by_len
  else
    let w := str_upper w in
    let L := length w in
    if (1 <=? L)%nat && (L <=? max_len)%nat then dict_append words_by_len L w
    else words_by_len.

Definition load_dictionary (max_len : nat) (lines : list word)
  : gmap nat (list word) :=
  fold_left (load_line max_len) lines ∅.

End Loader.

(** ** Word index *)

(** The inner loop of [build_index]: [letter_bits] for one position. *)
Definition letter_bits_step (pos : nat) (wid : nat) (w : word) (letter_bits : list Z)
  : outcome (flow (list Z) (list Z)) :=
  ch ← indexed (w !! pos);
  let li := ch - 65 in
  if (0 <=? li) && (li <? 26) then
    Val (Go (alter (fun b => Z.lor b (Z.shiftl 1 (Z.of_nat wid))) (Z.to_nat li) letter_bits))
  else Val (Go letter_bits).

Definition letter_bits_at (words : list word) (pos : nat) : outcome (list Z) :=
  r ← for_enum (letter_bits_step pos) 0%nat words (replicate 26 0);
  match r with
  | Go letter_bits => Val letter_bits
  | Stop letter_bits => Val letter_bits
  end.

Fixpoint pos_tables_from (words : list word) (positions : list nat)
  : outcome (list (list Z)) :=
  match positions with
  | [] => Val []
  | pos :: rest =>
      letter_bits ← letter_bits_at words pos;
      tables ← pos_tables_from words rest;
      Val (letter_bits :: tables)
  end.

Definition build_index_step (L : nat) (words : list word)
    (acc : outcome (gmap nat (list (list Z)) * gmap nat Z))
  : outcome (gmap nat (list (list Z)) * gmap nat Z) :=
  '(index, all_mask) ← acc;
  let m := length words in
  if (m =? 0)%nat then Val (index, all_mask)
  else
    pos_tables ← pos_tables_from words (seq 0 L);
    Val (<[L := pos_tables]> index, <[L := Z.shiftl 1 (Z.of_nat m) - 1]> all_mask).

Definition build_index (words_by_len : gmap nat (list word))
  : outcome (gmap nat (list (list Z)) * gmap nat Z) :=
  map_fold build_index_step (Val (∅, ∅)) words_by_len.

(** ** Propagation *)

Definition allowed_words_for_pos (fuel : nat) (index_pos : list Z)
    (allowed_letters_mask : Z) : outcome Z :=
  r ← for_bits (R := Z) fuel
        (fun letter out =>
           b ← indexed (py_index index_pos letter);
           Val (Go (Z.lor out b)))
        allowed_letters_mask 0;
  match r with
  | Go out => Val out
  | Stop out => Val out
  end.

(** The state of [propagate]: the two lists it mutates in place. *)
Abbreviation pstate := (list Z * list Z)%type.

(** The store of list objects: a reference is a position in it, and
    [l[:]] puts a copy at a fresh position.  [solve] receives its two
    lists by reference. *)
Abbreviation heap := (list (list Z)).

Section Solver.

Variable paths : list path.
Variable index : gmap nat (list (list Z)).
Variable all_mask : gmap nat Z.
Variable n_cells : Z.
Variable words_by_len : gmap nat (list word).

Definition candidates_step (fuel : nat) (idxL : list (list Z)) (domains : list Z)
    (pos : nat) (cell : Z) (cand : Z) : outcome (flow Z Z) :=
  allowed ← indexed (py_index domains cell);
  if allowed =? 0 then Val (Stop 0)
  else
    index_pos ← indexed (idxL !! pos);
    aw ← allowed_words_for_pos fuel index_pos allowed;
    let cand := Z.land cand aw in
    if cand =? 0 then Val (Stop 0) else Val (Go cand).

Definition compute_path_candidates (fuel : nat) (path_cells : list Z) (L : nat)
    (domains : list Z) : outcome Z :=
  match index !! L with
  | None => Val 0
  | Some idxL =>
      match all_mask !! L with
      | None => Exc KeyError
      | Some cand =>
          r ← for_enum (candidates_step fuel idxL domains) 0%nat path_cells cand;
          match r with
          | Go cand => Val cand
          | Stop z => Val z
          end
      end
  end.

(** [if hit: mask |= (1 << letter)]. *)
Definition with_letter (hit : Z) (mask : Z) (letter : nat) : Z :=
  if hit =? 0 then mask else Z.lor mask (Z.shiftl 1 (Z.of_nat letter)).

Fixpoint letters_from (cands : Z) (index_pos : list Z) (letters : list nat)
    (mask : Z) : outcome Z :=
  match letters with
  | [] => Val mask
  | letter :: rest =>
      b ← indexed (index_pos !! letter);
      letters_from cands index_pos rest (with_letter (Z.land cands b) mask letter)
  end.

Definition possible_letters_at_pos (cands : Z) (index_pos : list Z) : outcome Z :=
  letters_from cands index_pos (seq 0 26) 0.

(** First loop of a pass: path candidates from the cell domains.
    [Stop] is [return False], with [path_cands] as it then is. *)
Definition update_path_step (fuel : nat) (domains : list Z)
    (pid : nat) (p : path) (s : list Z * bool)
  : outcome (flow (list Z * bool) (list Z)) :=
  let '(cells, L) := p in
  let '(path_cands, changed) := s in
  new_pc ← compute_path_candidates fuel cells L domains;
  if new_pc =? 0 then Val (Stop path_cands)
  else
    old ← indexed (path_cands !! pid);
    if new_pc =? old then Val (Go (path_cands, changed))
    else Val (Go (<[pid := new_pc]> path_cands, true)).

(** Second loop: [new_domains] from the path candidates. *)
Definition narrow_cell_step (cands : Z) (idxL : list (list Z))
    (pos : nat) (cell : Z) (new_domains : list Z)
  : outcome (flow (list Z) unit) :=
  old ← indexed (py_index new_domains cell);
  index_pos ← indexed (idxL !! pos);
  letters ← possible_letters_at_pos cands index_pos;
  let nd := Z.land old letters in
  new_domains ← indexed (py_store new_domains cell nd);
  if nd =? 0 then Val (Stop tt) else Val (Go new_domains).

Definition narrow_path_step (path_cands : list Z)
    (pid : nat) (p : path) (new_domains : list Z)
  : outcome (flow (list Z) unit) :=
  let '(cells, L) := p in
  cands ← indexed (path_cands !! pid);
  match index !! L with
  | None => Exc KeyError
  | Some idxL => for_enum (narrow_cell_step cands idxL) 0%nat cells new_domains
  end.

(** Third loop: intersect with the existing domains. *)
Definition intersect_step (new_domains : list Z) (i : nat) (s : list Z * bool)
  : outcome (flow (list Z * bool) (list Z)) :=
  let '(domains, changed) := s in
  n ← indexed (new_domains !! i);
  d ← indexed (domains !! i);
  let nd := Z.land n d in
  if nd =? 0 then Val (Stop domains)
  else if nd =? d then Val (Go (domains, changed))
  else Val (Go (<[i := nd]> domains, true)).

Fixpoint intersect_loop (new_domains : list Z) (cells : list nat)
    (s : list Z * bool) : outcome (flow (list Z * bool) (list Z)) :=
  match cells with
  | [] => Val (Go s)
  | i :: rest =>
      r ← intersect_step new_domains i s;
      match r with
      | Go s' => intersect_loop new_domains rest s'
      | Stop r => Val (Stop r)
      end
  end.

(** One pass of the [while] loop of [propagate].  [Go (st, changed)]:
    the pass ran to its end; [Stop st]: it executed [return False]. *)
Definition propagate_pass (fuel : nat) (st : pstate)
  : outcome (flow (pstate * bool) pstate) :=
  let '(domains, path_cands) := st in
  r1 ← for_enum (update_path_step fuel domains) 0%nat paths (path_cands, false);
  match r1 with
  | Stop path_cands => Val (Stop (domains, path_cands))
  | Go (path_cands, changed) =>
      r2 ← for_enum (narrow_path_step path_cands) 0%nat paths
             (replicate (Z.to_nat n_cells) ALL);
      match r2 with
      | Stop _ => Val (Stop (domains, path_cands))
      | Go new_domains =>
          r3 ← intersect_loop new_domains (seq 0 (Z.to_nat n_cells))
                 (domains, changed);
          match r3 with
          | Stop domains => Val (Stop (domains, path_cands))
          | Go (domains, changed) => Val (Go ((domains, path_cands), changed))
          end
      end
  end.

(** [propagate]: the result and the two lists as it leaves them. *)
Fixpoint propagate (fuel : nat) (st : pstate) : outcome (bool * pstate) :=
  match fuel with
  | O => OutOfFuel
  | S fuel' =>
      propagate_pass fuel' st ≫= fun r : flow (pstate * bool) pstate =>
      match r with
      | Stop st' => Val (false, st')
      | Go (st', changed) =>
          if changed then propagate fuel' st' else Val (true, st')
      end
  end.

(** ** Search *)

Definition solved (domains : list Z) : bool :=
  forallb (fun d => Z.land d (d - 1) =? 0) domains.

Definition choose_step (s : option nat * Z) (pid : nat) (c : Z) : option nat * Z :=
  let '(best, best_cnt) := s in
  let cnt := bitcount c in
  if (1 <? cnt) && (cnt <? best_cnt) then (Some pid, cnt) else (best, best_cnt).

Fixpoint choose_from (pid : nat) (path_cands : list Z) (s : option nat * Z)
  : option nat * Z :=
  match path_cands with
  | [] => s
  | c :: rest => choose_from (S pid) rest (choose_step s pid c)
  end.

Definition choose_branch_path (path_cands : list Z) : option nat :=
  fst (choose_from 0%nat path_cands (None, 10 ^ 9)).

Definition deref (h : heap) (l : nat) : list Z := default [] (h !! l).

Definition copy_list (h : heap) (l : nat) : nat * heap :=
  (length h, h ++ [deref h l]).

(** Forcing the cells of the chosen path to the letters of [w];
    [Stop] is the [break] on a conflict. *)
Definition force_step (w : word) (pos : nat) (cell : Z) (d2 : list Z)
  : outcome (flow (list Z) (list Z)) :=
  ch ← indexed (w !! pos);
  let letter := ch - 65 in
  if letter <? 0 then Exc ValueError
  else
    let mask := Z.shiftl 1 letter in
    old ← indexed (py_index d2 cell);
    if Z.land old mask =? 0 then Val (Stop d2)
    else
      d2 ← indexed (py_store d2 cell mask);
      Val (Go d2).

(** The body of [for wid in iter_bits(candidates)], given the recursive
    call.  [Stop] is [return res]. *)
Definition try_branch
    (rec : nat -> nat -> heap -> outcome (option nat * heap))
    (domains path_cands : nat) (pid : nat) (cells : list Z) (words : list word)
    (wid : Z) (h : heap) : outcome (flow heap (nat * heap)) :=
  if wid <? 0 then Exc IndexError
  else
    w ← indexed (words !! Z.to_nat wid);
    let '(d2, h1) := copy_list h domains in
    let '(pc2, h2) := copy_list h1 path_cands in
    let h3 : heap := <[pc2 := <[pid := Z.shiftl 1 wid]> (deref h2 pc2)]> h2 in
    r ← for_enum (force_step w) 0%nat cells (deref h3 d2);
    match r with
    | Stop ds => Val (Go (<[d2 := ds]> h3))
    | Go ds =>
        '(res, h4) ← rec d2 pc2 (<[d2 := ds]> h3);
        match res with
        | Some res => Val (Stop (res, h4))
        | None => Val (Go h4)
        end
    end.

Fixpoint solve (fuel : nat) (domains path_cands : nat) (h : heap)
  : outcome (option nat * heap) :=
  match fuel with
  | O => OutOfFuel
  | S fuel' =>
      '(ok, (ds, pcs)) ← propagate fuel' (deref h domains, deref h path_cands);
      let h1 : heap := <[path_cands := pcs]> (<[domains := ds]> h) in
      if negb ok then Val (None, h1)
      else if solved ds then Val (Some domains, h1)
      else
        match choose_branch_path pcs with
        | None => Val (None, h1)
        | Some pid =>
            '(cells, L) ← indexed (paths !! pid);
            let words := default [] (words_by_len !! L) in
            candidates ← indexed (pcs !! pid);
            r ← for_bits fuel'
                  (try_branch (solve fuel') domains path_cands pid cells words)
                  candidates h1;
            match r with
            | Go h2 => Val (None, h2)
            | Stop (res, h2) => Val (Some res, h2)
            end
        end
  end.

End Solver.

#[global] Arguments possible_letters_at_pos : simpl never.
#[global] Arguments letter_bits_at : simpl never.

(** ** Board extraction and the driver *)

(** [chr] raises [ValueError] outside [range(0x110000)]. *)
Definition chr (c : Z) : outcome Z :=
  if (0 <=? c) && (c <? 1114112) then Val c else Exc ValueError.

Definition mask_to_letter (mask : Z) : outcome Z :=
  chr (65 + (bit_length mask - 1)).

Fixpoint traverse {A B} (f : A -> outcome B) (l : list A) : outcome (list B) :=
  match l with
  | [] => Val []
  | x :: l' => y ← f x; ys ← traverse f l'; Val (y :: ys)
  end.

(** [" ".join(row)] for a row of one-character strings. *)
Fixpoint join_spaces (row : list Z) : word :=
  match row with
  | [] => []
  | [c] => [c]
  | c :: row' => c :: 32 :: join_spaces row'
  end.

Definition linear_cells (ncols : Z) (coords : list (Z * Z)) : list Z :=
  map (fun '(r, c) => r * ncols + c) coords.

Definition board_row (sol : list Z) (ncols : Z) (r : nat) : outcome (list Z) :=
  traverse (fun c : nat =>
              mask ← indexed (py_index sol (Z.of_nat r * ncols + Z.of_nat c));
              mask_to_letter mask)
           (seq 0 (Z.to_nat ncols)).

Definition no_solution_line : word := codepoints "No solution found.".

Section Main.

Variable str_strip : word -> word.
Variable str_isalpha : word -> bool.
Variable str_upper : word -> word.

(** The arguments [main] builds for [solve], in the store
    [[domains; path_cands]]. *)
Definition main_paths (data : list (list (Z * Z))) : list path :=
  let '(raw_paths, nrows, ncols, max_len) := load_paths data in
  map (fun '(coords, L) => (linear_cells ncols coords, L)) raw_paths.

Definition main_words (data : list (list (Z * Z))) (lines : list word)
  : gmap nat (list word) :=
  let '(raw_paths, nrows, ncols, max_len) := load_paths data in
  load_dictionary str_strip str_isalpha str_upper max_len lines.

(** [main]: the lines it prints. *)
Definition main (fuel : nat) (data : list (list (Z * Z))) (lines : list word)
  : outcome (list word) :=
  let '(raw_paths, nrows, ncols, max_len) := load_paths data in
  let words_by_len :=
    load_dictionary str_strip str_isalpha str_upper max_len lines in
  '(index, all_mask) ← build_index words_by_len;
  let paths := map (fun '(coords, L) => (linear_cells ncols coords, L)) raw_paths in
  let n_cells := nrows * ncols in
  let domains := replicate (Z.to_nat n_cells) ALL in
  let path_cands := map (fun p : path => default 0 (all_mask !! snd p)) paths in
  '(sol, h) ← solve paths index all_mask n_cells words_by_len fuel
                0%nat 1%nat [domains; path_cands];
  match sol with
  | None => Val [no_solution_line]
  | Some sol =>
      rows ← traverse (board_row (deref h sol) ncols) (seq 0 (Z.to_nat nrows));
      Val (map join_spaces rows)
  end.

End Main.

(** Stand-ins for the three string routines on Latin-1 text, for running
    the loader on examples. *)
Definition is_space (c : Z) : bool :=
  (c =? 32) || ((9 <=? c) && (c <=? 13)).

Fixpoint lstrip (w : word) : word :=
  match w with
  | [] => []
  | c :: w' => if is_space c then lstrip w' else w
  end.

Definition latin_strip (w : word) : word :=
  reverse (lstrip (reverse (lstrip w))).

Definition latin_alpha (c : Z) : bool :=
  ((65 <=? c) && (c <=? 90)) || ((97 <=? c) && (c <=? 122))
  || (c =? 170) || (c =? 181) || (c =? 186)
  || ((192 <=? c) && (c <=? 255) && negb (c =? 215) && negb (c =? 247)).

Definition latin_isalpha (w : word) : bool :=
  negb (bool_decide (w = [])) && forallb latin_alpha w.

Definition latin_upper_char (c : Z) : word :=
  if (97 <=? c) && (c <=? 122) then [c - 32]
  else if c =? 181 then [924]
  else if c =? 223 then [83; 83]
  else if c =? 255 then [376]
  else if (224 <=? c) && (c <=? 254) && negb (c =? 247) then [c - 32]
  else [c].

Definition latin_upper (w : word) : word :=
  concat (map latin_upper_char w).

(** ** Specification vocabulary *)

(** A loop over a list whose body may leave early: what [for_bits] does
    on the list of set bits. *)
Fixpoint for_each {A S R} (body : A -> S -> outcome (flow S R))
    (l : list A) (s : S) : outcome (flow S R) :=
  match l with
  | [] => Val (Go s)
  | x :: l' =>
      r ← body x s;
      match r with
      | Go s' => for_each body l' s'
      | Stop r => Val (Stop r)
      end
  end.

(** The indices of the ones of [p], counted from [i], lowest first. *)
Fixpoint pos_bits (p : positive) (i : Z) : list Z :=
  match p with
  | xH => [i]
  | xO p' => pos_bits p' (i + 1)
  | xI p' => i :: pos_bits p' (i + 1)
  end.

Definition set_bits (x : Z) : list Z :=
  match x with
  | Zpos p => pos_bits p 0
  | _ => []
  end.

(** [a] has no bit that [b] lacks. *)
Definition bits_sub (a b : Z) : Prop := Z.land a b = a.

(** [new] has a bit that [old] lacks. *)
Definition gains_bit (old new : Z) : Prop :=
  exists i, 0 <= i /\ Z.testbit new i = true /\ Z.testbit old i = false.

(** The words allowed at a position: those of the tables of the letters
    still in the domain. *)
Definition in_allowed (index_pos : list Z) (allowed : Z) (w : Z) : Prop :=
  exists l b, l ∈ set_bits allowed /\ index_pos !! Z.to_nat l = Some b
              /\ Z.testbit b w = true.

(** Word [w] agrees with the domain of [cell], the [pos]-th cell of a
    path: some letter of the domain has [w] in its table at [pos]. *)
Definition supports (idxL : list (list Z)) (domains : list Z)
    (pos : nat) (cell : Z) (w : Z) : Prop :=
  exists allowed index_pos,
    py_index domains cell = Some allowed /\ idxL !! pos = Some index_pos
    /\ in_allowed index_pos allowed w.

(** Every letter table of the index has its 26 entries. *)
Definition index_wf (index : gmap nat (list (list Z))) : Prop :=
  forall L idxL, index !! L = Some idxL -> Forall (fun lb => length lb = 26%nat) idxL.

Definition flow_value {S} (r : flow S S) : S :=
  match r with
  | Go s => s
  | Stop s => s
  end.

(** What the first loop of a pass has done to [path_cands] once it has
    handled the paths before [j]. *)
Definition paths_updated (paths : list path) (index : gmap nat (list (list Z)))
    (all_mask : gmap nat Z) (fuel : nat) (domains : list Z)
    (path_cands path_cands' : list Z) (j : nat) : Prop :=
  (j <= length paths)%nat /\
  length path_cands' = length path_cands /\
  (forall k cells L, (k < j)%nat -> paths !! k = Some (cells, L) ->
     exists c, compute_path_candidates index all_mask fuel cells L domains = Val c
               /\ c <> 0 /\ path_cands' !! k = Some c) /\
  (forall k, (j <= k)%nat -> path_cands' !! k = path_cands !! k).

(** What the third loop has done to [domains] at cell [i]. *)
Definition cell_narrowed (new_domains domains domains' : list Z) (i : nat) : Prop :=
  exists n d, new_domains !! i = Some n /\ domains !! i = Some d
              /\ Z.land n d <> 0 /\ domains' !! i = Some (Z.land n d).

Definition intersect_value (r : flow (list Z * bool) (list Z)) : list Z :=
  match r with
  | Go (domains, _) => domains
  | Stop domains => domains
  end.

(** Entry by entry, [l'] has no bit that [l] lacks. *)
Definition all_sub (l' l : list Z) : Prop :=
  length l' = length l /\
  forall i v, l' !! i = Some v -> exists d, l !! i = Some d /\ bits_sub v d.

(** The two lists as a pass leaves them, however it ends. *)
Definition pass_state (r : flow (pstate * bool) pstate) : pstate :=
  match r with
  | Go (st, _) => st
  | Stop st => st
  end.

(** A dictionary with a repeated line, and one path over two cells. *)
Definition ab_ab_cd : gmap nat (list word) :=
  {[ 2%nat := [codepoints "AB"; codepoints "AB"; codepoints "CD"] ]}.

Definition ab_index : gmap nat (list (list Z)) :=
  match build_index ab_ab_cd with
  | Val (index, _) => index
  | _ => ∅
  end.

Definition ab_mask : gmap nat Z :=
  match build_index ab_ab_cd with
  | Val (_, all_mask) => all_mask
  | _ => ∅
  end.

Definition one_path : list path := [([0; 1], 2%nat)].

(** Measures of a list of domains: the sum of [f d] over its entries. *)
Fixpoint weigh (f : Z -> Z) (l : list Z) : Z :=
  match l with
  | [] => 0
  | d :: l' => f d + weigh f l'
  end.

(** The first [n] cells hold bitsets over the alphabet. *)
Definition domains_in_range (n : nat) (ds : list Z) : Prop :=
  forall i, (i < n)%nat -> exists d, ds !! i = Some d /\ 0 < d <= ALL.

(** Fuel that lets [propagate] finish from [ds]. *)
Definition propagate_fuel (ds : list Z) : nat :=
  (Z.to_nat (weigh (Z.max ALL) ds) + 30)%nat.

(** Word [wid] of [words] has letter number [li] (0 for A) at [pos]. *)
Definition has_letter (words : list word) (pos : nat) (li : nat) (wid : Z) : Prop :=
  0 <= wid /\
  exists w ch, words !! Z.to_nat wid = Some w /\ w !! pos = Some ch
               /\ ch - 65 = Z.of_nat li.

(** What [build_index] stores for one length. *)
Definition tables_ok (L : nat) (words : list word) (tables : list (list Z)) : Prop :=
  length tables = L /\
  forall pos lb, tables !! pos = Some lb ->
    length lb = 26%nat /\
    forall li b, lb !! li = Some b ->
      forall wid, Z.testbit b wid = true <-> has_letter words pos li wid.

Definition index_ok (words_by_len : gmap nat (list word))
    (index : gmap nat (list (list Z))) (all_mask : gmap nat Z) : Prop :=
  forall L,
    match words_by_len !! L with
    | Some (w :: ws) =>
        exists tables,
          index !! L = Some tables
          /\ all_mask !! L = Some (Z.shiftl 1 (Z.of_nat (length (w :: ws))) - 1)
          /\ tables_ok L (w :: ws) tables
    | _ => index !! L = None /\ all_mask !! L = None
    end.

(** [h'] extends [h]: every list object of [h] is still there, unchanged. *)
Definition heap_extends (h h' : heap) : Prop :=
  (length h <= length h')%nat /\
  forall l, (l < length h)%nat -> h' !! l = h !! l.

(** [h'] extends [h] except, possibly, at the two references [d] and [pc]. *)
Definition heap_extends_but (d pc : nat) (h h' : heap) : Prop :=
  (length h <= length h')%nat /\
  forall l, (l < length h)%nat -> l <> d -> l <> pc -> h' !! l = h !! l.

(** Three cells in a triangle, and a dictionary that cannot fill it. *)
Definition ab_ba : gmap nat (list word) :=
  {[ 2%nat := [codepoints "AB"; codepoints "BA"] ]}.

Definition ab_ba_index : gmap nat (list (list Z)) :=
  match build_index ab_ba with
  | Val (index, _) => index
  | _ => ∅
  end.

Definition ab_ba_mask : gmap nat Z :=
  match build_index ab_ba with
  | Val (_, all_mask) => all_mask
  | _ => ∅
  end.

Definition triangle : list path :=
  [([0; 1], 2%nat); ([1; 2], 2%nat); ([2; 0], 2%nat)].

(** The store a branch hands to the recursive call: the two copies at
    the end, the copy of [path_cands] forced to [wid], the copy of
    [domains] as the forcing loop left it. *)
Definition branch_heap (h : heap) (d pc pid : nat) (wid : Z) (ds2 : list Z) : heap :=
  let h1 := h ++ [deref h d] in
  let h2 := h1 ++ [deref h1 pc] in
  <[length h := ds2]>
    (<[length h1 := <[pid := Z.shiftl 1 wid]> (deref h2 (length h1))]> h2).

(** A domain with exactly one letter. *)
Definition single_letter (d : Z) : Prop :=
  exists k, 0 <= k < 26 /\ d = Z.shiftl 1 k.

(** The cells of a path, read in path order on the board [sol], spell [w]. *)
Definition spells (sol : list Z) (cells : list Z) (w : word) : Prop :=
  Forall2 (fun cell ch =>
             0 <= ch - 65 < 26 /\ py_index sol cell = Some (Z.shiftl 1 (ch - 65)))
          cells w.

(** The dictionary groups words by their length. *)
Definition grouped_by_length (words_by_len : gmap nat (list word)) : Prop :=
  forall L ws, words_by_len !! L = Some ws -> Forall (fun w => length w = L) ws.

(** Each path carries its own length, as [load_paths] builds it. *)
Definition paths_wf (paths : list path) : Prop :=
  Forall (fun p : path => length (fst p) = snd p) paths.

(** What a returned board satisfies. *)
Definition board_sound (paths : list path) (words_by_len : gmap nat (list word))
    (n_cells : Z) (sol : list Z) : Prop :=
  length sol = Z.to_nat n_cells /\
  Forall single_letter sol /\
  forall cells L, (cells, L) ∈ paths ->
    exists w, w ∈ default [] (words_by_len !! L) /\ spells sol cells w.

(** A 2 x 2 grid crossed by three paths, and its dictionary. *)
Definition at_to_so : gmap nat (list word) :=
  {[ 2%nat := [codepoints "AT"; codepoints "TO"; codepoints "SO"] ]}.

Definition at_to_so_index : gmap nat (list (list Z)) :=
  match build_index at_to_so with
  | Val (index, _) => index
  | _ => ∅
  end.

Definition at_to_so_mask : gmap nat Z :=
  match build_index at_to_so with
  | Val (_, all_mask) => all_mask
  | _ => ∅
  end.

Definition square : list path :=
  [([0; 1], 2%nat); ([1; 3], 2%nat); ([2; 3], 2%nat)].

(** What [load_dictionary] keeps of a line: the stripped, upper-cased
    word, when it is alphabetic and of a length in [1, max_len]. *)
Definition accepted (str_strip : word -> word) (str_isalpha : word -> bool)
    (str_upper : word -> word) (max_len : nat) (line : word) : option word :=
  let w := str_strip line in
  if bool_decide (w = []) || negb (str_isalpha w) then None
  else
    let w := str_upper w in
    if (1 <=? length w)%nat && (length w <=? max_len)%nat then Some w else None.

(** The lines of a dictionary file with the same word three times. *)
Definition cat_lines : list word :=
  [codepoints "cat"; codepoints "dog"; codepoints "CAT"; codepoints " Cat "].




(** A dictionary file with a letter outside A-Z: "éa" is alphabetic and
    upper-cases to "ÉA" (code point 201). *)
Definition ea_words : gmap nat (list word) :=
  load_dictionary latin_strip latin_isalpha latin_upper 2 [[233; 97]; codepoints "ba"].

Definition ea_index : gmap nat (list (list Z)) :=
  match build_index ea_words with
  | Val (index, _) => index
  | _ => ∅
  end.

Definition ea_mask : gmap nat Z :=
  match build_index ea_words with
  | Val (_, all_mask) => all_mask
  | _ => ∅
  end.

(** A printed grid: [nrows] rows of [ncols] capital letters. *)
Definition letter_grid (nrows ncols : Z) (rows : list (list Z)) : Prop :=
  length rows = Z.to_nat nrows /\
  Forall (fun row => length row = Z.to_nat ncols /\ Forall (fun c => 65 <= c <= 90) row)
         rows.

(** [pid] is the path [choose_branch_path] must pick: the fewest
    candidates among the paths with more than one, the earliest among
    equals. *)
Definition fewest_candidates (path_cands : list Z) (pid : nat) : Prop :=
  exists c, path_cands !! pid = Some c /\ 1 < bitcount c /\
    forall i c', path_cands !! i = Some c' -> 1 < bitcount c' ->
      bitcount c <= bitcount c' /\ (bitcount c' = bitcount c -> (pid <= i)%nat).

(** The invariant of the loop of [choose_branch_path] over the entries
    seen so far. *)
Definition choose_inv (seen : list Z) (s : option nat * Z) : Prop :=
  (fst s = None -> snd s = 10 ^ 9) /\
  (forall i c, seen !! i = Some c -> 1 < bitcount c -> bitcount c < 10 ^ 9 ->
               is_Some (fst s)) /\
  (forall p, fst s = Some p ->
     exists c, seen !! p = Some c /\ bitcount c = snd s /\ 1 < snd s < 10 ^ 9 /\
       forall i c', seen !! i = Some c' -> 1 < bitcount c' ->
         snd s <= bitcount c' /\ (bitcount c' = snd s -> (p <= i)%nat)).

(** ** Vocabulary of completeness *)

(** An assignment [sigma] of a letter number (0 for A) to every cell lies
    inside the domains [ds]. *)
Definition fits (sigma ds : list Z) : Prop :=
  forall i d, ds !! i = Some d ->
    exists l, sigma !! i = Some l /\ Z.testbit d l = true.

(** Read in path order on [sigma], the cells spell [w]. *)
Definition reads (sigma : list Z) (cells : list Z) (w : word) : Prop :=
  Forall2 (fun cell ch => py_index sigma cell = Some (ch - 65)) cells w.

(** [sigma] gives one letter to every cell and every path spells a word
    of the dictionary's list for its length.  (Two paths that share a cell
    agree on it: [sigma] has one letter per cell.) *)
Definition solution (paths : list path) (words_by_len : gmap nat (list word))
    (n_cells : Z) (sigma : list Z) : Prop :=
  length sigma = Z.to_nat n_cells /\
  Forall (fun l => 0 <= l < 26) sigma /\
  forall cells L, (cells, L) ∈ paths ->
    exists w, w ∈ default [] (words_by_len !! L) /\ reads sigma cells w.

(** The paths stay on the grid. *)
Definition cells_in_range (paths : list path) (n_cells : Z) : Prop :=
  forall cells L, (cells, L) ∈ paths -> Forall (fun cell => 0 <= cell < n_cells) cells.

(** Every cell of the grid lies on some path. *)
Definition covered (paths : list path) (n_cells : Z) : Prop :=
  forall i, 0 <= i < n_cells -> exists cells L, (cells, L) ∈ paths /\ i ∈ cells.

(** No word list holds a word twice, and each has at most [bound] words. *)
Definition distinct_words (words_by_len : gmap nat (list word)) (bound : nat) : Prop :=
  forall L ws, words_by_len !! L = Some ws -> NoDup ws /\ (length ws <= bound)%nat.

(** The states the search runs on: one domain over the alphabet per
    cell, one candidate set per path. *)
Definition good_state (paths : list path) (n_cells : Z) (ds pcs : list Z) : Prop :=
  length ds = Z.to_nat n_cells /\
  domains_in_range (Z.to_nat n_cells) ds /\
  length pcs = length paths.

(** The entry of [cell] in [nd] has no bit outside [mask]. *)
Definition cell_bound (nd : list Z) (cell : Z) (mask : Z) : Prop :=
  exists v, py_index nd cell = Some v /\ bits_sub v mask.

(** [solve] returns, and, when the paths cover the grid and no word list
    has more than [bound] < 10^9 words, with a list whenever a solution lies
    inside the domains [ds] it started from. *)
Definition finds_solution (paths : list path) (words_by_len : gmap nat (list word))
    (n_cells : Z) (bound : nat) (ds : list Z) (r : outcome (option nat * heap))
  : Prop :=
  exists res h', r = Val (res, h') /\
    (covered paths n_cells -> Z.of_nat bound < 10 ^ 9 ->
     forall sigma, solution paths words_by_len n_cells sigma -> fits sigma ds ->
                   res <> None).

(** Fuel that lets [solve] finish on a grid of [n_cells] cells when no
    word list has more than [bound] words. *)
Definition solve_fuel (n_cells : Z) (bound : nat) : nat :=
  (Z.to_nat (ALL * n_cells) + bound + 30)%nat.

(** Two paths around a corner of a 2 x 2 grid, cell 2 on neither, and
    their dictionary. *)
Definition at_to : gmap nat (list word) :=
  {[ 2%nat := [codepoints "AT"; codepoints "TO"] ]}.

Definition at_to_index : gmap nat (list (list Z)) :=
  match build_index at_to with
  | Val (index, _) => index
  | _ => ∅
  end.

Definition at_to_mask : gmap nat Z :=
  match build_index at_to with
  | Val (_, all_mask) => all_mask
  | _ => ∅
  end.

Definition corner : list path :=
  [([0; 1], 2%nat); ([1; 3], 2%nat)].

(** The two lists [main] hands to [solve]: full domains, and for each
    path the all-words set of its length. *)
Definition initial_store (paths : list path) (all_mask : gmap nat Z) (n_cells : Z)
  : heap :=
  [replicate (Z.to_nat n_cells) ALL;
   map (fun p : path => default 0 (all_mask !! snd p)) paths].

(** Two paths that share no cell, on the two rows of a 2 x 2 grid. *)
Definition two_rows : list path :=
  [([0; 1], 2%nat); ([2; 3], 2%nat)].

(** ** Vocabulary of the branching loop *)

(** Forcing the letters of [w], from its position [p0] on, onto the
    cells of a path: [ds2] is [ds] with every cell of the path set to the
    single letter [w] has at that position, each of them a letter the
    domain of the cell in [ds] holds; the other cells are as in [ds]. *)
Definition forced (p0 : nat) (w : word) (cells : list Z) (ds ds2 : list Z) : Prop :=
  length ds2 = length ds /\
  (forall k cell, cells !! k = Some cell ->
     exists ch i d,
       w !! (p0 + k)%nat = Some ch /\ 0 <= ch - 65
       /\ py_pos ds cell = Some i /\ ds !! i = Some d
       /\ Z.testbit d (ch - 65) = true
       /\ ds2 !! i = Some (Z.shiftl 1 (ch - 65))) /\
  (forall i, (forall k cell, cells !! k = Some cell -> py_pos ds cell <> Some i) ->
             ds2 !! i = ds !! i).

(** The word does not fit: its letters can be forced onto the cells
    before position [k] of the path, which gives [ds1], and the cell at
    position [k] then lacks the letter of [w] there. *)
Definition conflict (p0 : nat) (w : word) (cells : list Z) (ds ds1 : list Z) : Prop :=
  exists k cell ch old,
    cells !! k = Some cell /\ w !! (p0 + k)%nat = Some ch /\ 0 <= ch - 65
    /\ forced p0 w (take k cells) ds ds1
    /\ py_index ds1 cell = Some old
    /\ Z.land old (Z.shiftl 1 (ch - 65)) = 0.

(** What the loop of [solve] over the candidate words [wids] of the path
    [pid] returns from the store [h], in terms of the recursive calls [rec].
    Each word is tried from two new lists at the end of the store: the
    copy of the domains, and the copy of the candidate sets with the entry
    of the path set to the word.  A word that does not fit is skipped; a
    word that fits is forced and [rec] is called on the two copies; the
    first list a call returns is the result, and with none the result is
    [None]. *)
Inductive tries (rec : nat -> nat -> heap -> outcome (option nat * heap))
    (d pc pid : nat) (cells : list Z) (words : list word)
  : list Z -> heap -> option nat * heap -> Prop :=
  | tries_none h :
      tries rec d pc pid cells words [] h (None, h)
  | tries_skip wid wids h w ds1 r :
      words !! Z.to_nat wid = Some w ->
      conflict 0 w cells (deref h d) ds1 ->
      tries rec d pc pid cells words wids
        (h ++ [ds1; <[pid := Z.shiftl 1 wid]> (deref h pc)]) r ->
      tries rec d pc pid cells words (wid :: wids) h r
  | tries_fail wid wids h w ds2 h' r :
      words !! Z.to_nat wid = Some w ->
      forced 0 w cells (deref h d) ds2 ->
      rec (length h) (S (length h))
        (h ++ [ds2; <[pid := Z.shiftl 1 wid]> (deref h pc)]) = Val (None, h') ->
      tries rec d pc pid cells words wids h' r ->
      tries rec d pc pid cells words (wid :: wids) h r
  | tries_found wid wids h w ds2 res h' :
      words !! Z.to_nat wid = Some w ->
      forced 0 w cells (deref h d) ds2 ->
      rec (length h) (S (length h))
        (h ++ [ds2; <[pid := Z.shiftl 1 wid]> (deref h pc)]) = Val (Some res, h') ->
      tries rec d pc pid cells words (wid :: wids) h (Some res, h').

(** What [solve] returns for the way its loop ended. *)
Definition loop_result (t : flow heap (nat * heap)) : option nat * heap :=
  match t with
  | Go h => (None, h)
  | Stop (res, h) => (Some res, h)
  end.

(** * Properties *)

(** ** The bit loop *)

Lemma land_odd_odd a b : Z.land (2 * a + 1) (2 * b + 1) = 2 * Z.land a b + 1.
Proof.
  apply Z.bits_inj'. intros n Hn.
  rewrite Z.land_spec.
  destruct (Z.eq_dec n 0) as [->|Hne].
  - by rewrite !Z.testbit_odd_0.
  - replace n with (Z.succ (n - 1)) by lia.
    rewrite !Z.testbit_odd_succ by lia. by rewrite Z.land_spec.
Qed.

Lemma lxor_odd_one a : Z.lxor (2 * a + 1) 1 = 2 * a.
Proof.
  apply Z.bits_inj'. intros n Hn.
  rewrite Z.lxor_spec.
  destruct (Z.eq_dec n 0) as [->|Hne].
  - rewrite Z.testbit_odd_0, Z.testbit_even_0. done.
  - assert (Z.testbit 1 n = false) as ->
      by (destruct n as [|q|q]; [done|by destruct q|done]).
    replace n with (Z.succ (n - 1)) by lia.
    rewrite Z.testbit_odd_succ, Z.testbit_even_succ by lia.
    by destruct (Z.testbit a (n - 1)).
Qed.

(** The lowest set bit of [(2a+1) * 2^i] is [2^i]. *)
Lemma lowbit_shifted a i :
  0 <= i -> Z.land ((2 * a + 1) * 2 ^ i) (- ((2 * a + 1) * 2 ^ i)) = 2 ^ i.
Proof.
  intros Hi.
  replace (- ((2 * a + 1) * 2 ^ i)) with ((2 * Z.lnot a + 1) * 2 ^ i)
    by (unfold Z.lnot; lia).
  rewrite <- !Z.shiftl_mul_pow2 by done.
  rewrite <- Z.shiftl_land, land_odd_odd, Z.land_lnot_diag.
  rewrite Z.shiftl_mul_pow2 by done. lia.
Qed.

Lemma clear_lowbit_shifted a i :
  0 <= i -> Z.lxor ((2 * a + 1) * 2 ^ i) (2 ^ i) = a * 2 ^ (i + 1).
Proof.
  intros Hi.
  replace (2 ^ i) with (1 * 2 ^ i) at 2 by lia.
  rewrite <- !Z.shiftl_mul_pow2 by done.
  rewrite <- Z.shiftl_lxor, lxor_odd_one.
  rewrite Z.shiftl_mul_pow2 by done.
  rewrite Z.pow_add_r by lia. lia.
Qed.

Lemma bit_length_pow2 i : 0 <= i -> bit_length (2 ^ i) - 1 = i.
Proof.
  intros Hi. unfold bit_length.
  assert (0 < 2 ^ i) by (apply Z.pow_pos_nonneg; lia).
  destruct (Z.eqb_spec (2 ^ i) 0); [lia|].
  rewrite Z.abs_eq by lia. rewrite Z.log2_pow2 by done. lia.
Qed.

(** One turn of the loop on a number whose lowest set bit is [i]. *)
Lemma for_bits_step {S R} fuel (body : Z -> S -> outcome (flow S R)) a i s :
  0 <= i ->
  for_bits (Datatypes.S fuel) body ((2 * a + 1) * 2 ^ i) s =
  r ← body i s;
  match r with
  | Go s' => for_bits fuel body (a * 2 ^ (i + 1)) s'
  | Stop r => Val (Stop r)
  end.
Proof.
  intros Hi. simpl.
  assert (0 < 2 ^ i) by (apply Z.pow_pos_nonneg; lia).
  destruct (Z.eqb_spec ((2 * a + 1) * 2 ^ i) 0) as [E|_];
    [apply Z.eq_mul_0 in E; lia|].
  rewrite lowbit_shifted, bit_length_pow2, clear_lowbit_shifted by done.
  done.
Qed.

Lemma for_bits_zero {S R} fuel (body : Z -> S -> outcome (flow S R)) s :
  for_bits (Datatypes.S fuel) body 0 s = Val (Go s).
Proof. done. Qed.

(** With fuel for every set bit and the final test, the loop is the
    list loop over [pos_bits]. *)
Lemma for_bits_pos_bits {S R} (body : Z -> S -> outcome (flow S R)) p :
  forall i fuel s,
    0 <= i -> (length (pos_bits p i) < fuel)%nat ->
    for_bits fuel body (Zpos p * 2 ^ i) s = for_each body (pos_bits p i) s.
Proof.
  induction p as [p IH|p IH|]; intros i fuel s Hi Hf; simpl in Hf.
  - destruct fuel as [|fuel]; [lia|].
    replace (Z.pos p~1) with (2 * Z.pos p + 1) by lia.
    rewrite for_bits_step by done. simpl.
    destruct (body i s) as [[s'|r]| |]; simpl; try done.
    apply IH; lia.
  - replace (Z.pos p~0 * 2 ^ i) with (Z.pos p * 2 ^ (i + 1))
      by (rewrite Z.pow_add_r by lia; lia).
    simpl. apply IH; lia.
  - destruct fuel as [|[|fuel]]; [lia|lia|].
    change (Z.pos 1) with (2 * 0 + 1).
    rewrite for_bits_step by done. simpl.
    destruct (body i s) as [[s'|r]| |]; simpl; done.
Qed.

Lemma for_bits_set_bits {S R} (body : Z -> S -> outcome (flow S R)) x fuel s :
  0 <= x -> (length (set_bits x) < fuel)%nat ->
  for_bits fuel body x s = for_each body (set_bits x) s.
Proof.
  intros Hx Hf. destruct x as [|p|p]; [|  |lia].
  - destruct fuel; [simpl in Hf; lia|done].
  - replace (Z.pos p) with (Z.pos p * 2 ^ 0) at 1 by lia.
    by apply for_bits_pos_bits.
Qed.

(** Whatever the fuel, a run that does not exhaust it is that list loop. *)
Lemma for_bits_pos_bits_partial {S R} (body : Z -> S -> outcome (flow S R)) p :
  forall i fuel s,
    0 <= i ->
    for_bits fuel body (Zpos p * 2 ^ i) s = OutOfFuel \/
    for_bits fuel body (Zpos p * 2 ^ i) s = for_each body (pos_bits p i) s.
Proof.
  induction p as [p IH|p IH|]; intros i fuel s Hi.
  - destruct fuel as [|fuel]; [by left|].
    replace (Z.pos p~1) with (2 * Z.pos p + 1) by lia.
    rewrite for_bits_step by done. simpl.
    destruct (body i s) as [[s'|r]| |]; simpl; auto.
    apply IH; lia.
  - replace (Z.pos p~0 * 2 ^ i) with (Z.pos p * 2 ^ (i + 1))
      by (rewrite Z.pow_add_r by lia; lia).
    simpl. apply IH; lia.
  - destruct fuel as [|fuel]; [by left|].
    change (Z.pos 1) with (2 * 0 + 1).
    rewrite for_bits_step by done. simpl.
    destruct (body i s) as [[s'|r]| |]; simpl; auto.
    destruct fuel; auto.
Qed.

Lemma for_bits_partial {S R} (body : Z -> S -> outcome (flow S R)) x fuel s :
  0 <= x ->
  for_bits fuel body x s = OutOfFuel \/
  for_bits fuel body x s = for_each body (set_bits x) s.
Proof.
  intros Hx. destruct x as [|p|p]; [|  |lia].
  - destruct fuel; auto.
  - replace (Z.pos p) with (Z.pos p * 2 ^ 0) at 1 2 by lia.
    by apply for_bits_pos_bits_partial.
Qed.

(** On a negative number the loop never runs to its end: the number
    stays negative. *)
Lemma for_bits_negative {S R} (body : Z -> S -> outcome (flow S R)) fuel :
  forall x s s', x < 0 -> for_bits fuel body x s <> Val (Go s').
Proof.
  induction fuel as [|fuel IH]; intros x s s' Hx; [done|].
  simpl. destruct (Z.eqb_spec x 0); [lia|].
  destruct (body _ s) as [[s1|r]| |]; simpl; try done.
  apply IH.
  assert (0 <= Z.land x (- x)) by (apply Z.land_nonneg; lia).
  destruct (Z.lt_ge_cases (Z.lxor x (Z.land x (- x))) 0) as [|Hge]; [done|].
  apply Z.lxor_nonneg in Hge. lia.
Qed.

(** ** The list of set bits *)

Lemma testbit_pos_xI p n : 0 <= n -> Z.testbit (Z.pos p~1) (n + 1) = Z.testbit (Z.pos p) n.
Proof.
  intros Hn. replace (Z.pos p~1) with (2 * Z.pos p + 1) by lia.
  apply Z.testbit_odd_succ. done.
Qed.

Lemma testbit_pos_xO p n : 0 <= n -> Z.testbit (Z.pos p~0) (n + 1) = Z.testbit (Z.pos p) n.
Proof.
  intros Hn. replace (Z.pos p~0) with (2 * Z.pos p) by lia.
  apply Z.testbit_even_succ. done.
Qed.

Lemma elem_of_pos_bits p : forall i j,
  j ∈ pos_bits p i <-> i <= j /\ Z.testbit (Z.pos p) (j - i) = true.
Proof.
  induction p as [p IH|p IH|]; intros i j; simpl.
  - rewrite elem_of_cons, IH. split.
    + intros [->|[Hle Hb]].
      * split; [lia|]. by rewrite Z.sub_diag.
      * split; [lia|]. replace (j - i) with (j - (i + 1) + 1) by lia.
        rewrite testbit_pos_xI by lia. done.
    + intros [Hle Hb]. destruct (Z.eq_dec j i) as [->|Hne]; [by left|right].
      split; [lia|]. replace (j - i) with (j - (i + 1) + 1) in Hb by lia.
      rewrite testbit_pos_xI in Hb by lia. done.
  - rewrite IH. split.
    + intros [Hle Hb]. split; [lia|].
      replace (j - i) with (j - (i + 1) + 1) by lia.
      rewrite testbit_pos_xO by lia. done.
    + intros [Hle Hb]. destruct (Z.eq_dec j i) as [->|Hne].
      * rewrite Z.sub_diag in Hb. done.
      * split; [lia|]. replace (j - i) with (j - (i + 1) + 1) in Hb by lia.
        rewrite testbit_pos_xO in Hb by lia. done.
  - rewrite list_elem_of_singleton. split.
    + intros ->. split; [lia|]. by rewrite Z.sub_diag.
    + intros [Hle Hb]. destruct (Z.eq_dec j i) as [->|Hne]; [done|].
      assert (0 < j - i) as Hpos by lia.
      destruct (j - i) as [|q|q]; [done|by destruct q|done].
Qed.

Lemma elem_of_set_bits x j :
  0 <= x -> j ∈ set_bits x <-> 0 <= j /\ Z.testbit x j = true.
Proof.
  intros Hx. destruct x as [|p|p]; [| |lia]; simpl.
  - rewrite elem_of_nil, Z.bits_0. split; [done|by intros [_ ?]].
  - rewrite elem_of_pos_bits, Z.sub_0_r. done.
Qed.

Lemma pos_bits_sorted p : forall i, StronglySorted Z.lt (pos_bits p i).
Proof.
  induction p as [p IH|p IH|]; intros i; simpl.
  - constructor; [apply IH|].
    apply Forall_forall. intros j Hj. apply elem_of_pos_bits in Hj. lia.
  - apply IH.
  - repeat constructor.
Qed.

(** [iter_bits] yields the set bits lowest first. *)
Lemma set_bits_sorted x : StronglySorted Z.lt (set_bits x).
Proof. destruct x; simpl; [constructor|apply pos_bits_sorted|constructor]. Qed.

Lemma length_pos_bits p : forall i, Z.of_nat (length (pos_bits p i)) = popcount p.
Proof.
  induction p as [p IH|p IH|]; intros i; simpl; [rewrite <- (IH (i + 1)); lia|apply IH|done].
Qed.

Lemma length_set_bits x : 0 <= x -> Z.of_nat (length (set_bits x)) = bitcount x.
Proof. destruct x; simpl; [done|intros; apply length_pos_bits|lia]. Qed.

Lemma set_bits_bound x n j :
  0 <= n -> 0 <= x < 2 ^ n -> j ∈ set_bits x -> 0 <= j < n.
Proof.
  intros Hn Hx Hj. apply elem_of_set_bits in Hj as [Hj Hb]; [|lia].
  split; [done|]. destruct (Z.lt_ge_cases j n) as [|Hge]; [done|].
  destruct (Z.eq_dec x 0) as [->|Hne]; [by rewrite Z.bits_0 in Hb|].
  rewrite Z.bits_above_log2 in Hb; [done|lia|].
  apply Z.log2_lt_pow2; [lia|]. 
  assert (2 ^ n <= 2 ^ j) by (apply Z.pow_le_mono_r; lia). lia.
Qed.

Lemma sorted_bounded_length (l : list Z) : forall lo hi,
  StronglySorted Z.lt l -> Forall (fun j => lo <= j < hi) l ->
  Z.of_nat (length l) <= Z.max 0 (hi - lo).
Proof.
  induction l as [|a l IH]; intros lo hi Hs Hb; simpl; [lia|].
  inversion Hs as [|? ? Hs' Hlt]; subst.
  inversion Hb as [|? ? Ha Hb']; subst.
  assert (Z.of_nat (length l) <= Z.max 0 (hi - (a + 1))); [|lia].
  apply IH; [done|].
  rewrite Forall_forall in *. intros j Hj.
  specialize (Hlt j Hj). specialize (Hb' j Hj). lia.
Qed.

Lemma length_set_bits_bound x n :
  0 <= n -> 0 <= x < 2 ^ n -> Z.of_nat (length (set_bits x)) <= n.
Proof.
  intros Hn Hx.
  pose proof (sorted_bounded_length (set_bits x) 0 n (set_bits_sorted x)) as H.
  rewrite Z.sub_0_r, Z.max_r in H by lia. apply H.
  apply Forall_forall. intros j Hj. by eapply set_bits_bound.
Qed.

(** ** Python list access *)

Lemma py_pos_lt {A} (l : list A) i n : py_pos l i = Some n -> (n < length l)%nat.
Proof.
  unfold py_pos. intros H.
  destruct (Z.leb_spec 0 i).
  - destruct (Z.ltb_spec i (Z.of_nat (length l))); simplify_eq. lia.
  - destruct (Z.leb_spec (- Z.of_nat (length l)) i); simplify_eq. lia.
Qed.

Lemma py_pos_nonneg {A} (l : list A) i :
  0 <= i < Z.of_nat (length l) -> py_pos l i = Some (Z.to_nat i).
Proof.
  intros Hi. unfold py_pos.
  destruct (Z.leb_spec 0 i); [|lia].
  destruct (Z.ltb_spec i (Z.of_nat (length l))); [done|lia].
Qed.

Lemma py_index_nonneg {A} (l : list A) i :
  0 <= i -> py_index l i = l !! Z.to_nat i.
Proof.
  intros Hi. unfold py_index, py_pos.
  destruct (Z.leb_spec 0 i); [|lia].
  destruct (Z.ltb_spec i (Z.of_nat (length l))); simpl; [done|].
  symmetry. apply lookup_ge_None. lia.
Qed.

Lemma py_index_pos {A} (l : list A) i n :
  py_pos l i = Some n -> py_index l i = l !! n.
Proof. unfold py_index. by intros ->. Qed.

Lemma py_index_is_Some {A} (l : list A) i :
  is_Some (py_index l i) <-> is_Some (py_pos l i).
Proof.
  unfold py_index. destruct (py_pos l i) as [n|] eqn:E; simpl.
  - split; [eauto|]. intros _. apply lookup_lt_is_Some. by eapply py_pos_lt.
  - done.
Qed.

Lemma py_store_is_Some {A} (l : list A) i x :
  is_Some (py_store l i x) <-> is_Some (py_pos l i).
Proof.
  unfold py_store. destruct (py_pos l i); simpl; split; intros H; eauto; by destruct H.
Qed.

Lemma py_pos_length {A B} (l : list A) (l' : list B) i :
  length l = length l' -> py_pos l i = py_pos l' i.
Proof. unfold py_pos. by intros ->. Qed.

(** ** Loops with an invariant *)

Lemma bind_Val {A B} (m : outcome A) (f : A -> outcome B) b :
  m ≫= f = Val b -> exists a, m = Val a /\ f a = Val b.
Proof. destruct m; simpl; [eauto|done|done]. Qed.

Lemma indexed_Val {A} (o : option A) a : indexed o = Val a -> o = Some a.
Proof. destruct o; simpl; congruence. Qed.

Lemma for_enum_inv {A S R} (body : nat -> A -> S -> outcome (flow S R))
    (I : nat -> S -> Prop) (Q : R -> Prop) (l : list A) :
  forall i0 s,
    (forall j x s0, l !! j = Some x -> I (i0 + j)%nat s0 ->
       match body (i0 + j)%nat x s0 with
       | Val (Go s1) => I (Datatypes.S (i0 + j)) s1
       | Val (Stop r) => Q r
       | _ => True
       end) ->
    I i0 s ->
    match for_enum body i0 l s with
    | Val (Go s') => I (i0 + length l)%nat s'
    | Val (Stop r) => Q r
    | _ => True
    end.
Proof.
  induction l as [|x l IH]; intros i0 s Hstep HI; simpl.
  - by rewrite Nat.add_0_r.
  - pose proof (Hstep 0%nat x s eq_refl) as H0. rewrite Nat.add_0_r in H0.
    specialize (H0 HI).
    destruct (body i0 x s) as [[s1|r]| |]; simpl; try done.
    replace (i0 + Datatypes.S (length l))%nat with (Datatypes.S i0 + length l)%nat by lia.
    apply IH; [|done].
    intros j y s0 Hj. specialize (Hstep (Datatypes.S j) y s0 Hj).
    by replace (i0 + Datatypes.S j)%nat with (Datatypes.S i0 + j)%nat in Hstep by lia.
Qed.

Lemma for_each_inv {A S R} (body : A -> S -> outcome (flow S R))
    (I : list A -> S -> Prop) (Q : R -> Prop) (l : list A) :
  forall seen s,
    (forall pre x post s0, seen ++ l = pre ++ x :: post -> length seen <= length pre ->
       I pre s0 ->
       match body x s0 with
       | Val (Go s1) => I (pre ++ [x]) s1
       | Val (Stop r) => Q r
       | _ => True
       end)%nat ->
    I seen s ->
    match for_each body l s with
    | Val (Go s') => I (seen ++ l) s'
    | Val (Stop r) => Q r
    | _ => True
    end.
Proof.
  induction l as [|x l IH]; intros dn s Hstep HI; simpl.
  - by rewrite app_nil_r.
  - pose proof (Hstep dn x l s eq_refl (le_n _) HI) as H0.
    destruct (body x s) as [[s1|r]| |]; simpl; try done.
    replace (dn ++ x :: l) with ((dn ++ [x]) ++ l) by (by rewrite <- app_assoc).
    apply IH; [|done].
    intros pre y post s0 E Hlen. apply (Hstep pre y post).
    + by rewrite <- E, <- app_assoc.
    + rewrite length_app in Hlen. simpl in Hlen. lia.
Qed.

(** ** [allowed_words_for_pos] *)

Lemma for_bits_no_stop {S R} (body : Z -> S -> outcome (flow S R)) fuel :
  (forall i s r, body i s <> Val (Stop r)) ->
  forall x s r, for_bits fuel body x s <> Val (Stop r).
Proof.
  intros Hb. induction fuel as [|fuel IH]; intros x s r; [done|].
  simpl. destruct (x =? 0); [done|].
  destruct (body _ s) as [[s1|r1]| |] eqn:E; simpl; [apply IH| |done|done].
  by apply Hb in E.
Qed.

(** Every nonzero integer is an odd number times a power of two. *)
Lemma odd_pow2_decompose x :
  x <> 0 -> exists a j, 0 <= j /\ x = (2 * a + 1) * 2 ^ j.
Proof.
  assert (forall p, exists a j, 0 <= j /\ Z.pos p = (2 * a + 1) * 2 ^ j) as Hpos.
  { induction p as [p _|p [a [j [Hj E]]]|].
    - exists (Z.pos p), 0. split; [done|]. lia.
    - exists a, (j + 1). split; [lia|].
      rewrite Z.pow_add_r by lia. lia.
    - exists 0, 0. done. }
  destruct x as [|p|p]; intros Hx; [done|apply Hpos|].
  destruct (Hpos p) as [a [j [Hj E]]].
  exists (- a - 1), j. split; [done|].
  replace (Z.neg p) with (- Z.pos p) by done. rewrite E. lia.
Qed.

(** The loop ends within [n + 1] turns when its body cannot go on from a
    bit at or beyond [n]: the bits it visits increase. *)
Lemma for_bits_total {S R} (body : Z -> S -> outcome (flow S R)) n :
  (forall i s, body i s <> OutOfFuel) ->
  (forall i s s', n <= i -> body i s <> Val (Go s')) ->
  forall fuel k y s,
    0 <= k <= n -> n - k < Z.of_nat fuel ->
    for_bits fuel body (y * 2 ^ k) s <> OutOfFuel.
Proof.
  intros Hfuel Hend. induction fuel as [|fuel IH]; intros k y s Hk Hf; [lia|].
  destruct (Z.eq_dec y 0) as [->|Hy]; [done|].
  destruct (odd_pow2_decompose y Hy) as [a [j [Hj ->]]].
  replace ((2 * a + 1) * 2 ^ j * 2 ^ k) with ((2 * a + 1) * 2 ^ (j + k))
    by (rewrite Z.pow_add_r by lia; lia).
  rewrite for_bits_step by lia.
  destruct (body (j + k) s) as [[s1|r]| |] eqn:E; simpl; try done.
  - destruct (Z.le_gt_cases n (j + k)) as [Hge|Hlt].
    + by apply Hend in E.
    + apply IH; lia.
  - by apply Hfuel in E.
Qed.

Lemma allowed_words_for_pos_total fuel index_pos m :
  (length index_pos < fuel)%nat ->
  allowed_words_for_pos fuel index_pos m <> OutOfFuel.
Proof.
  intros Hf. unfold allowed_words_for_pos.
  set (body := fun letter out => _).
  assert (for_bits fuel body m 0 <> OutOfFuel) as H.
  { replace m with (m * 2 ^ 0) by lia.
    apply (for_bits_total body (Z.of_nat (length index_pos))); [| |lia|lia].
    - intros i s. unfold body. destruct (py_index index_pos i); simpl; done.
    - intros i s s' Hi. unfold body.
      assert (0 <= i) by lia.
      rewrite py_index_nonneg by done.
      rewrite (lookup_ge_None_2 index_pos (Z.to_nat i)) by lia. done. }
  destruct (for_bits fuel body m 0) as [[?|?]| |]; done.
Qed.

Lemma allowed_words_list index_pos (l : list Z) : forall acc out,
  Forall (fun i => 0 <= i) l ->
  for_each (fun letter out =>
              b ← indexed (py_index index_pos letter);
              Val (Go (R := Z) (Z.lor out b))) l acc = Val (Go out) ->
  forall w, Z.testbit out w = true <->
            Z.testbit acc w = true \/
            exists i b, i ∈ l /\ index_pos !! Z.to_nat i = Some b /\ Z.testbit b w = true.
Proof.
  induction l as [|i l IH]; intros acc out Hl H w; simpl in H.
  - simplify_eq. split; [auto|]. intros [?|(i & b & Hi & _)]; [done|].
    by apply elem_of_nil in Hi.
  - inversion Hl as [|? ? Hi Hl']; subst.
    rewrite py_index_nonneg in H by done.
    destruct (index_pos !! Z.to_nat i) as [b|] eqn:E; simpl in H; [|done].
    rewrite (IH _ _ Hl' H w), Z.lor_spec, orb_true_iff. split.
    + intros [[?|?]|(i' & b' & ? & ? & ?)]; [by left|right..].
      * exists i, b. split_and!; [left|done|done].
      * exists i', b'. split_and!; [by right|done|done].
    + intros [?|(i' & b' & Hin & Hb & Ht)]; [by left; left|].
      apply elem_of_cons in Hin as [->|Hin].
      * left; right. congruence.
      * right. eauto.
Qed.

Lemma allowed_words_for_pos_val fuel index_pos m aw :
  allowed_words_for_pos fuel index_pos m = Val aw ->
  0 <= m /\ forall w, Z.testbit aw w = true <-> in_allowed index_pos m w.
Proof.
  unfold allowed_words_for_pos. set (body := fun letter out => _). intros H.
  apply bind_Val in H as [r [Hr H]].
  assert (forall i s r, body i s <> Val (Stop r)) as Hns.
  { intros i s r0. unfold body. destruct (py_index index_pos i); simpl; done. }
  destruct r as [out|out]; [|by apply for_bits_no_stop in Hr].
  simplify_eq.
  destruct (Z.lt_ge_cases m 0) as [Hneg|Hm]; [by apply for_bits_negative in Hr|].
  split; [done|]. intros w.
  destruct (for_bits_partial body m fuel 0 Hm) as [E|E]; [congruence|].
  rewrite E in Hr. apply allowed_words_list with (w := w) in Hr.
  - rewrite Hr, Z.bits_0. unfold in_allowed. split; [|by right].
    by intros [?|?].
  - apply Forall_forall. intros i Hi. apply elem_of_set_bits in Hi; [lia|done].
Qed.

(** The result does not depend on the fuel. *)
Lemma allowed_words_for_pos_fuel f1 f2 index_pos m aw :
  allowed_words_for_pos f1 index_pos m = Val aw ->
  (length index_pos < f2)%nat ->
  allowed_words_for_pos f2 index_pos m = Val aw.
Proof.
  intros H1 Hf.
  pose proof (allowed_words_for_pos_total f2 index_pos m Hf) as Ht.
  destruct (allowed_words_for_pos_val _ _ _ _ H1) as [Hm _].
  revert H1 Ht. unfold allowed_words_for_pos. set (body := fun letter out => _).
  destruct (for_bits_partial body m f1 0 Hm) as [-> | ->]; [done|].
  destruct (for_bits_partial body m f2 0 Hm) as [-> | ->]; [done|].
  done.
Qed.

(** ** [compute_path_candidates] *)

Section Candidates.

Variable index : gmap nat (list (list Z)).
Variable all_mask : gmap nat Z.

Lemma candidates_loop_bits fuel idxL domains cells : forall i0 cand r,
  for_enum (candidates_step fuel idxL domains) i0 cells cand = Val r ->
  (forall z, r = Stop z -> z = 0) /\
  forall w, Z.testbit (flow_value r) w = true <->
            Z.testbit cand w = true /\
            forall j cell, cells !! j = Some cell ->
                           supports idxL domains (i0 + j) cell w.
Proof.
  induction cells as [|cell cells IH]; intros i0 cand r H; simpl in H.
  - simplify_eq. split; [done|]. intros w; simpl. split; [|by intros []].
    intros Hw. split; [done|]. intros j c Hj. by rewrite lookup_nil in Hj.
  - apply bind_Val in H as [r1 [Hstep H]].
    unfold candidates_step in Hstep.
    apply bind_Val in Hstep as [allowed [Ha Hstep]]. apply indexed_Val in Ha.
    destruct (Z.eqb_spec allowed 0) as [->|Hnz].
    { simplify_eq. split; [by intros z [= <-]|]. intros w; simpl.
      rewrite Z.bits_0. split; [done|]. intros [_ Hs].
      destruct (Hs 0%nat cell eq_refl) as (a & ip & Ha' & _ & l & b & Hl & _).
      rewrite Ha in Ha'. simplify_eq. by apply elem_of_nil in Hl. }
    apply bind_Val in Hstep as [index_pos [Hip Hstep]]. apply indexed_Val in Hip.
    apply bind_Val in Hstep as [aw [Haw Hstep]].
    apply allowed_words_for_pos_val in Haw as [Ha0 Haw].
    assert (forall w, supports idxL domains (i0 + 0) cell w <-> Z.testbit aw w = true)
      as Hsup.
    { intros w. rewrite Haw, Nat.add_0_r. split.
      - intros (a & ip & Ha' & Hip' & Hin). congruence.
      - intros Hin. by exists allowed, index_pos. }
    simpl in Hstep.
    destruct (Z.eqb_spec (Z.land cand aw) 0) as [Hz|Hnz'].
    { simplify_eq. split; [by intros z [= <-]|]. intros w; simpl.
      rewrite Z.bits_0. split; [done|]. intros [Hc Hs].
      specialize (Hs 0%nat cell eq_refl). apply Hsup in Hs.
      assert (Z.testbit (Z.land cand aw) w = true) as Hb
        by (by rewrite Z.land_spec, Hc, Hs).
      by rewrite Hz, Z.bits_0 in Hb. }
    simplify_eq. apply IH in H as [Hstop Hbits]. split; [done|].
    intros w. rewrite Hbits, Z.land_spec, andb_true_iff. split.
    + intros [[Hc Hw] Hs]. split; [done|]. intros [|j] c Hj; simpl in Hj.
      * simplify_eq. by apply Hsup.
      * replace (i0 + S j)%nat with (S i0 + j)%nat by lia. by apply Hs.
    + intros [Hc Hs]. split.
      * split; [done|]. apply Hsup. by apply (Hs 0%nat).
      * intros j c Hj. replace (S i0 + j)%nat with (i0 + S j)%nat by lia.
        by apply Hs.
Qed.

(** The candidate set of a path, bit by bit. *)
Lemma compute_path_candidates_bits fuel cells L domains c idxL :
  compute_path_candidates index all_mask fuel cells L domains = Val c ->
  index !! L = Some idxL ->
  exists am, all_mask !! L = Some am /\
    forall w, Z.testbit c w = true <->
              Z.testbit am w = true /\
              forall j cell, cells !! j = Some cell -> supports idxL domains j cell w.
Proof.
  unfold compute_path_candidates. intros H E. rewrite E in H.
  destruct (all_mask !! L) as [am|]; [|done].
  exists am. split; [done|].
  apply bind_Val in H as [r [Hr H]].
  apply candidates_loop_bits in Hr as [_ Hr].
  intros w. rewrite <- Hr. by destruct r; simplify_eq.
Qed.

Lemma compute_path_candidates_no_index fuel cells L domains :
  index !! L = None ->
  compute_path_candidates index all_mask fuel cells L domains = Val 0.
Proof. unfold compute_path_candidates. by intros ->. Qed.

(** More fuel changes nothing, and 27 turns are enough for a table of
    26 letters. *)
Lemma candidates_loop_fuel f1 f2 idxL domains cells : forall i0 cand r,
  Forall (fun lb => length lb = 26%nat) idxL -> (26 < f2)%nat ->
  for_enum (candidates_step f1 idxL domains) i0 cells cand = Val r ->
  for_enum (candidates_step f2 idxL domains) i0 cells cand = Val r.
Proof.
  intros i0 cand r Hwf Hf. revert i0 cand r.
  induction cells as [|cell cells IH]; intros i0 cand r H; simpl in *; [done|].
  apply bind_Val in H as [r1 [Hstep H]].
  assert (candidates_step f2 idxL domains i0 cell cand = Val r1) as ->.
  { revert Hstep. unfold candidates_step.
    destruct (indexed (py_index domains cell)) as [allowed| |]; simpl; [|done..].
    destruct (allowed =? 0); [done|].
    destruct (idxL !! i0) as [index_pos|] eqn:Hip; simpl; [|done].
    destruct (allowed_words_for_pos f1 index_pos allowed) as [aw| |] eqn:E;
      simpl; [|done..].
    erewrite allowed_words_for_pos_fuel; [done|exact E|].
    rewrite Forall_forall in Hwf. rewrite (Hwf index_pos); [done|].
    by eapply list_elem_of_lookup_2. }
  simpl. destruct r1; [by apply IH|done].
Qed.

Lemma compute_path_candidates_fuel f1 f2 cells L domains c :
  index_wf index -> (26 < f2)%nat ->
  compute_path_candidates index all_mask f1 cells L domains = Val c ->
  compute_path_candidates index all_mask f2 cells L domains = Val c.
Proof.
  intros Hwf Hf. unfold compute_path_candidates.
  destruct (index !! L) as [idxL|] eqn:E; [|done].
  destruct (all_mask !! L) as [am|]; [|done].
  intros H. apply bind_Val in H as [r [Hr H]].
  erewrite candidates_loop_fuel; [exact H|by eapply Hwf|done|exact Hr].
Qed.

Lemma candidates_loop_total fuel idxL domains cells : forall i0 cand,
  Forall (fun lb => length lb = 26%nat) idxL -> (26 < fuel)%nat ->
  for_enum (candidates_step fuel idxL domains) i0 cells cand <> OutOfFuel.
Proof.
  intros i0 cand Hwf Hf. revert i0 cand.
  induction cells as [|cell cells IH]; intros i0 cand; simpl; [done|].
  destruct (candidates_step fuel idxL domains i0 cell cand) as [[c|z]| |] eqn:E;
    simpl; [apply IH|done|done|].
  exfalso. revert E. unfold candidates_step.
  destruct (py_index domains cell) as [allowed|]; simpl; [|done].
  destruct (allowed =? 0); [done|].
  destruct (idxL !! i0) as [index_pos|] eqn:Hip; simpl; [|done].
  destruct (allowed_words_for_pos fuel index_pos allowed) as [aw| |] eqn:E;
    simpl; [by destruct (_ =? 0)|done|].
  apply allowed_words_for_pos_total in E; [done|].
  rewrite Forall_forall in Hwf. rewrite (Hwf index_pos); [done|].
  by eapply list_elem_of_lookup_2.
Qed.

Lemma compute_path_candidates_total fuel cells L domains :
  index_wf index -> (26 < fuel)%nat ->
  compute_path_candidates index all_mask fuel cells L domains <> OutOfFuel.
Proof.
  intros Hwf Hf. unfold compute_path_candidates.
  destruct (index !! L) as [idxL|] eqn:E; [|done].
  destruct (all_mask !! L) as [am|]; [|done].
  pose proof (candidates_loop_total fuel idxL domains cells 0%nat am
                (Hwf _ _ E) Hf) as H.
  destruct (for_enum _ _ _ _) as [[?|?]| |]; done.
Qed.

End Candidates.

(** ** The loops of a propagation pass *)

Section Pass.

Variable paths : list path.
Variable index : gmap nat (list (list Z)).
Variable all_mask : gmap nat Z.
Variable n_cells : Z.

(** First loop, one path. *)
Lemma update_path_step_inv fuel domains path_cands ch j cells L pcs1 ch1 :
  paths !! j = Some (cells, L) ->
  paths_updated paths index all_mask fuel domains path_cands pcs1 j ->
  (ch1 = false -> pcs1 = path_cands /\ ch = false) ->
  match update_path_step index all_mask fuel domains j (cells, L) (pcs1, ch1) with
  | Val (Go (pcs2, ch2)) =>
      paths_updated paths index all_mask fuel domains path_cands pcs2 (S j)
      /\ (ch2 = false -> pcs2 = path_cands /\ ch = false)
  | Val (Stop pcs2) =>
      paths_updated paths index all_mask fuel domains path_cands pcs2 j
  | _ => True
  end.
Proof.
  intros Hj (Hjle & Hlen & Hdone & Hrest) Hch. unfold update_path_step.
  assert (S j <= length paths)%nat as Hsj by (by apply lookup_lt_Some in Hj).
  destruct (compute_path_candidates index all_mask fuel cells L domains)
    as [c| |] eqn:Hc; simpl; [|done..].
  destruct (Z.eqb_spec c 0) as [->|Hnz]; [done|].
  destruct (pcs1 !! j) as [old|] eqn:Hold; simpl; [|done].
  destruct (Z.eqb_spec c old) as [->|Hne].
  - split; [|done]. split_and!; [done|done| |].
    + intros k cs L' Hk Hp. destruct (decide (k = j)) as [->|Hkj].
      * simplify_eq. eauto.
      * apply Hdone; [lia|done].
    + intros k Hk. apply Hrest. lia.
  - split; [|done]. split_and!.
    + done.
    + by rewrite length_insert.
    + intros k cs L' Hk Hp. destruct (decide (k = j)) as [->|Hkj].
      * simplify_eq. exists c. split_and!; [done..|].
        apply list_lookup_insert_eq. by eapply lookup_lt_Some.
      * rewrite list_lookup_insert_ne by done. apply Hdone; [lia|done].
    + intros k Hk. rewrite list_lookup_insert_ne by lia. apply Hrest. lia.
Qed.

(** First loop. *)
Lemma update_paths_inv fuel domains path_cands ch :
  match for_enum (update_path_step index all_mask fuel domains) 0%nat paths
          (path_cands, ch) with
  | Val (Go (pcs', ch')) =>
      paths_updated paths index all_mask fuel domains path_cands pcs' (length paths)
      /\ (ch' = false -> pcs' = path_cands /\ ch = false)
  | Val (Stop pcs') =>
      exists j, paths_updated paths index all_mask fuel domains path_cands pcs' j
  | _ => True
  end.
Proof.
  pose proof (for_enum_inv (update_path_step index all_mask fuel domains)
    (fun j s => paths_updated paths index all_mask fuel domains path_cands (fst s) j
                /\ (snd s = false -> fst s = path_cands /\ ch = false))
    (fun pcs' => exists j,
         paths_updated paths index all_mask fuel domains path_cands pcs' j)
    paths 0%nat (path_cands, ch)) as H.
  simpl in H.
  assert (match for_enum (update_path_step index all_mask fuel domains) 0%nat paths
                  (path_cands, ch) with
          | Val (Go s') =>
              paths_updated paths index all_mask fuel domains path_cands (fst s')
                (length paths)
              /\ (snd s' = false -> fst s' = path_cands /\ ch = false)
          | Val (Stop r) =>
              exists j, paths_updated paths index all_mask fuel domains path_cands r j
          | _ => True
          end) as H'.
  { apply H.
    - intros j [cells L] [pcs1 ch1] Hj [Hup Hch]. simpl in Hup, Hch.
      pose proof (update_path_step_inv fuel domains path_cands ch j cells L
                    pcs1 ch1 Hj Hup Hch) as Hs.
      destruct (update_path_step _ _ _ _ _ _ _) as [[[pcs2 ch2]|pcs2]| |]; eauto.
    - split; [|done]. split_and!; [lia|done|intros; lia|done]. }
  destruct (for_enum _ _ _ _) as [[[pcs' ch']|pcs']| |]; done.
Qed.

(** Bit inclusion. *)
Lemma bits_sub_refl a : bits_sub a a.
Proof. apply Z.land_diag. Qed.

Lemma bits_sub_land_r n d : bits_sub (Z.land n d) d.
Proof. unfold bits_sub. by rewrite <- Z.land_assoc, Z.land_diag. Qed.

Lemma bits_sub_land_l n d : bits_sub (Z.land n d) n.
Proof. unfold bits_sub. by rewrite (Z.land_comm n d), <- Z.land_assoc, Z.land_diag. Qed.

Lemma bits_sub_trans a b c : bits_sub a b -> bits_sub b c -> bits_sub a c.
Proof. unfold bits_sub. intros Hab Hbc. by rewrite <- Hab, <- Z.land_assoc, Hbc. Qed.

Lemma bits_sub_testbit a b i :
  bits_sub a b -> Z.testbit a i = true -> Z.testbit b i = true.
Proof.
  unfold bits_sub. intros H Ha. rewrite <- H, Z.land_spec in Ha.
  by apply andb_true_iff in Ha as [_ ?].
Qed.

Lemma bits_sub_no_gain a b : bits_sub a b -> ~ gains_bit b a.
Proof.
  intros H (i & _ & Ha & Hb). apply (bits_sub_testbit _ _ _ H) in Ha. congruence.
Qed.

Lemma land_le_r a b : 0 <= b -> Z.land a b <= b.
Proof.
  intros Hb. pose proof (Z.sub_land_same_l b a) as H.
  assert (0 <= Z.land b (Z.lnot a)) by (apply Z.land_nonneg; by left).
  rewrite Z.land_comm. lia.
Qed.

Lemma bits_sub_range a b : 0 <= b -> bits_sub a b -> 0 <= a <= b.
Proof.
  unfold bits_sub. intros Hb H. rewrite <- H. split.
  - apply Z.land_nonneg. by right.
  - by apply land_le_r.
Qed.

End Pass.

Lemma all_sub_refl l : all_sub l l.
Proof. split; [done|]. intros i v Hv. exists v. split; [done|apply bits_sub_refl]. Qed.

Lemma all_sub_trans l1 l2 l3 : all_sub l1 l2 -> all_sub l2 l3 -> all_sub l1 l3.
Proof.
  intros [Hl1 H1] [Hl2 H2]. split; [congruence|].
  intros i v Hv. destruct (H1 i v Hv) as (d & Hd & Hs).
  destruct (H2 i d Hd) as (e & He & Hs'). exists e. split; [done|].
  by eapply bits_sub_trans.
Qed.

Lemma all_sub_insert l' l i v d :
  all_sub l' l -> l !! i = Some d -> bits_sub v d -> all_sub (<[i := v]> l') l.
Proof.
  intros [Hl H] Hd Hs. split; [by rewrite length_insert|].
  intros k u Hu. destruct (decide (k = i)) as [->|Hne].
  - rewrite list_lookup_insert_eq in Hu by (rewrite Hl; by eapply lookup_lt_Some).
    simplify_eq. eauto.
  - rewrite list_lookup_insert_ne in Hu by done. by apply H.
Qed.

Section PassLoops.

Variable paths : list path.
Variable index : gmap nat (list (list Z)).
Variable all_mask : gmap nat Z.
Variable n_cells : Z.

(** Third loop. *)
Lemma intersect_loop_inv new_domains : forall k i0 domains ch,
  match intersect_loop new_domains (seq i0 k) (domains, ch) with
  | Val r =>
      all_sub (intersect_value r) domains /\
      (forall i, (i < i0 \/ i0 + k <= i)%nat -> intersect_value r !! i = domains !! i) /\
      match r with
      | Go (ds', ch') =>
          (forall i, (i0 <= i < i0 + k)%nat -> cell_narrowed new_domains domains ds' i)
          /\ (ch' = false -> ds' = domains /\ ch = false)
      | Stop _ => True
      end
  | _ => True
  end.
Proof.
  induction k as [|k IH]; intros i0 domains ch; simpl.
  { split_and!; [apply all_sub_refl|done|intros; lia|done]. }
  destruct (new_domains !! i0) as [n|] eqn:Hn; simpl; [|done].
  destruct (domains !! i0) as [d|] eqn:Hd; simpl; [|done].
  destruct (Z.eqb_spec (Z.land n d) 0) as [Hz|Hnz]; simpl.
  { split_and!; [apply all_sub_refl|done..]. }
  destruct (Z.eqb_spec (Z.land n d) d) as [He|Hne]; simpl.
  - specialize (IH (S i0) domains ch).
    destruct (intersect_loop _ _ _) as [r| |]; [|done..].
    destruct IH as (Hsub & Hframe & Hr). split_and!; [done| |].
    + intros i Hi. apply Hframe. lia.
    + destruct r as [[ds' ch']|ds']; [|done]. destruct Hr as [Hnar Hch].
      split; [|done]. intros i Hi. destruct (decide (i = i0)) as [->|Hi0].
      * exists n, d. split_and!; [done..|].
        change ds' with (intersect_value (Go (ds', ch'))).
        rewrite Hframe by lia. congruence.
      * apply Hnar. lia.
  - specialize (IH (S i0) (<[i0 := Z.land n d]> domains) true).
    destruct (intersect_loop _ _ _) as [r| |]; [|done..].
    destruct IH as (Hsub & Hframe & Hr).
    assert (i0 < length domains)%nat as Hlt by (by eapply lookup_lt_Some).
    split_and!.
    + eapply all_sub_trans; [exact Hsub|].
      eapply all_sub_insert; [apply all_sub_refl|done|apply bits_sub_land_r].
    + intros i Hi. rewrite Hframe by lia.
      apply list_lookup_insert_ne. lia.
    + destruct r as [[ds' ch']|ds']; [|done]. destruct Hr as [Hnar Hch].
      split.
      * intros i Hi. destruct (decide (i = i0)) as [->|Hi0].
        -- exists n, d. split_and!; [done..|].
           change ds' with (intersect_value (Go (ds', ch'))).
           rewrite Hframe by lia. by apply list_lookup_insert_eq.
        -- destruct (Hnar i) as (n' & d' & Hn' & Hd' & Hnz' & Hv); [lia|].
           rewrite list_lookup_insert_ne in Hd' by done.
           by exists n', d'.
      * intros ->. by destruct Hch.
Qed.

(** Second loop: [new_domains] only loses bits. *)
Lemma narrow_cell_step_sub cands idxL nd0 pos cell nd1 :
  all_sub nd1 nd0 ->
  match narrow_cell_step cands idxL pos cell nd1 with
  | Val (Go nd2) => all_sub nd2 nd0
  | _ => True
  end.
Proof.
  intros Hsub. unfold narrow_cell_step.
  destruct (py_index nd1 cell) as [old|] eqn:Hold; simpl; [|done].
  destruct (idxL !! pos) as [index_pos|]; simpl; [|done].
  destruct (possible_letters_at_pos cands index_pos) as [letters| |]; simpl; [|done..].
  unfold py_store. unfold py_index in Hold.
  destruct (py_pos nd1 cell) as [i|]; simpl in *; [|done].
  destruct (Z.land old letters =? 0); [done|].
  destruct Hsub as [Hlen Hsub]. destruct (Hsub i old Hold) as (v0 & Hv0 & Hs).
  eapply all_sub_insert; [by split|done|].
  eapply bits_sub_trans; [apply bits_sub_land_l|done].
Qed.

Lemma narrow_paths_sub path_cands nd0 :
  match for_enum (narrow_path_step index path_cands) 0%nat paths nd0 with
  | Val (Go nd) => all_sub nd nd0
  | _ => True
  end.
Proof.
  pose proof (for_enum_inv (narrow_path_step index path_cands)
    (fun _ nd => all_sub nd nd0) (fun _ : unit => True) paths 0%nat nd0) as H.
  destruct (for_enum _ _ _ _) as [[nd|?]| |]; try done. apply H; [|apply all_sub_refl].
  intros j [cells L] nd1 Hj Hsub. unfold narrow_path_step.
  destruct (path_cands !! (0 + j)%nat) as [cands|]; simpl; [|done].
  destruct (index !! L) as [idxL|]; [|done].
  pose proof (for_enum_inv (narrow_cell_step cands idxL)
    (fun _ nd => all_sub nd nd0) (fun _ : unit => True) cells 0%nat nd1) as H1.
  destruct (for_enum _ _ _ _) as [[nd2|?]| |]; try done. apply H1; [|done].
  intros pos cell nd2' _ Hsub'.
  pose proof (narrow_cell_step_sub cands idxL nd0 (0 + pos) cell nd2' Hsub') as H2.
  by destruct (narrow_cell_step _ _ _ _ _) as [[?|?]| |].
Qed.

Lemma all_sub_replicate nd n i v :
  all_sub nd (replicate n ALL) -> nd !! i = Some v -> (i < n)%nat /\ 0 <= v <= ALL.
Proof.
  intros [Hlen H] Hv. destruct (H i v Hv) as (d & Hd & Hs).
  apply lookup_replicate in Hd as [-> Hi]. split; [done|].
  by apply bits_sub_range.
Qed.

End PassLoops.

(** ** One pass, and the fixpoint *)

Section PassResult.

Variable paths : list path.
Variable index : gmap nat (list (list Z)).
Variable all_mask : gmap nat Z.
Variable n_cells : Z.

Lemma propagate_pass_go fuel ds pcs ds' pcs' ch :
  propagate_pass paths index all_mask n_cells fuel (ds, pcs)
  = Val (Go ((ds', pcs'), ch)) ->
  paths_updated paths index all_mask fuel ds pcs pcs' (length paths) /\
  (exists nd,
      for_enum (narrow_path_step index pcs') 0%nat paths
        (replicate (Z.to_nat n_cells) ALL) = Val (Go nd)
      /\ all_sub nd (replicate (Z.to_nat n_cells) ALL)
      /\ forall i, (i < Z.to_nat n_cells)%nat -> cell_narrowed nd ds ds' i) /\
  all_sub ds' ds /\
  (forall i, (Z.to_nat n_cells <= i)%nat -> ds' !! i = ds !! i) /\
  (ch = false -> ds' = ds /\ pcs' = pcs).
Proof.
  unfold propagate_pass. intros H.
  pose proof (update_paths_inv paths index all_mask fuel ds pcs false) as H1.
  destruct (for_enum (update_path_step _ _ _ _) _ _ _) as [[[pcs1 ch1]|?]| |];
    simpl in H; [|done..].
  destruct H1 as [Hup Hch1].
  pose proof (narrow_paths_sub paths index pcs1 (replicate (Z.to_nat n_cells) ALL))
    as H2.
  destruct (for_enum (narrow_path_step _ _) _ _ _) as [[nd|?]| |] eqn:E2;
    simpl in H; [|done..].
  pose proof (intersect_loop_inv nd (Z.to_nat n_cells) 0%nat ds ch1) as H3.
  destruct (intersect_loop _ _ _) as [[[ds2 ch2]|?]| |]; simpl in H; [|done..].
  simplify_eq. destruct H3 as (Hsub & Hframe & Hnar & Hch2). simpl in *.
  split_and!; [done| |done| |].
  - exists nd. split_and!; [done|done|]. intros i Hi. apply Hnar. lia.
  - intros i Hi. apply Hframe. lia.
  - intros ->. destruct (Hch2 eq_refl) as [-> ->]. by destruct (Hch1 eq_refl) as [-> _].
Qed.

Lemma propagate_pass_stop fuel ds pcs ds' pcs' :
  propagate_pass paths index all_mask n_cells fuel (ds, pcs)
  = Val (Stop (ds', pcs')) ->
  (exists j, paths_updated paths index all_mask fuel ds pcs pcs' j) /\
  all_sub ds' ds.
Proof.
  unfold propagate_pass. intros H.
  pose proof (update_paths_inv paths index all_mask fuel ds pcs false) as H1.
  destruct (for_enum (update_path_step _ _ _ _) _ _ _) as [[[pcs1 ch1]|pcs1]| |];
    simpl in H; [| |done..].
  2: { simplify_eq. split; [done|apply all_sub_refl]. }
  destruct H1 as [Hup Hch1].
  destruct (for_enum (narrow_path_step _ _) _ _ _) as [[nd|?]| |] eqn:E2;
    simpl in H; [| |done..].
  2: { simplify_eq. split; [eauto|apply all_sub_refl]. }
  pose proof (intersect_loop_inv nd (Z.to_nat n_cells) 0%nat ds ch1) as H3.
  destruct (intersect_loop _ _ _) as [[[ds2 ch2]|ds2]| |]; simpl in H; [done| |done..].
  simplify_eq. destruct H3 as (Hsub & _). split; [eauto|done].
Qed.

(** A state is stable when a pass over it changes nothing. *)
Lemma propagate_true fuel : forall ds pcs ds' pcs',
  propagate paths index all_mask n_cells fuel (ds, pcs) = Val (true, (ds', pcs')) ->
  all_sub ds' ds /\
  exists fuel', propagate_pass paths index all_mask n_cells fuel' (ds', pcs')
                = Val (Go ((ds', pcs'), false)).
Proof.
  induction fuel as [|fuel IH]; intros ds pcs ds' pcs' H; [done|].
  simpl in H. apply bind_Val in H as [r [Hr H]].
  destruct r as [[[ds1 pcs1] ch]|st]; [|by simplify_eq].
  destruct ch.
  - apply IH in H as [Hsub Hfix]. split; [|done].
    apply propagate_pass_go in Hr as (_ & _ & Hsub1 & _).
    by eapply all_sub_trans.
  - simplify_eq. pose proof Hr as Hr'.
    apply propagate_pass_go in Hr as (_ & _ & Hsub1 & _ & Hch).
    destruct (Hch eq_refl) as [-> ->]. split; [apply all_sub_refl|eauto].
Qed.

End PassResult.

(** ** Monotonic shrink *)

Lemma bits_sub_of_testbit a b :
  (forall w, Z.testbit a w = true -> Z.testbit b w = true) -> bits_sub a b.
Proof.
  intros H. unfold bits_sub. apply Z.bits_inj'. intros n _.
  rewrite Z.land_spec. destruct (Z.testbit a n) eqn:E; [|done].
  by rewrite (H n E).
Qed.

Lemma paths_updated_entry paths index all_mask fuel ds pcs pcs' j pid old new :
  paths_updated paths index all_mask fuel ds pcs pcs' j ->
  pcs !! pid = Some old -> pcs' !! pid = Some new ->
  new = old \/
  exists cells L am,
    paths !! pid = Some (cells, L)
    /\ compute_path_candidates index all_mask fuel cells L ds = Val new
    /\ all_mask !! L = Some am /\ bits_sub new am.
Proof.
  intros (Hjle & Hlen & Hdone & Hrest) Hold Hnew.
  destruct (decide (pid < j)%nat) as [Hlt|Hge].
  - destruct (lookup_lt_is_Some_2 paths pid) as [[cells L] Hp]; [lia|].
    destruct (Hdone pid cells L Hlt Hp) as (c & Hc & Hnz & Hc').
    right. exists cells, L. assert (c = new) as -> by congruence.
    destruct (index !! L) as [idxL|] eqn:Hi.
    + destruct (compute_path_candidates_bits _ _ _ _ _ _ _ _ Hc Hi)
        as (am & Ham & Hbits).
      exists am. split_and!; [done..|].
      apply bits_sub_of_testbit. intros w Hw. by apply Hbits in Hw as [? _].
    + rewrite compute_path_candidates_no_index in Hc by done. congruence.
  - left. rewrite Hrest in Hnew by lia. congruence.
Qed.

Lemma propagate_pass_state paths index all_mask n_cells fuel ds pcs r :
  propagate_pass paths index all_mask n_cells fuel (ds, pcs) = Val r ->
  all_sub (fst (pass_state r)) ds /\
  exists j, paths_updated paths index all_mask fuel ds pcs (snd (pass_state r)) j.
Proof.
  intros H. destruct r as [[[ds' pcs'] ch]|[ds' pcs']]; simpl.
  - apply propagate_pass_go in H as (Hup & _ & Hsub & _). eauto.
  - apply propagate_pass_stop in H as [Hup Hsub]. eauto.
Qed.

(** C3 as stated fails: after a branch has forced the path to word 0 of
    a dictionary that holds "AB" twice, the next pass puts word 1 back
    into the path's candidates. *)
Lemma monotonic_shrink_counterexample :
  build_index ab_ab_cd = Val (ab_index, ab_mask) /\
  propagate_pass one_path ab_index ab_mask 2 30 ([1; 2], [1])
  = Val (Go (([1; 2], [3]), true)) /\
  gains_bit 1 3.
Proof.
  split_and!; [by vm_compute|by vm_compute|].
  exists 1. by vm_compute.
Qed.

(** ** Termination of the propagation loop *)

Lemma for_enum_total {A S R} (body : nat -> A -> S -> outcome (flow S R)) l :
  (forall i x s, body i x s <> OutOfFuel) ->
  forall i0 s, for_enum body i0 l s <> OutOfFuel.
Proof.
  intros Hb. induction l as [|x l IH]; intros i0 s; simpl; [done|].
  destruct (body i0 x s) as [[s1|r]| |] eqn:E; simpl; [apply IH|done|done|].
  by apply Hb in E.
Qed.

Lemma letters_from_total cands index_pos letters : forall mask,
  letters_from cands index_pos letters mask <> OutOfFuel.
Proof.
  induction letters as [|l letters IH]; intros mask; simpl; [done|].
  destruct (index_pos !! l); simpl; [apply IH|done].
Qed.

Lemma weigh_le f g (l' : list Z) : forall l,
  length l' = length l ->
  (forall i a b, l' !! i = Some a -> l !! i = Some b -> f a <= g b) ->
  weigh f l' <= weigh g l.
Proof.
  induction l' as [|a l' IH]; intros [|b l] Hlen H; simpl in *; try lia.
  pose proof (H 0%nat a b eq_refl eq_refl).
  assert (weigh f l' <= weigh g l); [|lia].
  apply IH; [lia|]. intros i. apply (H (S i)).
Qed.

Lemma weigh_lt f (l' : list Z) : forall l,
  length l' = length l ->
  (forall i a b, l' !! i = Some a -> l !! i = Some b -> f a <= f b) ->
  (exists i a b, l' !! i = Some a /\ l !! i = Some b /\ f a < f b) ->
  weigh f l' < weigh f l.
Proof.
  induction l' as [|a l' IH]; intros [|b l] Hlen H (i & x & y & Hx & Hy & Hlt);
    simpl in *; try done.
  pose proof (H 0%nat a b eq_refl eq_refl).
  destruct i as [|i]; simpl in *.
  - simplify_eq.
    assert (weigh f l' <= weigh f l); [|lia].
    apply weigh_le; [lia|]. intros i. apply (H (S i)).
  - assert (weigh f l' < weigh f l); [|lia].
    apply IH; [lia| |by exists i, x, y]. intros j. apply (H (S j)).
Qed.

Lemma weigh_nonneg f l : (forall d, 0 <= f d) -> 0 <= weigh f l.
Proof. intros Hf. induction l as [|d l IH]; simpl; [done|]. specialize (Hf d). lia. Qed.

Lemma list_neq_lookup (l' : list Z) : forall l,
  l' <> l -> length l' = length l ->
  exists i a b, l' !! i = Some a /\ l !! i = Some b /\ a <> b.
Proof.
  induction l' as [|a l' IH]; intros [|b l] Hne Hlen; simpl in *; try done.
  destruct (decide (a = b)) as [->|Hab].
  - destruct (IH l) as (i & x & y & Hx & Hy & Hxy); [congruence|lia|].
    by exists (S i), x, y.
  - by exists 0%nat, a, b.
Qed.

Section Termination.

Variable paths : list path.
Variable index : gmap nat (list (list Z)).
Variable all_mask : gmap nat Z.
Variable n_cells : Z.
Hypothesis Hwf : index_wf index.

Lemma propagate_pass_total fuel st :
  (26 < fuel)%nat ->
  propagate_pass paths index all_mask n_cells fuel st <> OutOfFuel.
Proof.
  intros Hf. destruct st as [ds pcs]. unfold propagate_pass.
  destruct (for_enum (update_path_step _ _ _ _) _ _ _) as [[[pcs1 ch1]|?]| |] eqn:E1;
    simpl; [|done|done|].
  - destruct (for_enum (narrow_path_step _ _) _ _ _) as [[nd|?]| |] eqn:E2;
      simpl; [|done|done|].
    + destruct (intersect_loop _ _ _) as [[[ds2 ch2]|?]| |] eqn:E3; simpl; try done.
      revert E3. generalize (ds, ch1). generalize (seq 0 (Z.to_nat n_cells)).
      intros l. induction l as [|i l IH]; intros s; simpl; [done|].
      destruct s as [ds0 ch0]. unfold intersect_step.
      destruct (nd !! i); simpl; [|done]. destruct (ds0 !! i); simpl; [|done].
      destruct (_ =? 0); simpl; [done|]. destruct (_ =? _); simpl; apply IH.
    + exfalso. revert E2. apply for_enum_total.
      intros i [cells L] s. unfold narrow_path_step.
      destruct (pcs1 !! i); simpl; [|done]. destruct (index !! L); [|done].
      apply for_enum_total. intros pos cell s'. unfold narrow_cell_step.
      destruct (py_index s' cell); simpl; [|done].
      destruct (l !! pos) as [index_pos|]; simpl; [|done].
      destruct (possible_letters_at_pos z index_pos) as [m| |] eqn:E; simpl.
      * destruct (py_store _ _ _); simpl; [|done]. by destruct (_ =? 0).
      * done.
      * by apply letters_from_total in E.
  - exfalso. revert E1. apply for_enum_total.
    intros i [cells L] [pcs0 ch0]. unfold update_path_step.
    destruct (compute_path_candidates index all_mask fuel cells L ds)
      as [c| |] eqn:E; simpl; [|done|].
    + destruct (c =? 0); [done|]. destruct (pcs0 !! i); simpl; [|done].
      by destruct (c =? z).
    + by apply compute_path_candidates_total in E.
Qed.

(** After a pass that ran to its end the cells hold bitsets over the
    alphabet. *)
Lemma propagate_pass_range fuel ds pcs ds' pcs' ch :
  propagate_pass paths index all_mask n_cells fuel (ds, pcs)
  = Val (Go ((ds', pcs'), ch)) ->
  domains_in_range (Z.to_nat n_cells) ds'.
Proof.
  intros H. apply propagate_pass_go in H as (_ & (nd & _ & Hnd & Hnar) & _).
  intros i Hi. destruct (Hnar i Hi) as (nv & d & Hnv & Hd & Hnz & Hv).
  exists (Z.land nv d). split; [done|].
  destruct (all_sub_replicate _ _ _ _ Hnd Hnv) as [_ Hr].
  pose proof (bits_sub_range _ _ (proj1 Hr) (bits_sub_land_l nv d)). lia.
Qed.

(** A pass over a state whose domains it leaves alone: the next pass
    changes nothing. *)
Lemma update_paths_stable fuel ds pcs l : forall i0 ch,
  (forall j cells L, l !! j = Some (cells, L) ->
     exists c, compute_path_candidates index all_mask fuel cells L ds = Val c
               /\ c <> 0 /\ pcs !! (i0 + j)%nat = Some c) ->
  for_enum (update_path_step index all_mask fuel ds) i0 l (pcs, ch)
  = Val (Go (pcs, ch)).
Proof.
  induction l as [|[cells L] l IH]; intros i0 ch H; simpl; [done|].
  destruct (H 0%nat cells L eq_refl) as (c & Hc & Hnz & Hold).
  rewrite Nat.add_0_r in Hold. rewrite Hc. simpl.
  destruct (Z.eqb_spec c 0); [done|]. rewrite Hold. simpl.
  rewrite Z.eqb_refl. apply IH. intros j cs L' Hj.
  replace (S i0 + j)%nat with (i0 + S j)%nat by lia. by apply H.
Qed.

Lemma intersect_loop_stable nd ds : forall k i0,
  (forall i, (i0 <= i < i0 + k)%nat ->
     exists nv d, nd !! i = Some nv /\ ds !! i = Some d
                  /\ Z.land nv d <> 0 /\ Z.land nv d = d) ->
  intersect_loop nd (seq i0 k) (ds, false) = Val (Go (ds, false)).
Proof.
  induction k as [|k IH]; intros i0 H; simpl; [done|].
  destruct (H i0) as (nv & d & -> & -> & Hnz & He); [lia|]. simpl.
  destruct (Z.eqb_spec (Z.land nv d) 0); [done|].
  destruct (Z.eqb_spec (Z.land nv d) d); [|done].
  apply IH. intros i Hi. apply H. lia.
Qed.

Lemma propagate_pass_stable f1 f2 ds pcs pcs' ch :
  (26 < f2)%nat ->
  propagate_pass paths index all_mask n_cells f1 (ds, pcs)
  = Val (Go ((ds, pcs'), ch)) ->
  propagate_pass paths index all_mask n_cells f2 (ds, pcs')
  = Val (Go ((ds, pcs'), false)).
Proof.
  intros Hf H.
  apply propagate_pass_go in H
    as ((_ & _ & Hdone & _) & (nd & Hnd & _ & Hnar) & _).
  unfold propagate_pass. rewrite update_paths_stable.
  - simpl. rewrite Hnd. simpl. rewrite intersect_loop_stable; [done|].
    intros i Hi. destruct (Hnar i) as (nv & d & Hnv & Hd & Hnz & Hv); [lia|].
    exists nv, d. split_and!; [done..|]. congruence.
  - intros j cells L Hj.
    destruct (Hdone j cells L) as (c & Hc & Hnz & Hc'); [by eapply lookup_lt_Some|done|].
    exists c. split_and!; [|done..].
    by eapply compute_path_candidates_fuel.
Qed.

(** Each pass that changes a domain lowers the weight. *)
Lemma propagate_pass_weight fuel ds pcs ds' pcs' ch :
  domains_in_range (Z.to_nat n_cells) ds ->
  propagate_pass paths index all_mask n_cells fuel (ds, pcs)
  = Val (Go ((ds', pcs'), ch)) ->
  ds' = ds \/ weigh (Z.max 0) ds' < weigh (Z.max 0) ds.
Proof.
  intros Hr H. pose proof (propagate_pass_range _ _ _ _ _ _ H) as Hr'.
  apply propagate_pass_go in H as (_ & _ & [Hlen Hsub] & Hframe & _).
  destruct (decide (ds' = ds)) as [|Hne]; [by left|right].
  assert (forall i a b, ds' !! i = Some a -> ds !! i = Some b ->
                        Z.max 0 a <= Z.max 0 b) as Hle.
  { intros i a b Ha Hb. destruct (decide (i < Z.to_nat n_cells)%nat) as [Hi|Hi].
    - destruct (Hr i Hi) as (d & Hd & Hd0).
      destruct (Hsub i a Ha) as (d' & Hd' & Hs). simplify_eq.
      apply bits_sub_range in Hs; lia.
    - rewrite Hframe in Ha by lia. simplify_eq. lia. }
  apply weigh_lt; [done|done|].
  destruct (list_neq_lookup ds' ds Hne Hlen) as (i & a & b & Ha & Hb & Hab).
  exists i, a, b. split_and!; [done..|].
  destruct (decide (i < Z.to_nat n_cells)%nat) as [Hi|Hi].
  - destruct (Hr i Hi) as (d & Hd & Hd0).
    destruct (Hsub i a Ha) as (d' & Hd' & Hs). simplify_eq.
    apply bits_sub_range in Hs; lia.
  - rewrite Hframe in Ha by lia. congruence.
Qed.

Lemma propagate_S fuel st :
  propagate paths index all_mask n_cells (S fuel) st =
  propagate_pass paths index all_mask n_cells fuel st ≫=
    fun r : flow (pstate * bool) pstate =>
      match r with
      | Stop st' => Val (false, st')
      | Go (st', changed) =>
          if changed then propagate paths index all_mask n_cells fuel st'
          else Val (true, st')
      end.
Proof. done. Qed.

Lemma propagate_from_range : forall k fuel ds pcs,
  domains_in_range (Z.to_nat n_cells) ds ->
  weigh (Z.max 0) ds <= Z.of_nat k ->
  (k + 29 <= fuel)%nat ->
  propagate paths index all_mask n_cells fuel (ds, pcs) <> OutOfFuel.
Proof.
  induction k as [|k IH]; intros fuel ds pcs Hr Hw Hf.
  all: destruct fuel as [|fuel]; [lia|]; rewrite propagate_S.
  all: pose proof (propagate_pass_total fuel (ds, pcs) ltac:(lia)) as Ht.
  all: destruct (propagate_pass paths index all_mask n_cells fuel (ds, pcs))
         as [[[[ds' pcs'] ch]|st]| |] eqn:E; simpl; [|done|done|congruence].
  all: destruct ch; [|done].
  all: pose proof (propagate_pass_range _ _ _ _ _ _ E) as Hr'.
  all: destruct (propagate_pass_weight _ _ _ _ _ _ Hr E) as [->|Hlt].
  - destruct fuel as [|f2]; [lia|]. rewrite propagate_S.
    by rewrite (propagate_pass_stable _ f2 _ _ _ _ ltac:(lia) E).
  - pose proof (weigh_nonneg (Z.max 0) ds' ltac:(lia)). lia.
  - destruct fuel as [|f2]; [lia|]. rewrite propagate_S.
    by rewrite (propagate_pass_stable _ f2 _ _ _ _ ltac:(lia) E).
  - apply IH; [done|lia|lia].
Qed.

End Termination.

(** C6: [propagate] terminates from every state of the two lists: with
    [propagate_fuel ds] turns or more it never runs out of fuel, so its
    [while] loop reaches a pass without change, a [return False], or an
    exception after finitely many passes. *)
Theorem propagate_terminates paths index all_mask n_cells ds pcs fuel :
  index_wf index ->
  (propagate_fuel ds <= fuel)%nat ->
  propagate paths index all_mask n_cells fuel (ds, pcs) <> OutOfFuel.
Proof.
  intros Hwf Hf. unfold propagate_fuel in Hf.
  destruct fuel as [|fuel]; [lia|]. rewrite propagate_S.
  pose proof (propagate_pass_total paths index all_mask n_cells Hwf fuel (ds, pcs)
                ltac:(lia)) as Ht.
  destruct (propagate_pass paths index all_mask n_cells fuel (ds, pcs))
    as [[[[ds' pcs'] ch]|st]| |] eqn:E; simpl; [|done|done|congruence].
  destruct ch; [|done].
  pose proof (propagate_pass_range _ _ _ _ _ _ _ _ _ _ E) as Hr'.
  apply (propagate_from_range paths index all_mask n_cells Hwf
           (Z.to_nat (weigh (Z.max ALL) ds))); [done| |lia].
  assert (0 <= ALL) as HALL by done.
  pose proof (weigh_nonneg (Z.max ALL) ds ltac:(lia)).
  rewrite Z2Nat.id by done.
  apply propagate_pass_go in E as (_ & _ & [Hlen Hsub] & Hframe & _).
  apply weigh_le; [done|]. intros i a b Ha Hb.
  destruct (decide (i < Z.to_nat n_cells)%nat) as [Hi|Hi].
  - destruct (Hr' i Hi) as (d & Hd & Hd0). simplify_eq. lia.
  - rewrite Hframe in Ha by lia. simplify_eq. lia.
Qed.

(** ** The word index *)

Lemma testbit_shiftl_1 (j : nat) wid :
  Z.testbit (Z.shiftl 1 (Z.of_nat j)) wid = true <-> wid = Z.of_nat j.
Proof.
  rewrite Z.shiftl_1_l, Z.pow2_bits_eqb by lia.
  destruct (Z.eqb_spec (Z.of_nat j) wid); split; (done || lia).
Qed.

Lemma letter_bits_step_inv words pos j w lb :
  words !! j = Some w ->
  (length lb = 26%nat /\
   forall li b, lb !! li = Some b ->
     forall wid, Z.testbit b wid = true <->
                 has_letter words pos li wid /\ wid < Z.of_nat j) ->
  match letter_bits_step pos j w lb with
  | Val (Go lb') =>
      length lb' = 26%nat /\
      forall li b, lb' !! li = Some b ->
        forall wid, Z.testbit b wid = true <->
                    has_letter words pos li wid /\ wid < Z.of_nat (S j)
  | Val (Stop _) => False
  | _ => True
  end.
Proof.
  intros Hw [Hlen Hbits]. unfold letter_bits_step.
  destruct (w !! pos) as [ch|] eqn:Hch; simpl; [|done].
  assert (forall li, has_letter words pos li (Z.of_nat j) <-> ch - 65 = Z.of_nat li)
    as Hj.
  { intros li. unfold has_letter. rewrite Nat2Z.id. split.
    - intros (_ & w' & ch' & Hw' & Hch' & He). congruence.
    - intros He. split; [lia|]. by exists w, ch. }
  destruct (Z.leb_spec 0 (ch - 65)) as [H0|H0];
    [destruct (Z.ltb_spec (ch - 65) 26) as [H26|H26]|]; simpl.
  - split; [by rewrite length_alter|]. intros li b Hb wid.
    destruct (decide (Z.to_nat (ch - 65) = li)) as [<-|Hne].
    + rewrite list_lookup_alter_eq in Hb.
      destruct (lb !! Z.to_nat (ch - 65)) as [b0|] eqn:Hb0; simplify_eq/=.
      rewrite Z.lor_spec, orb_true_iff, (Hbits _ _ Hb0), testbit_shiftl_1.
      split.
      * intros [[Hl Hlt]| ->]; [split; [done|lia]|].
        split; [apply Hj; lia|lia].
      * intros [Hl Hlt]. destruct (decide (wid = Z.of_nat j)) as [->|]; [by right|].
        left. split; [done|lia].
    + rewrite list_lookup_alter_ne in Hb by done.
      rewrite (Hbits _ _ Hb). split.
      * intros [Hl Hlt]. split; [done|lia].
      * intros [Hl Hlt]. split; [done|].
        destruct (decide (wid = Z.of_nat j)) as [->|]; [|lia].
        apply Hj in Hl. lia.
  - split; [done|]. intros li b Hb wid. rewrite (Hbits _ _ Hb). split.
    + intros [Hl Hlt]. split; [done|lia].
    + intros [Hl Hlt]. split; [done|].
      destruct (decide (wid = Z.of_nat j)) as [->|]; [|lia].
      apply Hj in Hl. apply lookup_lt_Some in Hb. lia.
  - split; [done|]. intros li b Hb wid. rewrite (Hbits _ _ Hb). split.
    + intros [Hl Hlt]. split; [done|lia].
    + intros [Hl Hlt]. split; [done|].
      destruct (decide (wid = Z.of_nat j)) as [->|]; [|lia].
      apply Hj in Hl. lia.
Qed.

Lemma letter_bits_at_spec words pos lb :
  letter_bits_at words pos = Val lb ->
  length lb = 26%nat /\
  forall li b, lb !! li = Some b ->
    forall wid, Z.testbit b wid = true <-> has_letter words pos li wid.
Proof.
  unfold letter_bits_at. intros H. apply bind_Val in H as [r [Hr H]].
  pose proof (for_enum_inv (letter_bits_step pos)
    (fun j lb => length lb = 26%nat /\
       forall li b, lb !! li = Some b ->
         forall wid, Z.testbit b wid = true <->
                     has_letter words pos li wid /\ wid < Z.of_nat j)
    (fun _ => False) words 0%nat (replicate 26 0)) as Hinv.
  rewrite Hr in Hinv. cbn [Nat.add] in Hinv.
  assert (match r with
          | Go lb' => length lb' = 26%nat /\
              forall li b, lb' !! li = Some b ->
                forall wid, Z.testbit b wid = true <->
                  has_letter words pos li wid /\ wid < Z.of_nat (length words)
          | Stop _ => False
          end) as Hr'.
  { apply Hinv.
    - intros j w lb0 Hj Hlb0.
      pose proof (letter_bits_step_inv words pos j w lb0 Hj Hlb0) as Hs.
      by destruct (letter_bits_step pos j w lb0) as [[?|?]| |].
    - split; [done|]. intros li b Hb wid.
      apply lookup_replicate in Hb as [-> _]. rewrite Z.bits_0.
      split; [done|]. intros [[? _] ?]. lia. }
  destruct r as [lb'|?]; [|done]. simplify_eq. destruct Hr' as [Hlen Hbits].
  split; [done|]. intros li b Hb wid. rewrite (Hbits _ _ Hb). split; [by intros []|].
  intros Hl. split; [done|]. destruct Hl as (H0 & w & ch & Hw & _).
  apply lookup_lt_Some in Hw. lia.
Qed.

Lemma pos_tables_from_spec words positions : forall tables,
  pos_tables_from words positions = Val tables ->
  length tables = length positions /\
  forall j pos, positions !! j = Some pos ->
    exists lb, tables !! j = Some lb /\ letter_bits_at words pos = Val lb.
Proof.
  induction positions as [|pos positions IH]; intros tables H; simpl in H.
  - simplify_eq. split; [done|]. intros j pos Hj. by rewrite lookup_nil in Hj.
  - apply bind_Val in H as [lb [Hlb H]]. apply bind_Val in H as [tl [Htl H]].
    simplify_eq. destruct (IH _ Htl) as [Hlen Htabs]. split; [simpl; lia|].
    intros [|j] p Hj; simpl in *; simplify_eq; eauto.
Qed.

Lemma pos_tables_ok L words tables :
  pos_tables_from words (seq 0 L) = Val tables -> tables_ok L words tables.
Proof.
  intros H. apply pos_tables_from_spec in H as [Hlen Htabs].
  rewrite length_seq in Hlen. split; [done|]. intros pos lb Hlb.
  destruct (Htabs pos pos) as (lb' & Hlb' & Hspec).
  { apply lookup_seq. split; [done|]. apply lookup_lt_Some in Hlb. lia. }
  simplify_eq. by apply letter_bits_at_spec.
Qed.

(** [build_index], when it returns, has indexed every nonempty word
    list and nothing else. *)
Lemma build_index_ok words_by_len index all_mask :
  build_index words_by_len = Val (index, all_mask) ->
  index_ok words_by_len index all_mask.
Proof.
  unfold build_index. revert index all_mask.
  apply (map_fold_weak_ind
    (fun acc m => forall index all_mask,
         acc = Val (index, all_mask) -> index_ok m index all_mask)).
  - intros index all_mask [= <- <-] L. by rewrite !lookup_empty.
  - intros L words m acc Hm IH index all_mask Hstep.
    unfold build_index_step in Hstep.
    apply bind_Val in Hstep as [[index0 mask0] [-> Hstep]].
    specialize (IH index0 mask0 eq_refl).
    destruct words as [|w ws]; simpl in Hstep.
    + simplify_eq. intros L'. destruct (decide (L' = L)) as [->|Hne].
      * rewrite lookup_insert_eq. specialize (IH L). by rewrite Hm in IH.
      * rewrite lookup_insert_ne by done. apply IH.
    + apply bind_Val in Hstep as [tables [Htab Hstep]]. simplify_eq.
      intros L'. destruct (decide (L' = L)) as [->|Hne].
      * rewrite !lookup_insert_eq. exists tables. split_and!; [done|done|].
        by apply pos_tables_ok.
      * rewrite !lookup_insert_ne by done. apply IH.
Qed.

Lemma index_ok_lookup words_by_len index all_mask L idxL :
  index_ok words_by_len index all_mask ->
  index !! L = Some idxL ->
  exists words,
    words_by_len !! L = Some words /\ words <> []
    /\ all_mask !! L = Some (Z.shiftl 1 (Z.of_nat (length words)) - 1)
    /\ tables_ok L words idxL.
Proof.
  intros Hok Hi. specialize (Hok L).
  destruct (words_by_len !! L) as [[|w ws]|]; [by destruct Hok; simplify_eq| |
    by destruct Hok; simplify_eq].
  destruct Hok as (tables & Ht & Hm & Htab). simplify_eq.
  exists (w :: ws). by split_and!.
Qed.

Lemma index_ok_wf words_by_len index all_mask :
  index_ok words_by_len index all_mask -> index_wf index.
Proof.
  intros Hok L idxL Hi.
  destruct (index_ok_lookup _ _ _ _ _ Hok Hi) as (words & _ & _ & _ & _ & Htab).
  apply Forall_forall. intros lb Hlb.
  apply list_elem_of_lookup in Hlb as [pos Hpos]. by apply Htab in Hpos as [? _].
Qed.
Lemma ab_index_built : build_index ab_ab_cd = Val (ab_index, ab_mask).
Proof. vm_compute. reflexivity. Qed.

Lemma propagate_terminates_witness :
  propagate one_path ab_index ab_mask 2 (propagate_fuel [1; 2]) ([1; 2], [1])
  <> OutOfFuel.
Proof.
  apply propagate_terminates; [|apply le_n].
  apply (index_ok_wf ab_ab_cd ab_index ab_mask), build_index_ok.
  vm_compute. reflexivity.
Defined.

(** ** The store: what [solve] may touch *)

Lemma for_bits_inv {S R} (body : Z -> S -> outcome (flow S R))
    (I : S -> Prop) (Q : R -> Prop) :
  (forall i s, I s ->
     match body i s with
     | Val (Go s') => I s'
     | Val (Stop r) => Q r
     | _ => True
     end) ->
  forall fuel x s, I s ->
    match for_bits fuel body x s with
    | Val (Go s') => I s'
    | Val (Stop r) => Q r
    | _ => True
    end.
Proof.
  intros Hstep. induction fuel as [|fuel IH]; intros x s HI; simpl; [done|].
  destruct (x =? 0); [done|].
  specialize (Hstep (bit_length (Z.land x (- x)) - 1) s HI).
  destruct (body _ s) as [[s1|r]| |]; simpl; [|done..].
  by apply IH.
Qed.

Lemma heap_extends_refl h : heap_extends h h.
Proof. by split. Qed.

Lemma heap_extends_trans h1 h2 h3 :
  heap_extends h1 h2 -> heap_extends h2 h3 -> heap_extends h1 h3.
Proof.
  intros [Hl1 H1] [Hl2 H2]. split; [lia|].
  intros l Hl. rewrite H2 by lia. by apply H1.
Qed.

Lemma force_loop_length w cells : forall pos d2 r,
  for_enum (force_step w) pos cells d2 = Val r ->
  length (flow_value r) = length d2.
Proof.
  induction cells as [|cell cells IH]; intros pos d2 r H; simpl in H.
  - by simplify_eq.
  - apply bind_Val in H as [r1 [Hstep H]]. unfold force_step in Hstep.
    apply bind_Val in Hstep as [ch [_ Hstep]].
    destruct (ch - 65 <? 0); [done|].
    apply bind_Val in Hstep as [old [_ Hstep]].
    destruct (Z.land old _ =? 0).
    + by simplify_eq.
    + apply bind_Val in Hstep as [d2' [Hst Hstep]]. apply indexed_Val in Hst.
      simplify_eq. apply IH in H. rewrite H.
      unfold py_store in Hst. destruct (py_pos d2 cell); simplify_eq/=.
      apply length_insert.
Qed.

Section Frame.

Variable paths : list path.
Variable index : gmap nat (list (list Z)).
Variable all_mask : gmap nat Z.
Variable n_cells : Z.
Variable words_by_len : gmap nat (list word).

(** A branch works on two fresh copies: whatever the recursive call does
    to its own two lists, the store the branch started from is intact. *)
Lemma try_branch_frame rec d pc pid cells words wid h :
  (forall d2 pc2 h2 res h3,
      rec d2 pc2 h2 = Val (res, h3) -> heap_extends_but d2 pc2 h2 h3) ->
  match try_branch rec d pc pid cells words wid h with
  | Val (Go h') => heap_extends h h'
  | Val (Stop (_, h')) => heap_extends h h'
  | _ => True
  end.
Proof.
  intros Hrec. unfold try_branch.
  destruct (wid <? 0); [done|].
  destruct (words !! Z.to_nat wid) as [w|]; simpl; [|done].
  set (h1 := h ++ [deref h d]).
  set (h2 := h1 ++ [deref h1 pc]).
  set (h3 := <[length h1 := <[pid := Z.shiftl 1 wid]> (deref h2 (length h1))]> h2).
  assert (heap_extends h h3) as Hext.
  { split.
    - unfold h3, h2, h1. rewrite length_insert, !length_app. simpl. lia.
    - intros l Hl. unfold h3, h2, h1.
      rewrite list_lookup_insert_ne by (rewrite length_app; simpl; lia).
      rewrite lookup_app_l by (rewrite length_app; simpl; lia).
      by rewrite lookup_app_l by lia. }
  assert (forall ds, heap_extends h (<[length h := ds]> h3)) as Hext'.
  { intros ds. destruct Hext as [Hlen Hl]. split; [by rewrite length_insert|].
    intros l Hlt. rewrite list_lookup_insert_ne by lia. by apply Hl. }
  destruct (for_enum (force_step w) 0%nat cells (deref h3 (length h)))
    as [[ds|ds]| |]; simpl; [|done..].
  destruct (rec (length h) (length h1) (<[length h := ds]> h3))
    as [[res h4]| |] eqn:Er; simpl; [|done..].
  apply Hrec in Er as [Hlen4 Hl4].
  assert (heap_extends h h4) as H4.
  { destruct (Hext' ds) as [Hlen Hl]. split; [lia|].
    intros l Hlt. rewrite Hl4; [by apply Hl|lia|lia|].
    unfold h1. rewrite length_app. simpl. lia. }
  by destruct res.
Qed.

(** [solve] writes to its two lists and to fresh ones only. *)
Lemma solve_frame fuel : forall d pc h res h',
  solve paths index all_mask n_cells words_by_len fuel d pc h = Val (res, h') ->
  heap_extends_but d pc h h'.
Proof.
  induction fuel as [|fuel IH]; intros d pc h res h' H; [done|].
  simpl in H. apply bind_Val in H as [[ok [ds pcs]] [Hp H]].
  set (h1 := <[pc := pcs]> (<[d := ds]> h)) in H.
  assert (heap_extends_but d pc h h1) as H1.
  { split; [unfold h1; by rewrite !length_insert|]. intros l Hl Hd Hpc. unfold h1.
    by rewrite !list_lookup_insert_ne by done. }
  assert (forall h2, heap_extends h1 h2 -> heap_extends_but d pc h h2) as Hlift.
  { intros h2 [Hlen2 Hl2]. destruct H1 as [Hlen1 Hl1]. split; [lia|].
    intros l Hl Hd Hpc. rewrite Hl2 by lia. by apply Hl1. }
  destruct ok; simpl in H; [|by simplify_eq].
  destruct (solved ds); [by simplify_eq|].
  destruct (choose_branch_path pcs) as [pid|]; [|by simplify_eq].
  apply bind_Val in H as [[cells L] [_ H]].
  apply bind_Val in H as [candidates [_ H]].
  apply bind_Val in H as [r [Hr H]].
  pose proof (for_bits_inv
    (try_branch (solve paths index all_mask n_cells words_by_len fuel) d pc pid cells
       (default [] (words_by_len !! L)))
    (fun h2 => heap_extends h1 h2) (fun r => heap_extends h1 (snd r))
    ) as Hinv.
  specialize (fun Hs => Hinv Hs fuel candidates h1 (heap_extends_refl h1)).
  rewrite Hr in Hinv.
  assert (match r with
          | Go h2 => heap_extends h1 h2
          | Stop r => heap_extends h1 (snd r)
          end) as Hr'.
  { apply Hinv. intros wid h2 Hh2.
    pose proof (try_branch_frame
      (solve paths index all_mask n_cells words_by_len fuel) d pc pid cells
      (default [] (words_by_len !! L)) wid h2 IH) as Hb.
    destruct (try_branch _ _ _ _ _ _ _ _) as [[h3|[res3 h3]]| |]; try done;
      by eapply heap_extends_trans. }
  destruct r as [h2|[res2 h2]]; simplify_eq; by apply Hlift.
Qed.

End Frame.

(** C7: a candidate-word branch of [solve] that fails, whether it is
    skipped for an immediate conflict or its recursive call returns [None],
    leaves every list object of the store it started from unchanged; in
    particular the calling node's own [domains] and [path_cands] are
    identical to their values just before the branch was tried. *)
Theorem failed_branch_leaves_parent
    paths index all_mask n_cells words_by_len fuel d pc pid cells words wid h h' :
  (d < length h)%nat -> (pc < length h)%nat ->
  try_branch (solve paths index all_mask n_cells words_by_len fuel)
    d pc pid cells words wid h = Val (Go h') ->
  deref h' d = deref h d /\ deref h' pc = deref h pc /\ heap_extends h h'.
Proof.
  intros Hd Hpc H.
  pose proof (try_branch_frame
    (solve paths index all_mask n_cells words_by_len fuel) d pc pid cells words wid h
    (solve_frame paths index all_mask n_cells words_by_len fuel)) as Hf.
  rewrite H in Hf. destruct Hf as [Hlen Hl].
  unfold deref. rewrite !Hl by done. split_and!; [done|done|by split].
Qed.

Lemma failed_branch_leaves_parent_witness :
  let h := [[3; 3; 3]; [3; 3; 3]] in
  let h' := [[3; 3; 3]; [3; 3; 3]; [1; 2; 3]; [1; 2; 2]] in
  deref h' 0 = deref h 0 /\ deref h' 1 = deref h 1 /\ heap_extends h h'.
Proof.
  apply (failed_branch_leaves_parent triangle ab_ba_index ab_ba_mask 3 ab_ba 40
           0 1 0 [0; 1] [codepoints "AB"; codepoints "BA"] 0).
  - simpl. lia.
  - simpl. lia.
  - vm_compute. reflexivity.
Defined.

(** ** A branch, step by step *)

Lemma deref_lookup (h : heap) l v : h !! l = Some v -> deref h l = v.
Proof. unfold deref. by intros ->. Qed.

Lemma branch_heap_length h d pc pid wid ds2 :
  length (branch_heap h d pc pid wid ds2) = (length h + 2)%nat.
Proof. unfold branch_heap. rewrite !length_insert, !length_app. simpl. lia. Qed.

Lemma branch_heap_extends h d pc pid wid ds2 :
  heap_extends h (branch_heap h d pc pid wid ds2).
Proof.
  split; [rewrite branch_heap_length; lia|]. intros l Hl. unfold branch_heap.
  rewrite list_lookup_insert_ne by lia.
  rewrite list_lookup_insert_ne by (rewrite length_app; simpl; lia).
  rewrite lookup_app_l by (rewrite length_app; simpl; lia).
  by rewrite lookup_app_l by lia.
Qed.

Lemma branch_heap_domains h d pc pid wid ds2 :
  deref (branch_heap h d pc pid wid ds2) (length h) = ds2.
Proof.
  apply deref_lookup. unfold branch_heap.
  apply list_lookup_insert_eq. rewrite length_insert, !length_app. simpl. lia.
Qed.

Lemma branch_heap_cands h d pc pid wid ds2 :
  (pc < length h)%nat ->
  deref (branch_heap h d pc pid wid ds2) (S (length h))
  = <[pid := Z.shiftl 1 wid]> (deref h pc).
Proof.
  intros Hpc. apply deref_lookup. unfold branch_heap.
  rewrite list_lookup_insert_ne by lia.
  replace (length (h ++ [deref h d])) with (S (length h))
    by (rewrite length_app; simpl; lia).
  rewrite list_lookup_insert_eq by (rewrite !length_app; simpl; lia).
  f_equal. f_equal. unfold deref at 1.
  rewrite lookup_app_r by (rewrite length_app; simpl; lia).
  replace (S (length h) - length (h ++ [deref h d]))%nat with 0%nat
    by (rewrite length_app; simpl; lia).
  simpl. unfold deref at 1. by rewrite lookup_app_l by lia.
Qed.

Lemma try_branch_unfold rec d pc pid cells words wid h :
  try_branch rec d pc pid cells words wid h =
  if wid <? 0 then Exc IndexError
  else
    w ← indexed (words !! Z.to_nat wid);
    r ← for_enum (force_step w) 0%nat cells (deref h d);
    match r with
    | Stop ds => Val (Go (branch_heap h d pc pid wid ds))
    | Go ds =>
        '(res, h4) ← rec (length h) (S (length h)) (branch_heap h d pc pid wid ds);
        match res with
        | Some res => Val (Stop (res, h4))
        | None => Val (Go h4)
        end
    end.
Proof.
  unfold try_branch. destruct (wid <? 0); [done|].
  destruct (words !! Z.to_nat wid) as [w|]; simpl; [|done].
  replace (length (h ++ [deref h d])) with (S (length h))
    by (rewrite length_app; simpl; lia).
  assert (deref (<[S (length h) := <[pid := Z.shiftl 1 wid]>
             (deref ((h ++ [deref h d]) ++ [deref (h ++ [deref h d]) pc])
                (S (length h)))]>
             ((h ++ [deref h d]) ++ [deref (h ++ [deref h d]) pc])) (length h)
          = deref h d) as ->.
  { apply deref_lookup. rewrite list_lookup_insert_ne by lia.
    rewrite lookup_app_l by (rewrite length_app; simpl; lia).
    rewrite lookup_app_r by lia. by rewrite Nat.sub_diag. }
  unfold branch_heap.
  replace (length (h ++ [deref h d])) with (S (length h))
    by (rewrite length_app; simpl; lia).
  done.
Qed.

(** A branch that returns a result got it from its recursive call, made
    on the two copies. *)
Lemma try_branch_stop rec d pc pid cells words wid h res h' :
  try_branch rec d pc pid cells words wid h = Val (Stop (res, h')) ->
  exists w ds2,
    0 <= wid /\ words !! Z.to_nat wid = Some w
    /\ for_enum (force_step w) 0%nat cells (deref h d) = Val (Go ds2)
    /\ rec (length h) (S (length h)) (branch_heap h d pc pid wid ds2)
       = Val (Some res, h').
Proof.
  rewrite try_branch_unfold. destruct (Z.ltb_spec wid 0) as [|Hwid]; [done|].
  intros H. apply bind_Val in H as [w [Hw H]]. apply indexed_Val in Hw.
  apply bind_Val in H as [r [Hr H]].
  destruct r as [ds2|ds2]; [|done].
  apply bind_Val in H as [[res4 h4] [Hrec H]].
  destruct res4; simplify_eq. by exists w, ds2.
Qed.

(** ** Soundness of the search *)

Lemma pow2_of_land d : 0 < d -> Z.land d (d - 1) = 0 -> d = 2 ^ Z.log2 d.
Proof.
  intros Hd Hz. pose proof (Z.log2_spec d Hd) as [Hlo Hhi].
  pose proof (Z.log2_nonneg d) as Hk.
  destruct (Z.eq_dec d (2 ^ Z.log2 d)) as [|Hne]; [done|exfalso].
  assert (Z.log2 (d - 1) = Z.log2 d) as Hl.
  { apply Z.log2_unique; [done|]. lia. }
  assert (Z.testbit (Z.land d (d - 1)) (Z.log2 d) = true) as Hb.
  { rewrite Z.land_spec, Z.bit_log2 by done.
    rewrite <- Hl. rewrite Z.bit_log2; [done|].
    assert (0 < 2 ^ Z.log2 d) by (by apply Z.pow_pos_nonneg). lia. }
  by rewrite Hz, Z.bits_0 in Hb.
Qed.

Lemma solved_single ds n :
  domains_in_range n ds -> length ds = n -> solved ds = true ->
  Forall single_letter ds.
Proof.
  intros Hr Hlen Hs. apply Forall_forall. intros d Hd.
  apply list_elem_of_lookup in Hd as [i Hi].
  destruct (Hr i) as (d' & Hd' & Hpos & HALL);
    [apply lookup_lt_Some in Hi; lia|].
  assert (d' = d) as -> by congruence.
  unfold solved in Hs. rewrite forallb_forall in Hs.
  assert (Z.land d (d - 1) = 0) as Hz.
  { apply Z.eqb_eq, Hs. apply list_elem_of_In. by eapply list_elem_of_lookup_2. }
  pose proof (pow2_of_land d Hpos Hz) as Hp.
  pose proof (Z.log2_nonneg d) as Hk.
  exists (Z.log2 d). rewrite Z.shiftl_1_l. split; [|done].
  split; [done|]. apply Z.log2_lt_pow2; [done|].
  change ALL with (2 ^ 26 - 1) in HALL. lia.
Qed.

Lemma set_bits_single k l : 0 <= k -> l ∈ set_bits (Z.shiftl 1 k) -> l = k.
Proof.
  intros Hk Hl. rewrite Z.shiftl_1_l in Hl.
  assert (0 < 2 ^ k) by (by apply Z.pow_pos_nonneg).
  apply elem_of_set_bits in Hl as [_ Hl]; [|lia].
  rewrite Z.pow2_bits_eqb in Hl by done. by apply Z.eqb_eq in Hl.
Qed.

Lemma testbit_all_mask (m : nat) wid :
  Z.testbit (Z.shiftl 1 (Z.of_nat m) - 1) wid = true <-> 0 <= wid < Z.of_nat m.
Proof.
  rewrite Z.shiftl_1_l. change (2 ^ Z.of_nat m - 1) with (Z.pred (2 ^ Z.of_nat m)).
  rewrite <- Z.ones_equiv. apply Z.ones_spec_iff. lia.
Qed.

Lemma all_mask_nonneg (m : nat) : 0 <= Z.shiftl 1 (Z.of_nat m) - 1.
Proof.
  rewrite Z.shiftl_1_l.
  assert (0 < 2 ^ Z.of_nat m) by (apply Z.pow_pos_nonneg; lia). lia.
Qed.

Section Soundness.

Variable paths : list path.
Variable index : gmap nat (list (list Z)).
Variable all_mask : gmap nat Z.
Variable n_cells : Z.
Variable words_by_len : gmap nat (list word).
Hypothesis Hok : index_ok words_by_len index all_mask.
Hypothesis Hgrouped : grouped_by_length words_by_len.
Hypothesis Hpaths : paths_wf paths.

(** A nonempty candidate set holds a word that every cell supports. *)
Lemma candidates_word fuel cells L domains c :
  compute_path_candidates index all_mask fuel cells L domains = Val c ->
  c <> 0 ->
  exists idxL words wid w,
    index !! L = Some idxL /\ words_by_len !! L = Some words
    /\ tables_ok L words idxL
    /\ 0 <= wid /\ words !! Z.to_nat wid = Some w
    /\ Z.testbit c wid = true
    /\ forall j cell, cells !! j = Some cell -> supports idxL domains j cell wid.
Proof.
  intros Hc Hnz.
  destruct (index !! L) as [idxL|] eqn:Hi;
    [|by rewrite compute_path_candidates_no_index in Hc by done; simplify_eq].
  destruct (index_ok_lookup _ _ _ _ _ Hok Hi) as (words & Hw & _ & Ham & Htab).
  destruct (compute_path_candidates_bits _ _ _ _ _ _ _ _ Hc Hi) as (am & Ham' & Hbits).
  assert (am = Z.shiftl 1 (Z.of_nat (length words)) - 1) as -> by congruence.
  assert (0 < c) as Hpos.
  { assert (bits_sub c (Z.shiftl 1 (Z.of_nat (length words)) - 1)) as Hs.
    { apply bits_sub_of_testbit. intros w Hw'. by apply Hbits in Hw' as [? _]. }
    apply bits_sub_range in Hs; [lia|apply all_mask_nonneg]. }
  pose proof (Z.bit_log2 c Hpos) as Hb.
  destruct (proj1 (Hbits _) Hb) as [Hm Hsup].
  apply testbit_all_mask in Hm.
  destruct (lookup_lt_is_Some_2 words (Z.to_nat (Z.log2 c))) as [w Hw0]; [lia|].
  exists idxL, words, (Z.log2 c), w. split_and!; try done. lia.
Qed.

Lemma stable_state_sound fuel ds pcs :
  propagate_pass paths index all_mask n_cells fuel (ds, pcs)
  = Val (Go ((ds, pcs), false)) ->
  solved ds = true -> length ds = Z.to_nat n_cells ->
  board_sound paths words_by_len n_cells ds.
Proof.
  intros Hpass Hsolved Hlen.
  pose proof (propagate_pass_range _ _ _ _ _ _ _ _ _ _ Hpass) as Hrange.
  pose proof (solved_single _ _ Hrange Hlen Hsolved) as Hsingle.
  apply propagate_pass_go in Hpass as ((_ & _ & Hdone & _) & _).
  split; [done|]. split; [done|].
  intros cells L Hin. apply list_elem_of_lookup in Hin as [pid Hpid].
  destruct (Hdone pid cells L) as (c & Hc & Hnz & _);
    [by eapply lookup_lt_Some|done|].
  destruct (candidates_word _ _ _ _ _ Hc Hnz)
    as (idxL & words & wid & w & Hi & Hws & Htab & Hwid & Hw & _ & Hsup).
  exists w. rewrite Hws. simpl. split; [by eapply list_elem_of_lookup_2|].
  assert (length cells = L) as HL.
  { unfold paths_wf in Hpaths. rewrite Forall_forall in Hpaths.
    apply (Hpaths (cells, L)). by eapply list_elem_of_lookup_2. }
  assert (length w = L) as HwL.
  { pose proof (Hgrouped L words Hws) as Hg. rewrite Forall_forall in Hg.
    apply Hg. by eapply list_elem_of_lookup_2. }
  apply Forall2_same_length_lookup_2; [congruence|].
  intros j cell ch Hcell Hch.
  destruct (Hsup j cell Hcell) as (allowed & ip & Ha & Hip & l & b & Hl & Hb & Hbit).
  assert (single_letter allowed) as (k & Hk & ->).
  { rewrite Forall_forall in Hsingle. apply Hsingle.
    unfold py_index in Ha. destruct (py_pos ds cell); simplify_eq/=.
    by eapply list_elem_of_lookup_2. }
  apply set_bits_single in Hl as ->; [|lia].
  destruct Htab as [_ Htab]. destruct (Htab j ip Hip) as [_ Hlb].
  apply (Hlb _ _ Hb) in Hbit as (_ & w' & ch' & Hw' & Hch' & He).
  assert (w' = w) as -> by congruence. assert (ch' = ch) as -> by congruence.
  rewrite Z2Nat.id in He by lia. rewrite He. done.
Qed.

(** Whatever [solve] returns is a sound board. *)
Lemma solve_sound fuel : forall d pc (h : heap) res h',
  (d < length h)%nat -> (pc < length h)%nat -> d <> pc ->
  length (deref h d) = Z.to_nat n_cells ->
  solve paths index all_mask n_cells words_by_len fuel d pc h = Val (Some res, h') ->
  board_sound paths words_by_len n_cells (deref h' res).
Proof.
  induction fuel as [|fuel IH]; intros d pc h res h' Hd Hpc Hne Hlen H; [done|].
  simpl in H. apply bind_Val in H as [[ok [ds pcs]] [Hp H]].
  set (h1 := <[pc := pcs]> (<[d := ds]> h)) in H.
  destruct ok; simpl in H; [|by simplify_eq].
  apply propagate_true in Hp as [[Hlen' _] [fuel' Hfix]].
  assert (deref h1 d = ds) as Hd1.
  { apply deref_lookup. unfold h1. rewrite list_lookup_insert_ne by done.
    by apply list_lookup_insert_eq. }
  assert (length ds = Z.to_nat n_cells) as Hlends by congruence.
  destruct (solved ds) eqn:Hs.
  { injection H as <- <-. rewrite Hd1. by eapply stable_state_sound. }
  destruct (choose_branch_path pcs) as [pid|]; [|by simplify_eq].
  apply bind_Val in H as [[cells L] [_ H]].
  apply bind_Val in H as [candidates [_ H]].
  apply bind_Val in H as [r [Hr H]].
  pose proof (for_bits_inv
    (try_branch (solve paths index all_mask n_cells words_by_len fuel) d pc pid cells
       (default [] (words_by_len !! L)))
    (fun h2 => heap_extends h1 h2)
    (fun r => board_sound paths words_by_len n_cells (deref (snd r) (fst r)))) as Hinv.
  specialize (fun Hstep => Hinv Hstep fuel candidates h1 (heap_extends_refl h1)).
  rewrite Hr in Hinv.
  destruct r as [h2|[res2 h2]]; simplify_eq. apply Hinv.
  intros wid h2 Hh2.
  pose proof (try_branch_frame
    (solve paths index all_mask n_cells words_by_len fuel) d pc pid cells
    (default [] (words_by_len !! L)) wid h2
    (solve_frame paths index all_mask n_cells words_by_len fuel)) as Hb.
  destruct (try_branch _ _ _ _ _ _ _ _) as [[h3|[res3 h3]]| |] eqn:Hbr; try done.
  - by eapply heap_extends_trans.
  - simpl. apply try_branch_stop in Hbr as (w & ds2 & _ & _ & Hforce & Hrec).
    apply IH in Hrec; [done|rewrite branch_heap_length; lia..|lia|].
    rewrite branch_heap_domains.
    apply force_loop_length in Hforce. simpl in Hforce. rewrite Hforce.
    destruct Hh2 as [Hlen2 Hl2].
    assert (d < length h1)%nat by (unfold h1; by rewrite !length_insert).
    assert (deref h2 d = deref h1 d) as -> by (unfold deref; by rewrite Hl2).
    by rewrite Hd1.
Qed.

End Soundness.

(** C1: soundness of the solver.  For a dictionary that groups words by
    length, its index, and paths that carry their own length: when [solve],
    called on two distinct lists with one domain per cell, returns a list,
    every domain of that list has exactly one letter and every path, read in
    path order, spells a word of the dictionary's list for its length. *)
Theorem solve_soundness paths words_by_len index all_mask n_cells fuel
    d pc (h : heap) res h' :
  build_index words_by_len = Val (index, all_mask) ->
  grouped_by_length words_by_len ->
  paths_wf paths ->
  (d < length h)%nat -> (pc < length h)%nat -> d <> pc ->
  length (deref h d) = Z.to_nat n_cells ->
  solve paths index all_mask n_cells words_by_len fuel d pc h = Val (Some res, h') ->
  length (deref h' res) = Z.to_nat n_cells /\
  Forall single_letter (deref h' res) /\
  forall cells L, (cells, L) ∈ paths ->
    exists w, w ∈ default [] (words_by_len !! L) /\ spells (deref h' res) cells w.
Proof.
  intros Hb Hg Hp Hd Hpc Hne Hlen H.
  apply build_index_ok in Hb.
  exact (solve_sound paths index all_mask n_cells words_by_len Hb Hg Hp fuel
           d pc h res h' Hd Hpc Hne Hlen H).
Qed.

Lemma singleton_grouped (L : nat) (ws : list word) :
  Forall (fun w => length w = L) ws ->
  grouped_by_length {[ L := ws ]}.
Proof.
  intros H L' ws' Hl. apply lookup_singleton_Some in Hl as [<- <-]. done.
Qed.

Lemma solve_soundness_witness :
  let sol := [1; 524288; 524288; 16384] in
  length sol = Z.to_nat 4 /\
  Forall single_letter sol /\
  forall cells L, (cells, L) ∈ square ->
    exists w, w ∈ default [] (at_to_so !! L) /\ spells sol cells w.
Proof.
  apply (solve_soundness square at_to_so at_to_so_index at_to_so_mask 4 40
           0 1 [[ALL; ALL; ALL; ALL]; [7; 7; 7]] 2
           [[1; 524288; 786432; 16384]; [1; 2; 6];
            [1; 524288; 524288; 16384]; [1; 2; 2]]).
  - vm_compute. reflexivity.
  - apply singleton_grouped. repeat constructor.
  - repeat constructor.
  - simpl. lia.
  - simpl. lia.
  - lia.
  - reflexivity.
  - vm_compute. reflexivity.
Defined.

(** ** The loader *)

Lemma scan_coords_spec coords : forall max_r max_c,
  let '(max_r', max_c') := scan_coords coords (max_r, max_c) in
  max_r <= max_r' /\ max_c <= max_c' /\
  forall r c, (r, c) ∈ coords -> r <= max_r' /\ c <= max_c'.
Proof.
  unfold scan_coords.
  induction coords as [|[r0 c0] coords IH]; intros max_r max_c; simpl.
  - split_and!; [lia..|]. intros r c Hin. by apply elem_of_nil in Hin.
  - specialize (IH (if r0 >? max_r then r0 else max_r)
                   (if c0 >? max_c then c0 else max_c)).
    destruct (fold_left _ coords _) as [max_r' max_c'].
    destruct IH as (Hr & Hc & Hall).
    destruct (Z.gtb_spec r0 max_r), (Z.gtb_spec c0 max_c).
    all: split_and!; [lia..|].
    all: intros r c Hin; apply elem_of_cons in Hin as [[= -> ->]|Hin];
      [lia|by apply Hall].
Qed.

Lemma load_paths_fold data : forall raw0 max_r max_c max_len,
  let '(raw, (max_r', max_c'), max_len') :=
    fold_left (fun '(raw, mx, max_len) coords =>
                 let L := length coords in
                 (raw ++ [(coords, L)],
                  scan_coords coords mx,
                  if (max_len <? L)%nat then L else max_len))
              data (raw0, (max_r, max_c), max_len) in
  raw = raw0 ++ map (fun coords => (coords, length coords)) data /\
  max_r <= max_r' /\ max_c <= max_c' /\
  (forall coords r c, coords ∈ data -> (r, c) ∈ coords ->
                      r <= max_r' /\ c <= max_c') /\
  (max_len <= max_len')%nat /\
  (forall coords, coords ∈ data -> length coords <= max_len')%nat.
Proof.
  induction data as [|coords data IH]; intros raw0 max_r max_c max_len; simpl.
  - rewrite app_nil_r. split_and!; [done|lia|lia| |lia|].
    + intros coords r c Hin. by apply elem_of_nil in Hin.
    + intros coords Hin. by apply elem_of_nil in Hin.
  - pose proof (scan_coords_spec coords max_r max_c) as Hs.
    destruct (scan_coords coords (max_r, max_c)) as [mr mc].
    destruct Hs as (Hr & Hc & Hall).
    specialize (IH (raw0 ++ [(coords, length coords)]) mr mc
                   (if (max_len <? length coords)%nat then length coords else max_len)).
    destruct (fold_left _ data _) as [[raw [max_r' max_c']] max_len'].
    destruct IH as (Hraw & Hr' & Hc' & Hall' & Hlen & Hlens).
    split_and!.
    + by rewrite Hraw, <- app_assoc.
    + lia.
    + lia.
    + intros cs r c Hin Hrc. apply elem_of_cons in Hin as [->|Hin].
      * specialize (Hall r c Hrc). lia.
      * by eapply Hall'.
    + destruct (Nat.ltb_spec max_len (length coords)); lia.
    + intros cs Hin. apply elem_of_cons in Hin as [->|Hin]; [|by apply Hlens].
      destruct (Nat.ltb_spec max_len (length coords)); lia.
Qed.

Lemma load_paths_spec data :
  let '(raw, nrows, ncols, max_len) := load_paths data in
  raw = map (fun coords => (coords, length coords)) data /\
  1 <= nrows /\ 1 <= ncols /\
  (forall coords r c, coords ∈ data -> (r, c) ∈ coords -> r < nrows /\ c < ncols) /\
  (forall coords, coords ∈ data -> length coords <= max_len)%nat.
Proof.
  unfold load_paths.
  pose proof (load_paths_fold data [] 0 0 0%nat) as H.
  destruct (fold_left _ data _) as [[raw [max_r max_c]] max_len].
  destruct H as (Hraw & Hr & Hc & Hall & _ & Hlens).
  split_and!; [done|lia|lia| |done].
  intros coords r c Hin Hrc. specialize (Hall coords r c Hin Hrc). lia.
Qed.

(** C5 as stated fails: the path [(0,0), (0,-1)] leaves the 1 x 1 grid
    that [load_paths] infers, yet nothing rejects it and [main] prints the
    board "A". *)
Lemma out_of_bounds_counterexample :
  load_paths [[(0, 0); (0, -1)]] = ([([(0, 0); (0, -1)], 2%nat)], 1, 1, 2%nat) /\
  main latin_strip latin_isalpha latin_upper 40
    [[(0, 0); (0, -1)]] [codepoints "aa"] = Val [[65]].
Proof. split; vm_compute; reflexivity. Qed.

(** C5 (amended): [load_paths] rejects nothing: it keeps every path as it
    is, with its length, and infers the grid as (max row + 1) x (max column
    + 1), the maxima starting from 0.  So every cell of a path whose
    coordinates are not negative lies inside the grid, and its linear index
    [r * ncols + c] inside [0, nrows * ncols).  *)
Theorem load_paths_keeps_all data :
  let '(raw, nrows, ncols, max_len) := load_paths data in
  raw = map (fun coords => (coords, length coords)) data /\
  forall coords r c,
    coords ∈ data -> (r, c) ∈ coords -> 0 <= r -> 0 <= c ->
    r < nrows /\ c < ncols /\ 0 <= r * ncols + c < nrows * ncols.
Proof.
  pose proof (load_paths_spec data) as H.
  destruct (load_paths data) as [[[raw nrows] ncols] max_len].
  destruct H as (Hraw & Hr & Hc & Hall & _). split; [done|].
  intros coords r c Hin Hrc Hr0 Hc0.
  destruct (Hall coords r c Hin Hrc) as [Hlt Hlt']. split_and!; [done|done|nia|nia].
Qed.

Lemma load_paths_keeps_all_witness :
  1 < 2 /\ 2 < 3 /\ 0 <= 1 * 3 + 2 < 2 * 3.
Proof.
  pose proof (load_paths_keeps_all [[(0, 0); (1, 2)]]) as H.
  simpl in H. destruct H as [_ H].
  apply (H [(0, 0); (1, 2)] 1 2).
  - apply list_elem_of_here.
  - apply list_elem_of_further, list_elem_of_here.
  - lia.
  - lia.
Defined.

(** ** The dictionary loader *)

Section Dictionary.

Variable str_strip : word -> word.
Variable str_isalpha : word -> bool.
Variable str_upper : word -> word.
Variable max_len : nat.

Lemma load_line_accepted (m : gmap nat (list word)) line :
  load_line str_strip str_isalpha str_upper max_len m line =
  match accepted str_strip str_isalpha str_upper max_len line with
  | Some w => dict_append m (length w) w
  | None => m
  end.
Proof.
  unfold load_line, accepted.
  destruct (bool_decide _ || negb _); [done|].
  by destruct ((1 <=? _)%nat && _).
Qed.

Lemma load_fold_lookup lines : forall (m : gmap nat (list word)) L,
  default [] (fold_left (load_line str_strip str_isalpha str_upper max_len) lines m
              !! L)
  = default [] (m !! L)
    ++ filter (fun w => length w = L)
         (omap (accepted str_strip str_isalpha str_upper max_len) lines).
Proof.
  induction lines as [|line lines IH]; intros m L; simpl.
  - by rewrite app_nil_r.
  - rewrite IH, load_line_accepted.
    destruct (accepted _ _ _ _ line) as [w|]; [|done].
    unfold dict_append. rewrite filter_cons.
    destruct (decide (length w = L)) as [<-|Hne].
    + rewrite lookup_insert_eq. simpl. by rewrite <- app_assoc.
    + by rewrite lookup_insert_ne.
Qed.

(** The word list of a length: the accepted lines of that length, in file
    order, repeated as often as they occur. *)
Lemma load_dictionary_lookup lines L :
  default [] (load_dictionary str_strip str_isalpha str_upper max_len lines !! L)
  = filter (fun w => length w = L)
      (omap (accepted str_strip str_isalpha str_upper max_len) lines).
Proof. unfold load_dictionary. by rewrite load_fold_lookup, lookup_empty. Qed.

Lemma load_dictionary_grouped lines :
  grouped_by_length
    (load_dictionary str_strip str_isalpha str_upper max_len lines).
Proof.
  intros L ws Hws. pose proof (load_dictionary_lookup lines L) as H.
  rewrite Hws in H. simpl in H. rewrite H.
  apply Forall_forall. intros w Hw. by apply list_elem_of_filter in Hw as [? _].
Qed.


End Dictionary.



(** C10: a dictionary word with a character outside A-Z at [pos] has its
    word ID in no letter table of that position; so
    [compute_path_candidates] leaves it out of the candidates of every path
    of its length that reaches [pos], and after a successful [propagate] no
    such path holds it as a candidate: the search never forces it and no
    letter of it reaches a board. *)
Theorem off_alphabet_word_excluded
    words_by_len index all_mask L words (wid : nat) w pos ch :
  build_index words_by_len = Val (index, all_mask) ->
  words_by_len !! L = Some words ->
  words !! wid = Some w ->
  w !! pos = Some ch ->
  ~ (0 <= ch - 65 < 26) ->
  (forall idxL lb li b,
      index !! L = Some idxL -> idxL !! pos = Some lb -> lb !! li = Some b ->
      Z.testbit b (Z.of_nat wid) = false) /\
  (forall fuel cells domains c,
      (pos < length cells)%nat ->
      compute_path_candidates index all_mask fuel cells L domains = Val c ->
      Z.testbit c (Z.of_nat wid) = false) /\
  (forall paths n_cells fuel st domains path_cands pid cells c,
      propagate paths index all_mask n_cells fuel st
      = Val (true, (domains, path_cands)) ->
      paths !! pid = Some (cells, L) -> (pos < length cells)%nat ->
      path_cands !! pid = Some c ->
      Z.testbit c (Z.of_nat wid) = false /\ Z.of_nat wid ∉ set_bits c).
Proof.
  intros Hb Hws Hw Hch Hbad. apply build_index_ok in Hb.
  assert (forall idxL lb li b,
             index !! L = Some idxL -> idxL !! pos = Some lb -> lb !! li = Some b ->
             Z.testbit b (Z.of_nat wid) = false) as H1.
  { intros idxL lb li b Hi Hlb Hbb.
    destruct (index_ok_lookup _ _ _ _ _ Hb Hi) as (words' & Hws' & _ & _ & _ & Htab).
    assert (words' = words) as -> by congruence.
    destruct (Htab pos lb Hlb) as [Hlen Hbits].
    destruct (Z.testbit b (Z.of_nat wid)) eqn:Ht; [|done].
    apply (Hbits _ _ Hbb) in Ht as (_ & w' & ch' & Hw' & Hch' & He).
    rewrite Nat2Z.id in Hw'. assert (w' = w) as -> by congruence.
    assert (ch' = ch) as -> by congruence.
    apply lookup_lt_Some in Hbb. lia. }
  assert (forall fuel cells domains c,
             (pos < length cells)%nat ->
             compute_path_candidates index all_mask fuel cells L domains = Val c ->
             Z.testbit c (Z.of_nat wid) = false) as H2.
  { intros fuel cells domains c Hpos Hc.
    destruct (index !! L) as [idxL|] eqn:Hi.
    - destruct (compute_path_candidates_bits _ _ _ _ _ _ _ _ Hc Hi) as (am & _ & Hbits).
      destruct (Z.testbit c (Z.of_nat wid)) eqn:Ht; [|done].
      apply Hbits in Ht as [_ Hsup].
      destruct (lookup_lt_is_Some_2 cells pos Hpos) as [cell Hcell].
      destruct (Hsup pos cell Hcell) as (a & ip & _ & Hip & l & b & _ & Hbb & Ht).
      by rewrite (H1 idxL ip _ b eq_refl Hip Hbb) in Ht.
    - rewrite compute_path_candidates_no_index in Hc by done.
      injection Hc as <-. apply Z.bits_0. }
  split; [done|]. split; [done|].
  intros paths n_cells fuel [ds0 pcs0] domains path_cands pid cells c Hp Hpid Hpos Hc.
  apply propagate_true in Hp as [_ [fuel' Hfix]].
  apply propagate_pass_go in Hfix as ((_ & _ & Hdone & _) & _).
  destruct (Hdone pid cells L) as (c' & Hc' & _ & Hc'');
    [by eapply lookup_lt_Some|done|].
  assert (c' = c) as -> by congruence.
  pose proof (H2 _ _ _ _ Hpos Hc') as Ht. split; [done|].
  intros Hin. destruct (Z.lt_ge_cases c 0) as [Hneg|Hnn].
  - destruct c; try lia. by apply elem_of_nil in Hin.
  - apply elem_of_set_bits in Hin as [_ Hin]; [congruence|done].
Qed.

Lemma off_alphabet_word_excluded_witness :
  compute_path_candidates ea_index ea_mask 30 [0; 1] 2 [ALL; ALL] = Val 2 /\
  Z.testbit 2 (Z.of_nat 0) = false.
Proof.
  split; [vm_compute; reflexivity|].
  eapply (proj1 (proj2 (off_alphabet_word_excluded ea_words ea_index ea_mask 2%nat
            [[201; 65]; codepoints "BA"] 0%nat [201; 65] 0%nat 201
            ltac:(vm_compute; reflexivity) ltac:(vm_compute; reflexivity)
            eq_refl eq_refl ltac:(lia)))
          30%nat [0; 1] [ALL; ALL] 2).
  - simpl. lia.
  - vm_compute. reflexivity.
Defined.

(** ** The printed board *)

Lemma traverse_spec {A B} (f : A -> outcome B) l : forall ys,
  traverse f l = Val ys -> Forall2 (fun x y => f x = Val y) l ys.
Proof.
  induction l as [|x l IH]; intros ys H; simpl in H.
  - simplify_eq. constructor.
  - apply bind_Val in H as [y [Hy H]]. apply bind_Val in H as [ys' [Hys H]].
    simplify_eq. constructor; [done|by apply IH].
Qed.

Lemma mask_to_letter_single d c :
  single_letter d -> mask_to_letter d = Val c -> 65 <= c <= 90.
Proof.
  intros (k & Hk & ->). unfold mask_to_letter, chr.
  rewrite Z.shiftl_1_l, bit_length_pow2 by lia.
  destruct (_ && _); intros H; simplify_eq. lia.
Qed.

Lemma board_row_letters sol ncols r row :
  Forall single_letter sol ->
  board_row sol ncols r = Val row ->
  length row = Z.to_nat ncols /\ Forall (fun c => 65 <= c <= 90) row.
Proof.
  intros Hsol H. unfold board_row in H. apply traverse_spec in H.
  split.
  - apply Forall2_length in H. by rewrite length_seq in H.
  - apply Forall_forall. intros c Hc.
    apply list_elem_of_lookup in Hc as [i Hi].
    destruct (Forall2_lookup_r _ _ _ _ _ H Hi) as (x & _ & Hx).
    apply bind_Val in Hx as [mask [Hm Hx]]. apply indexed_Val in Hm.
    eapply mask_to_letter_single; [|done].
    rewrite Forall_forall in Hsol. apply Hsol.
    unfold py_index in Hm. destruct (py_pos sol _); simplify_eq/=.
    by eapply list_elem_of_lookup_2.
Qed.

Lemma main_paths_wf data : paths_wf (main_paths data).
Proof.
  unfold main_paths. pose proof (load_paths_spec data) as H.
  destruct (load_paths data) as [[[raw nrows] ncols] max_len].
  destruct H as (-> & _). unfold paths_wf.
  apply Forall_forall. intros p Hp.
  apply list_elem_of_fmap in Hp as ([coords L] & -> & Hin).
  apply list_elem_of_fmap in Hin as (coords' & [= -> ->] & _).
  simpl. unfold linear_cells. by rewrite length_map.
Qed.

(** ** The branching order *)

Lemma choose_step_inv seen s c :
  choose_inv seen s -> choose_inv (seen ++ [c]) (choose_step s (length seen) c).
Proof.
  destruct s as [best bc]. intros (Hnone & Hsome & Hbest). unfold choose_step.
  simpl in *.
  assert (forall i c', (seen ++ [c]) !! i = Some c' ->
            seen !! i = Some c' \/ (i = length seen /\ c' = c)) as Hcases.
  { intros i c' Hi. destruct (decide (i < length seen)%nat).
    - left. by rewrite lookup_app_l in Hi.
    - right. rewrite lookup_app_r in Hi by lia.
      destruct (i - length seen)%nat as [|k] eqn:E; simpl in Hi; [|done].
      split; [lia|congruence]. }
  destruct (Z.ltb_spec 1 (bitcount c)) as [H1|H1];
    [destruct (Z.ltb_spec (bitcount c) bc) as [H2|H2]|]; simpl.
  all: unfold choose_inv; simpl.
  - (* a new best *)
    split; [done|]. split; [eauto|].
    intros p [= <-]. exists c.
    split; [by rewrite lookup_app_r, Nat.sub_diag|]. split; [done|]. split.
    + destruct best as [p|].
      * destruct (Hbest p eq_refl) as (? & _ & _ & ? & _). lia.
      * rewrite Hnone in H2 by done. lia.
    + intros i c' Hi Hc'. destruct (Hcases i c' Hi) as [Hi'|[-> ->]]; [|lia].
      destruct best as [p|].
      * destruct (Hbest p eq_refl) as (? & _ & _ & _ & Hmin).
        destruct (Hmin i c' Hi' Hc'). lia.
      * specialize (Hnone eq_refl).
        destruct (Z.lt_ge_cases (bitcount c') (10 ^ 9)) as [Hlt|Hge]; [|lia].
        by destruct (Hsome i c' Hi' Hc' Hlt).
  - (* not better than the best so far *)
    split; [done|]. split.
    + intros i c' Hi Hc' Hlt. destruct (Hcases i c' Hi) as [Hi'|[-> ->]]; [eauto|].
      destruct best; [eauto|]. rewrite Hnone in H2 by done. lia.
    + intros p ->. destruct (Hbest p eq_refl) as (c0 & Hc0 & Hbc & Hr & Hmin).
      exists c0. split; [by apply lookup_app_l_Some|]. split; [done|]. split; [done|].
      intros i c' Hi Hc'. destruct (Hcases i c' Hi) as [Hi'|[-> ->]]; [eauto|].
      split; [lia|]. intros _. apply lookup_lt_Some in Hc0. lia.
  - (* at most one candidate *)
    split; [done|]. split.
    + intros i c' Hi Hc' Hlt. destruct (Hcases i c' Hi) as [Hi'|[-> ->]]; [eauto|lia].
    + intros p ->. destruct (Hbest p eq_refl) as (c0 & Hc0 & Hbc & Hr & Hmin).
      exists c0. split; [by apply lookup_app_l_Some|]. split; [done|]. split; [done|].
      intros i c' Hi Hc'. destruct (Hcases i c' Hi) as [Hi'|[-> ->]]; [eauto|lia].
Qed.

Lemma choose_from_inv l : forall seen s,
  choose_inv seen s -> choose_inv (seen ++ l) (choose_from (length seen) l s).
Proof.
  induction l as [|c l IH]; intros seen s Hs; simpl.
  - by rewrite app_nil_r.
  - replace (seen ++ c :: l) with ((seen ++ [c]) ++ l) by (by rewrite <- app_assoc).
    replace (S (length seen)) with (length (seen ++ [c]))
      by (rewrite length_app; simpl; lia).
    apply IH. by apply choose_step_inv.
Qed.

(** [choose_branch_path] picks the path with the fewest candidates among
    those with more than one, the earliest among equals; it picks none only
    if no path has between 2 and 10^9 - 1 candidates. *)
Lemma choose_branch_path_spec path_cands :
  match choose_branch_path path_cands with
  | Some pid => fewest_candidates path_cands pid
  | None => forall i c, path_cands !! i = Some c -> 1 < bitcount c ->
                        10 ^ 9 <= bitcount c
  end.
Proof.
  unfold choose_branch_path.
  pose proof (choose_from_inv path_cands [] (None, 10 ^ 9)) as H. simpl in H.
  destruct (choose_from 0 path_cands (None, 10 ^ 9)) as [best bc].
  destruct H as (Hnone & Hsome & Hbest).
  { split; [done|]. split; [|done]. intros i c Hi. by rewrite lookup_nil in Hi. }
  simpl in *. destruct best as [pid|].
  - destruct (Hbest pid eq_refl) as (c & Hc & <- & Hr & Hmin).
    exists c. split; [done|]. split; [lia|done].
  - intros i c Hi Hc. destruct (Z.lt_ge_cases (bitcount c) (10 ^ 9)) as [Hlt|]; [|done].
    by destruct (Hsome i c Hi Hc Hlt).
Qed.

(** A list loop that returns early stopped at the first element whose
    body returned: all the elements before it were tried and went on. *)
Lemma for_each_first_stop {A S R} (body : A -> S -> outcome (flow S R)) l :
  forall s r,
    for_each body l s = Val (Stop r) ->
    exists pre x post s',
      l = pre ++ x :: post /\ for_each body pre s = Val (Go s')
      /\ body x s' = Val (Stop r).
Proof.
  induction l as [|x l IH]; intros s r H; simpl in H; [done|].
  destruct (body x s) as [[s1|r1]| |] eqn:E; simpl in H; [| |done..].
  - destruct (IH _ _ H) as (pre & y & post & s' & -> & Hpre & Hy).
    exists (x :: pre), y, post, s'. split_and!; [done| |done].
    simpl. by rewrite E.
  - simplify_eq. by exists [], x, l, s.
Qed.

Lemma solve_S paths index all_mask n_cells words_by_len fuel d pc (h : heap) :
  solve paths index all_mask n_cells words_by_len (S fuel) d pc h =
  '(ok, (ds, pcs)) ← propagate paths index all_mask n_cells fuel
                       (deref h d, deref h pc);
  let h1 : heap := <[pc := pcs]> (<[d := ds]> h) in
  if negb ok then Val (None, h1)
  else if solved ds then Val (Some d, h1)
  else
    match choose_branch_path pcs with
    | None => Val (None, h1)
    | Some pid =>
        '(cells, L) ← indexed (paths !! pid);
        let words := default [] (words_by_len !! L) in
        candidates ← indexed (pcs !! pid);
        r ← for_bits fuel
              (try_branch (solve paths index all_mask n_cells words_by_len fuel)
                 d pc pid cells words)
              candidates h1;
        match r with
        | Go h2 => Val (None, h2)
        | Stop (res, h2) => Val (Some res, h2)
        end
    end.
Proof. done. Qed.

(** ** Runs without exceptions *)

Lemma for_enum_inv_exc {A S R} (body : nat -> A -> S -> outcome (flow S R))
    (I : nat -> S -> Prop) (Q : R -> Prop) (E : pyexc -> Prop) (l : list A) :
  forall i0 s,
    (forall j x s0, l !! j = Some x -> I (i0 + j)%nat s0 ->
       match body (i0 + j)%nat x s0 with
       | Val (Go s1) => I (Datatypes.S (i0 + j)) s1
       | Val (Stop r) => Q r
       | Exc e => E e
       | OutOfFuel => True
       end) ->
    I i0 s ->
    match for_enum body i0 l s with
    | Val (Go s') => I (i0 + length l)%nat s'
    | Val (Stop r) => Q r
    | Exc e => E e
    | OutOfFuel => True
    end.
Proof.
  induction l as [|x l IH]; intros i0 s Hstep HI; simpl.
  - by rewrite Nat.add_0_r.
  - pose proof (Hstep 0%nat x s eq_refl) as H0. rewrite Nat.add_0_r in H0.
    specialize (H0 HI).
    destruct (body i0 x s) as [[s1|r]| |]; simpl; try done.
    replace (i0 + Datatypes.S (length l))%nat with (Datatypes.S i0 + length l)%nat by lia.
    apply IH; [|done].
    intros j y s0 Hj. specialize (Hstep (Datatypes.S j) y s0 Hj).
    by replace (i0 + Datatypes.S j)%nat with (Datatypes.S i0 + j)%nat in Hstep by lia.
Qed.

Lemma for_each_all_go {A S R} (body : A -> S -> outcome (flow S R)) l :
  (forall x s, x ∈ l -> exists s', body x s = Val (Go s')) ->
  forall s, exists s', for_each body l s = Val (Go s').
Proof.
  induction l as [|x l IH]; intros Hb s; simpl; [eauto|].
  destruct (Hb x s) as [s1 ->]; [left|]. simpl.
  apply IH. intros y s0 Hy. apply Hb. by right.
Qed.

Lemma ALL_eq : ALL = 2 ^ 26 - 1.
Proof. done. Qed.

Lemma testbit_domain d l :
  0 <= d <= ALL -> Z.testbit d l = true -> 0 <= l < 26.
Proof.
  intros Hd Hl. rewrite ALL_eq in Hd.
  destruct (Z.lt_ge_cases l 0) as [Hneg|Hnn]; [by rewrite Z.testbit_neg_r in Hl|].
  apply (set_bits_bound d 26 l); [lia|lia|].
  apply elem_of_set_bits; [lia|done].
Qed.

(** On a domain over the alphabet and a table of 26 letters,
    [allowed_words_for_pos] raises nothing. *)
Lemma allowed_words_for_pos_no_exc fuel index_pos m e :
  0 <= m <= ALL -> length index_pos = 26%nat ->
  allowed_words_for_pos fuel index_pos m <> Exc e.
Proof.
  intros Hm Hlen. unfold allowed_words_for_pos. set (body := fun letter out => _).
  destruct (for_bits_partial body m fuel 0 (proj1 Hm)) as [-> | ->]; [done|].
  destruct (for_each_all_go body (set_bits m)) with (s := 0) as [s' ->]; [|done].
  intros l s Hl. unfold body.
  apply elem_of_set_bits in Hl as [Hl0 Hl]; [|lia].
  apply testbit_domain in Hl; [|done].
  rewrite py_index_nonneg by done.
  destruct (lookup_lt_is_Some_2 index_pos (Z.to_nat l)) as [b ->]; [lia|].
  simpl. eauto.
Qed.

Lemma allowed_words_for_pos_safe fuel index_pos m :
  0 <= m <= ALL -> length index_pos = 26%nat -> (26 < fuel)%nat ->
  exists aw, allowed_words_for_pos fuel index_pos m = Val aw.
Proof.
  intros Hm Hlen Hf.
  pose proof (allowed_words_for_pos_total fuel index_pos m ltac:(lia)) as Ht.
  destruct (allowed_words_for_pos fuel index_pos m) as [aw|e|] eqn:E; [eauto| |done].
  by apply allowed_words_for_pos_no_exc in E.
Qed.

(** [possible_letters_at_pos], bit by bit. *)
Lemma letters_from_spec cands index_pos letters : forall mask out,
  letters_from cands index_pos letters mask = Val out ->
  (forall l, l ∈ letters -> is_Some (index_pos !! l)) /\
  forall i, Z.testbit out i = true <->
    Z.testbit mask i = true \/
    exists l b, l ∈ letters /\ i = Z.of_nat l /\ index_pos !! l = Some b
                /\ Z.land cands b <> 0.
Proof.
  induction letters as [|l letters IH]; intros mask out H; simpl in H.
  - simplify_eq. split; [intros l Hl; by apply elem_of_nil in Hl|].
    intros i. split; [auto|]. intros [?|(l & b & Hl & _)]; [done|].
    by apply elem_of_nil in Hl.
  - destruct (index_pos !! l) as [b|] eqn:Hb; simpl in H; [|done].
    apply IH in H as [Hsome Hbits]. split.
    + intros l' Hl'. apply elem_of_cons in Hl' as [->|Hl']; [eauto|by apply Hsome].
    + intros i. rewrite Hbits. unfold with_letter.
      destruct (Z.eqb_spec (Z.land cands b) 0) as [Hz|Hnz].
      * split.
        -- intros [?|(l' & b' & Hl' & ? & ? & ?)]; [by left|right].
           exists l', b'. split_and!; [by right|done..].
        -- intros [?|(l' & b' & Hl' & -> & Hb' & Hnz')]; [by left|].
           apply elem_of_cons in Hl' as [->|Hl']; [congruence|].
           right. by exists l', b'.
      * rewrite Z.lor_spec, orb_true_iff, testbit_shiftl_1. split.
        -- intros [[?| ->]|(l' & b' & Hl' & ? & ? & ?)]; [by left|right..].
           ++ exists l, b. split_and!; [left|done..].
           ++ exists l', b'. split_and!; [by right|done..].
        -- intros [?|(l' & b' & Hl' & -> & Hb' & Hnz')]; [by left; left|].
           apply elem_of_cons in Hl' as [->|Hl']; [by left; right|].
           right. by exists l', b'.
Qed.

Lemma possible_letters_at_pos_spec cands index_pos mask :
  possible_letters_at_pos cands index_pos = Val mask ->
  forall i, Z.testbit mask i = true <->
    exists l b, (l < 26)%nat /\ i = Z.of_nat l /\ index_pos !! l = Some b
                /\ Z.land cands b <> 0.
Proof.
  unfold possible_letters_at_pos. intros H i.
  apply letters_from_spec in H as [_ H]. rewrite H, Z.bits_0. split.
  - intros [?|(l & b & Hl & ? & ? & ?)]; [done|].
    exists l, b. split_and!; [|done..]. apply elem_of_seq in Hl. lia.
  - intros (l & b & Hl & ? & ? & ?). right. exists l, b.
    split_and!; [|done..]. apply elem_of_seq. lia.
Qed.

Lemma possible_letters_at_pos_safe cands index_pos :
  length index_pos = 26%nat ->
  exists mask, possible_letters_at_pos cands index_pos = Val mask.
Proof.
  intros Hlen. unfold possible_letters_at_pos.
  assert (forall letters mask,
             (forall l, l ∈ letters -> (l < 26)%nat) ->
             exists out, letters_from cands index_pos letters mask = Val out) as H.
  { induction letters as [|l letters IH]; intros mask Hl; simpl; [eauto|].
    destruct (lookup_lt_is_Some_2 index_pos l) as [b ->].
    { rewrite Hlen. apply Hl. left. }
    simpl. apply IH. intros l' Hl'. apply Hl. by right. }
  apply H. intros l Hl. apply elem_of_seq in Hl. lia.
Qed.

Lemma intersect_loop_no_exc nd e : forall k i0 ds ch,
  (i0 + k <= length nd)%nat -> (i0 + k <= length ds)%nat ->
  intersect_loop nd (seq i0 k) (ds, ch) <> Exc e.
Proof.
  induction k as [|k IH]; intros i0 ds ch Hnd Hds; simpl; [done|].
  destruct (lookup_lt_is_Some_2 nd i0) as [n ->]; [lia|].
  destruct (lookup_lt_is_Some_2 ds i0) as [d ->]; [lia|]. simpl.
  destruct (_ =? 0); [done|].
  destruct (_ =? d); simpl; apply IH; rewrite ?length_insert; lia.
Qed.

Section Safety.

Variable paths : list path.
Variable index : gmap nat (list (list Z)).
Variable all_mask : gmap nat Z.
Variable n_cells : Z.
Variable words_by_len : gmap nat (list word).
Hypothesis Hok : index_ok words_by_len index all_mask.
Hypothesis Hpaths : paths_wf paths.
Hypothesis Hcells : cells_in_range paths n_cells.

Lemma path_length cells L : (cells, L) ∈ paths -> length cells = L.
Proof.
  intros Hin. unfold paths_wf in Hpaths. rewrite Forall_forall in Hpaths.
  apply (Hpaths (cells, L) Hin).
Qed.

Lemma path_cell cells L j cell :
  (cells, L) ∈ paths -> cells !! j = Some cell -> 0 <= cell < n_cells.
Proof.
  intros Hin Hj. pose proof (Hcells cells L Hin) as H.
  rewrite Forall_forall in H. apply H. by eapply list_elem_of_lookup_2.
Qed.

(** A cell of a path reads a domain over the alphabet. *)
Lemma domain_at ds cell :
  length ds = Z.to_nat n_cells -> domains_in_range (Z.to_nat n_cells) ds ->
  0 <= cell < n_cells ->
  exists d, py_pos ds cell = Some (Z.to_nat cell) /\ ds !! Z.to_nat cell = Some d
            /\ py_index ds cell = Some d /\ 0 < d <= ALL.
Proof.
  intros Hlen Hr Hc. destruct (Hr (Z.to_nat cell)) as (d & Hd & Hd0); [lia|].
  exists d. rewrite py_index_nonneg by lia.
  split; [apply py_pos_nonneg; lia|]. destruct Hd0. by split_and!.
Qed.

Lemma index_tables L idxL :
  index !! L = Some idxL ->
  length idxL = L /\ Forall (fun lb => length lb = 26%nat) idxL /\
  is_Some (all_mask !! L).
Proof.
  intros Hi. destruct (index_ok_lookup _ _ _ _ _ Hok Hi) as (ws & _ & _ & Ham & Hlen & _).
  split; [done|]. split; [|eauto]. by eapply (index_ok_wf _ _ _ Hok).
Qed.

Lemma compute_path_candidates_no_exc fuel cells L ds e :
  (cells, L) ∈ paths ->
  length ds = Z.to_nat n_cells -> domains_in_range (Z.to_nat n_cells) ds ->
  compute_path_candidates index all_mask fuel cells L ds <> Exc e.
Proof.
  intros Hin Hlen Hr. unfold compute_path_candidates.
  destruct (index !! L) as [idxL|] eqn:Hi; [|done].
  destruct (index_tables L idxL Hi) as (HidxL & Htab & [am ->]).
  pose proof (for_enum_inv_exc (candidates_step fuel idxL ds)
    (fun _ _ => True) (fun _ => True) (fun _ => False) cells 0%nat am) as H.
  destruct (for_enum _ _ _ _) as [[?|?]|e'|] eqn:E; try done.
  exfalso. apply H; [|done]. clear H E. intros j cell cand Hj _.
  cbn [Nat.add]. unfold candidates_step.
  destruct (domain_at ds cell Hlen Hr) as (d & _ & _ & -> & Hd);
    [by eapply path_cell|]. simpl.
  destruct (Z.eqb_spec d 0); [done|].
  destruct (lookup_lt_is_Some_2 idxL j) as [ip Hip].
  { apply lookup_lt_Some in Hj. rewrite (path_length cells L Hin) in Hj. simpl. lia. }
  rewrite Hip. simpl.
  destruct (allowed_words_for_pos fuel ip d) as [aw|e''|] eqn:E; simpl; [|  |done].
  - by destruct (_ =? 0).
  - apply allowed_words_for_pos_no_exc in E; [done|lia|].
    rewrite Forall_forall in Htab. apply Htab. by eapply list_elem_of_lookup_2.
Qed.

Lemma update_paths_no_exc fuel ds pcs ch e :
  length ds = Z.to_nat n_cells -> domains_in_range (Z.to_nat n_cells) ds ->
  length pcs = length paths ->
  for_enum (update_path_step index all_mask fuel ds) 0%nat paths (pcs, ch) <> Exc e.
Proof.
  intros Hlen Hr Hpcs.
  pose proof (for_enum_inv_exc (update_path_step index all_mask fuel ds)
    (fun _ s => length (fst s) = length paths) (fun _ => True) (fun _ => False)
    paths 0%nat (pcs, ch)) as H.
  destruct (for_enum _ _ _ _) as [[?|?]|e'|] eqn:E; try done.
  exfalso. apply H; [|done]. clear H E.
  intros j [cells L] [pcs1 ch1] Hj Hl. simpl in Hl. cbn [Nat.add].
  unfold update_path_step.
  destruct (compute_path_candidates index all_mask fuel cells L ds) as [c|e''|] eqn:E;
    simpl; [| |done].
  - destruct (c =? 0); [done|].
    destruct (lookup_lt_is_Some_2 pcs1 j) as [old ->].
    { apply lookup_lt_Some in Hj. simpl. lia. }
    simpl. destruct (c =? old); simpl; [done|]. by rewrite length_insert.
  - apply compute_path_candidates_no_exc in E; [done| |done..].
    by eapply list_elem_of_lookup_2.
Qed.

Lemma narrow_paths_no_exc pcs nd e :
  length pcs = length paths -> length nd = Z.to_nat n_cells ->
  (forall pid cells L, paths !! pid = Some (cells, L) -> is_Some (index !! L)) ->
  for_enum (narrow_path_step index pcs) 0%nat paths nd <> Exc e.
Proof.
  intros Hpcs Hnd Hidx.
  pose proof (for_enum_inv_exc (narrow_path_step index pcs)
    (fun _ nd1 => length nd1 = Z.to_nat n_cells) (fun _ => True) (fun _ => False)
    paths 0%nat nd) as H.
  destruct (for_enum _ _ _ _) as [[?|?]|e'|] eqn:E; try done.
  exfalso. apply H; [|done]. clear H E.
  intros j [cells L] nd1 Hj Hl. cbn [Nat.add]. unfold narrow_path_step.
  destruct (lookup_lt_is_Some_2 pcs j) as [cands ->].
  { apply lookup_lt_Some in Hj. simpl. lia. }
  simpl. destruct (Hidx _ _ _ Hj) as [idxL Hi]. rewrite Hi.
  destruct (index_tables L idxL Hi) as (HidxL & Htab & _).
  assert ((cells, L) ∈ paths) as Hin by (by eapply list_elem_of_lookup_2).
  pose proof (for_enum_inv_exc (narrow_cell_step cands idxL)
    (fun _ nd2 => length nd2 = Z.to_nat n_cells) (fun _ => True) (fun _ => False)
    cells 0%nat nd1) as H.
  destruct (for_enum _ _ _ _) as [[?|?]|e2|] eqn:E; try done.
  - apply H; [|done]. clear H E. intros pos cell nd2 Hpos Hl2.
    cbn [Nat.add]. unfold narrow_cell_step.
    assert (0 <= cell < n_cells) as Hc by (by eapply path_cell).
    assert (py_pos nd2 cell = Some (Z.to_nat cell)) as Hpp
      by (apply py_pos_nonneg; lia).
    unfold py_index, py_store. rewrite Hpp. simpl.
    destruct (lookup_lt_is_Some_2 nd2 (Z.to_nat cell)) as [old ->]; [lia|]. simpl.
    destruct (lookup_lt_is_Some_2 idxL pos) as [ip Hip].
    { apply lookup_lt_Some in Hpos. rewrite (path_length cells L Hin) in Hpos.
      simpl. lia. }
    rewrite Hip. simpl.
    destruct (possible_letters_at_pos_safe cands ip) as [mask ->].
    { rewrite Forall_forall in Htab. apply Htab. by eapply list_elem_of_lookup_2. }
    simpl. destruct (_ =? 0); [done|]. by rewrite length_insert.
  - apply H; [|done]. clear H E. intros pos cell nd2 Hpos Hl2.
    cbn [Nat.add]. unfold narrow_cell_step.
    assert (0 <= cell < n_cells) as Hc by (by eapply path_cell).
    assert (py_pos nd2 cell = Some (Z.to_nat cell)) as Hpp
      by (apply py_pos_nonneg; lia).
    unfold py_index, py_store. rewrite Hpp. simpl.
    destruct (lookup_lt_is_Some_2 nd2 (Z.to_nat cell)) as [old ->]; [lia|]. simpl.
    destruct (lookup_lt_is_Some_2 idxL pos) as [ip Hip].
    { apply lookup_lt_Some in Hpos. rewrite (path_length cells L Hin) in Hpos.
      simpl. lia. }
    rewrite Hip. simpl.
    destruct (possible_letters_at_pos_safe cands ip) as [mask ->].
    { rewrite Forall_forall in Htab. apply Htab. by eapply list_elem_of_lookup_2. }
    simpl. destruct (_ =? 0); [done|]. by rewrite length_insert.
Qed.

(** From a good state a pass raises nothing. *)
Lemma propagate_pass_no_exc fuel ds pcs e :
  good_state paths n_cells ds pcs ->
  propagate_pass paths index all_mask n_cells fuel (ds, pcs) <> Exc e.
Proof.
  intros (Hlen & Hr & Hpcs). unfold propagate_pass.
  pose proof (update_paths_inv paths index all_mask fuel ds pcs false) as H1.
  pose proof (update_paths_no_exc fuel ds pcs false e Hlen Hr Hpcs) as E1.
  destruct (for_enum (update_path_step _ _ _ _) _ _ _) as [[[pcs1 ch1]|?]|e1|];
    simpl; [|done|congruence|done].
  destruct H1 as [(_ & Hlen1 & Hdone & _) _].
  pose proof (narrow_paths_sub paths index pcs1 (replicate (Z.to_nat n_cells) ALL))
    as H2.
  pose proof (narrow_paths_no_exc pcs1 (replicate (Z.to_nat n_cells) ALL) e) as E2.
  destruct (for_enum (narrow_path_step _ _) _ _ _) as [[nd|?]|e2|]; simpl;
    [|done| |done].
  - destruct H2 as [Hnd _]. rewrite length_replicate in Hnd.
    pose proof (intersect_loop_no_exc nd e (Z.to_nat n_cells) 0 ds ch1) as E3.
    destruct (intersect_loop _ _ _) as [[[ds2 ch2]|?]|e3|]; simpl; try done.
    intros [= ->]. apply E3; [lia|lia|done].
  - intros [= ->]. apply E2; [congruence|apply length_replicate| |done].
    intros pid cells L Hpid.
    destruct (Hdone pid cells L) as (c & Hc & Hnz & _);
      [by eapply lookup_lt_Some|done|].
    destruct (index !! L) eqn:Hi; [eauto|].
    rewrite compute_path_candidates_no_index in Hc by done. congruence.
Qed.

End Safety.

(** ** Propagation keeps every solution *)

Lemma testbit_ALL l : 0 <= l < 26 -> Z.testbit ALL l = true.
Proof.
  intros Hl. rewrite ALL_eq. change (2 ^ 26 - 1) with (Z.pred (2 ^ 26)).
  rewrite <- Z.ones_equiv. apply Z.ones_spec_iff; lia.
Qed.

Lemma land_testbit_nonzero x y i :
  Z.testbit x i = true -> Z.testbit y i = true -> Z.land x y <> 0.
Proof.
  intros Hx Hy Hz.
  assert (Z.testbit (Z.land x y) i = true) as H by (by rewrite Z.land_spec, Hx, Hy).
  by rewrite Hz, Z.bits_0 in H.
Qed.

Lemma testbit_nonzero x i : Z.testbit x i = true -> x <> 0.
Proof. intros Hx ->. by rewrite Z.bits_0 in Hx. Qed.

Section Solution.

Variable paths : list path.
Variable index : gmap nat (list (list Z)).
Variable all_mask : gmap nat Z.
Variable n_cells : Z.
Variable words_by_len : gmap nat (list word).
Hypothesis Hok : index_ok words_by_len index all_mask.
Hypothesis Hpaths : paths_wf paths.
Hypothesis Hcells : cells_in_range paths n_cells.
Variable sigma : list Z.
Hypothesis Hsol : solution paths words_by_len n_cells sigma.

(** The word a path spells under [sigma], and its ID. *)
Lemma solution_word cells L :
  (cells, L) ∈ paths ->
  exists idxL words (wid : nat) w,
    index !! L = Some idxL /\ words_by_len !! L = Some words
    /\ all_mask !! L = Some (Z.shiftl 1 (Z.of_nat (length words)) - 1)
    /\ tables_ok L words idxL
    /\ words !! wid = Some w /\ reads sigma cells w.
Proof.
  intros Hin. destruct Hsol as (_ & _ & Hw).
  destruct (Hw cells L Hin) as (w & Hwin & Hreads).
  pose proof (Hok L) as HL.
  destruct (words_by_len !! L) as [[|w0 ws]|] eqn:Hws; simpl in Hwin;
    [by apply elem_of_nil in Hwin| |by apply elem_of_nil in Hwin].
  destruct HL as (tables & Hi & Ham & Htab).
  apply list_elem_of_lookup in Hwin as [wid Hwid].
  by exists tables, (w0 :: ws), wid, w.
Qed.

Lemma sigma_letter cell :
  0 <= cell < n_cells ->
  exists l, py_index sigma cell = Some l /\ sigma !! Z.to_nat cell = Some l
            /\ 0 <= l < 26.
Proof.
  intros Hc. destruct Hsol as (Hlen & Hrange & _).
  destruct (lookup_lt_is_Some_2 sigma (Z.to_nat cell)) as [l Hl]; [lia|].
  exists l. rewrite py_index_nonneg by lia. split_and!; [done|done|..];
    rewrite Forall_forall in Hrange; apply Hrange;
    by eapply list_elem_of_lookup_2.
Qed.

(** The letter [sigma] gives the [j]-th cell of a path is the letter of
    its word there. *)
Lemma reads_letter cells L w j cell :
  (cells, L) ∈ paths -> reads sigma cells w -> cells !! j = Some cell ->
  exists ch l, w !! j = Some ch /\ ch - 65 = l /\ 0 <= l < 26
               /\ sigma !! Z.to_nat cell = Some l /\ 0 <= cell < n_cells.
Proof.
  intros Hin Hr Hj. destruct (Forall2_lookup_l _ _ _ _ _ Hr Hj) as (ch & Hch & Hpi).
  assert (0 <= cell < n_cells) as Hc by (by eapply path_cell).
  destruct (sigma_letter cell Hc) as (l & Hl & Hl' & Hl26).
  exists ch, l. split_and!; try done; try lia. congruence.
Qed.

Lemma solution_supports ds cells L idxL words (wid : nat) w j cell :
  length ds = Z.to_nat n_cells -> domains_in_range (Z.to_nat n_cells) ds ->
  fits sigma ds ->
  (cells, L) ∈ paths -> index !! L = Some idxL -> tables_ok L words idxL ->
  words !! wid = Some w -> reads sigma cells w ->
  cells !! j = Some cell ->
  supports idxL ds j cell (Z.of_nat wid).
Proof.
  intros Hlen Hr Hfit Hin Hi [HidxL Htab] Hw Hreads Hj.
  destruct (reads_letter cells L w j cell Hin Hreads Hj)
    as (ch & l & Hch & He & Hl & Hsl & Hc).
  destruct (domain_at n_cells ds cell Hlen Hr Hc) as (d & _ & Hd & Hpi & Hd0).
  destruct (Hfit _ _ Hd) as (l' & Hl' & Hbit).
  assert (l' = l) as -> by congruence.
  destruct (lookup_lt_is_Some_2 idxL j) as [ip Hip].
  { apply lookup_lt_Some in Hj. rewrite (path_length paths Hpaths cells L Hin) in Hj.
    lia. }
  destruct (Htab j ip Hip) as [Hip26 Hbits].
  destruct (lookup_lt_is_Some_2 ip (Z.to_nat l)) as [b Hb]; [lia|].
  exists d, ip. split_and!; [done|done|].
  exists l, b. split_and!; [|done|].
  - apply elem_of_set_bits; [lia|]. split; [lia|done].
  - apply (Hbits _ _ Hb). split; [lia|]. exists w, ch. rewrite Nat2Z.id.
    split_and!; [done|done|lia].
Qed.

(** The word of [sigma] stays among the candidates of its path. *)
Lemma solution_candidate fuel ds cells L c :
  length ds = Z.to_nat n_cells -> domains_in_range (Z.to_nat n_cells) ds ->
  fits sigma ds ->
  (cells, L) ∈ paths ->
  compute_path_candidates index all_mask fuel cells L ds = Val c ->
  exists idxL words (wid : nat) w,
    index !! L = Some idxL /\ words_by_len !! L = Some words
    /\ tables_ok L words idxL /\ words !! wid = Some w /\ reads sigma cells w
    /\ Z.testbit c (Z.of_nat wid) = true.
Proof.
  intros Hlen Hr Hfit Hin Hc.
  destruct (solution_word cells L Hin)
    as (idxL & words & wid & w & Hi & Hws & Ham & Htab & Hw & Hreads).
  exists idxL, words, wid, w. split_and!; try done.
  destruct (compute_path_candidates_bits _ _ _ _ _ _ _ _ Hc Hi) as (am & Ham' & Hbits).
  apply Hbits. split.
  - assert (am = Z.shiftl 1 (Z.of_nat (length words)) - 1) as -> by congruence.
    apply testbit_all_mask. apply lookup_lt_Some in Hw. lia.
  - intros j cell Hj. by eapply solution_supports.
Qed.

(** First loop: no path runs out of candidates. *)
Lemma update_paths_fits fuel ds pcs ch r :
  length ds = Z.to_nat n_cells -> domains_in_range (Z.to_nat n_cells) ds ->
  fits sigma ds ->
  for_enum (update_path_step index all_mask fuel ds) 0%nat paths (pcs, ch) = Val r ->
  exists s, r = Go s.
Proof.
  intros Hlen Hr Hfit H.
  pose proof (for_enum_inv (update_path_step index all_mask fuel ds)
    (fun _ _ => True) (fun _ => False) paths 0%nat (pcs, ch)) as Hinv.
  rewrite H in Hinv. destruct r as [s|r]; [eauto|]. exfalso. apply Hinv; [|done].
  intros j [cells L] [pcs1 ch1] Hj _. cbn [Nat.add]. unfold update_path_step.
  destruct (compute_path_candidates index all_mask fuel cells L ds) as [c| |] eqn:Hc;
    simpl; [|done..].
  destruct (solution_candidate fuel ds cells L c Hlen Hr Hfit
              ltac:(by eapply list_elem_of_lookup_2) Hc)
    as (_ & _ & wid & _ & _ & _ & _ & _ & _ & Hbit).
  apply testbit_nonzero in Hbit. destruct (Z.eqb_spec c 0); [done|].
  destruct (pcs1 !! j); simpl; [|done]. by destruct (_ =? _).
Qed.

(** Third loop: the letters of [sigma] survive the intersection. *)
Lemma intersect_loop_fits nd : forall k i0 ds ch r,
  fits sigma nd -> fits sigma ds ->
  intersect_loop nd (seq i0 k) (ds, ch) = Val r ->
  exists ds' ch', r = Go (ds', ch') /\ fits sigma ds'.
Proof.
  induction k as [|k IH]; intros i0 ds ch r Hnd Hds H; simpl in H.
  - simplify_eq. eauto.
  - destruct (nd !! i0) as [n|] eqn:Hn; simpl in H; [|done].
    destruct (ds !! i0) as [d|] eqn:Hd; simpl in H; [|done].
    destruct (Hnd _ _ Hn) as (l & Hl & Hbn). destruct (Hds _ _ Hd) as (l' & Hl' & Hbd).
    assert (l' = l) as -> by congruence.
    pose proof (land_testbit_nonzero _ _ _ Hbn Hbd) as Hnz.
    destruct (Z.eqb_spec (Z.land n d) 0); [done|].
    destruct (Z.eqb_spec (Z.land n d) d); simpl in H; [by eapply IH|].
    eapply IH; [done| |done].
    intros i v Hv. destruct (decide (i = i0)) as [->|Hne].
    + rewrite list_lookup_insert_eq in Hv by (by eapply lookup_lt_Some).
      simplify_eq. exists l. split; [done|]. by rewrite Z.land_spec, Hbn, Hbd.
    + rewrite list_lookup_insert_ne in Hv by done. by apply Hds.
Qed.

End Solution.

Section SolutionPass.

Variable paths : list path.
Variable index : gmap nat (list (list Z)).
Variable all_mask : gmap nat Z.
Variable n_cells : Z.
Variable words_by_len : gmap nat (list word).
Hypothesis Hok : index_ok words_by_len index all_mask.
Hypothesis Hpaths : paths_wf paths.
Hypothesis Hcells : cells_in_range paths n_cells.
Variable sigma : list Z.
Hypothesis Hsol : solution paths words_by_len n_cells sigma.

(** Second loop, one path: the letters of [sigma] survive. *)
Lemma narrow_cells_fits cands idxL words (wid : nat) w cells L nd0 r :
  (cells, L) ∈ paths -> index !! L = Some idxL -> tables_ok L words idxL ->
  words !! wid = Some w -> reads sigma cells w ->
  Z.testbit cands (Z.of_nat wid) = true ->
  fits sigma nd0 ->
  for_enum (narrow_cell_step cands idxL) 0%nat cells nd0 = Val r ->
  exists nd, r = Go nd /\ fits sigma nd.
Proof.
  intros Hin Hi [HidxL Htab] Hw Hreads Hbit Hfit H.
  assert (forall j cell nd1, cells !! j = Some cell -> fits sigma nd1 ->
            match narrow_cell_step cands idxL j cell nd1 with
            | Val (Go nd2) => fits sigma nd2
            | Val (Stop _) => False
            | _ => True
            end) as Hstep.
  { intros j cell nd1 Hj Hf1. unfold narrow_cell_step.
    destruct (reads_letter _ _ _ Hcells _ Hsol cells L w j cell Hin Hreads Hj)
      as (ch & l & Hch & He & Hl & Hsl & Hc).
    rewrite py_index_nonneg by lia.
    destruct (nd1 !! Z.to_nat cell) as [old|] eqn:Hold; simpl; [|done].
    destruct (idxL !! j) as [ip|] eqn:Hip; simpl; [|done].
    destruct (possible_letters_at_pos cands ip) as [mask| |] eqn:Hmask;
      simpl; [|done..].
    unfold py_store.
    rewrite (py_pos_nonneg nd1 cell) by (apply lookup_lt_Some in Hold; lia).
    simpl.
    destruct (Hf1 _ _ Hold) as (l' & Hl' & Hbo).
    assert (l' = l) as -> by congruence.
    destruct (Htab j ip Hip) as [Hip26 Hbits].
    destruct (lookup_lt_is_Some_2 ip (Z.to_nat l)) as [b Hb]; [lia|].
    assert (Z.testbit b (Z.of_nat wid) = true) as Hbw.
    { apply (Hbits _ _ Hb). split; [lia|]. exists w, ch. rewrite Nat2Z.id.
      split_and!; [done|done|lia]. }
    assert (Z.testbit mask l = true) as Hml.
    { apply (possible_letters_at_pos_spec _ _ _ Hmask).
      exists (Z.to_nat l), b. split_and!; [lia|lia|done|].
      by eapply land_testbit_nonzero. }
    pose proof (land_testbit_nonzero _ _ _ Hbo Hml) as Hnz.
    destruct (Z.eqb_spec (Z.land old mask) 0); [done|].
    intros i v Hv. destruct (decide (i = Z.to_nat cell)) as [->|Hne].
    - rewrite list_lookup_insert_eq in Hv by (by eapply lookup_lt_Some).
      simplify_eq. exists (ch - 65). split; [done|].
      by rewrite Z.land_spec, Hbo, Hml.
    - rewrite list_lookup_insert_ne in Hv by done. by apply Hf1. }
  pose proof (for_enum_inv (narrow_cell_step cands idxL)
    (fun _ nd => fits sigma nd) (fun _ => False) cells 0%nat nd0
    (fun j x s Hj HI => Hstep j x s Hj HI) Hfit) as Hinv.
  rewrite H in Hinv. destruct r as [nd|r]; [eauto|done].
Qed.

(** Second loop: the letters of [sigma] survive in [new_domains]. *)
Lemma narrow_paths_fits fuel ds pcs pcs1 nd0 r :
  length ds = Z.to_nat n_cells -> domains_in_range (Z.to_nat n_cells) ds ->
  fits sigma ds ->
  paths_updated paths index all_mask fuel ds pcs pcs1 (length paths) ->
  fits sigma nd0 ->
  for_enum (narrow_path_step index pcs1) 0%nat paths nd0 = Val r ->
  exists nd, r = Go nd /\ fits sigma nd.
Proof.
  intros Hlen Hr Hfit (_ & _ & Hupd & _) Hf0 H.
  pose proof (for_enum_inv (narrow_path_step index pcs1)
    (fun _ nd => fits sigma nd) (fun _ => False) paths 0%nat nd0) as Hinv.
  rewrite H in Hinv. destruct r as [nd|r]; [exists nd; split; [done|]|exfalso];
    (apply Hinv; [|done]); clear Hinv H;
    intros j [cells L] nd1 Hj Hf1; cbn [Nat.add]; unfold narrow_path_step;
    (destruct (Hupd j cells L) as (c & Hc & Hnz & Hpc);
      [by eapply lookup_lt_Some|done|]);
    rewrite Hpc; simpl;
    assert ((cells, L) ∈ paths) as Hin by (by eapply list_elem_of_lookup_2);
    destruct (solution_candidate _ _ _ _ _ Hok Hpaths Hcells _ Hsol
                fuel ds cells L c Hlen Hr Hfit Hin Hc)
      as (idxL & words & wid & w & Hi & Hws & Htab & Hw & Hreads & Hbit);
    rewrite Hi;
    pose proof (narrow_cells_fits c idxL words wid w cells L nd1) as Hin2;
    (destruct (for_enum (narrow_cell_step c idxL) 0 cells nd1) as [r2| |];
       [|done..]);
    destruct (Hin2 r2 Hin Hi Htab Hw Hreads Hbit Hf1 eq_refl) as (nd2 & -> & Hf2);
    done.
Qed.

(** A pass from a state that [sigma] fits runs to its end and leaves
    domains that [sigma] still fits. *)
Lemma propagate_pass_fits fuel ds pcs r :
  good_state paths n_cells ds pcs -> fits sigma ds ->
  propagate_pass paths index all_mask n_cells fuel (ds, pcs) = Val r ->
  exists ds' pcs' ch, r = Go ((ds', pcs'), ch) /\ fits sigma ds'.
Proof.
  intros (Hlen & Hr & Hpcs) Hfit. unfold propagate_pass.
  pose proof (update_paths_inv paths index all_mask fuel ds pcs false) as H1.
  pose proof (update_paths_fits _ _ _ _ _ Hok Hpaths Hcells _ Hsol
                fuel ds pcs false) as F1.
  destruct (for_enum (update_path_step _ _ _ _) _ _ _) as [r1| |];
    simpl; [|done..].
  destruct (F1 r1 Hlen Hr Hfit eq_refl) as [[pcs1 ch1] ->].
  destruct H1 as [Hupd _].
  pose proof (narrow_paths_fits fuel ds pcs pcs1 (replicate (Z.to_nat n_cells) ALL))
    as F2.
  destruct (for_enum (narrow_path_step _ _) _ _ _) as [r2| |]; simpl; [|done..].
  destruct (F2 r2 Hlen Hr Hfit Hupd) as (nd & -> & Hnd); [|done|].
  { intros i d [-> Hi]%lookup_replicate.
    destruct Hsol as (Hsl & Hsr & _).
    destruct (lookup_lt_is_Some_2 sigma i) as [l Hl]; [lia|].
    exists l. split; [done|]. apply testbit_ALL.
    rewrite Forall_forall in Hsr. apply Hsr. by eapply list_elem_of_lookup_2. }
  pose proof (intersect_loop_fits sigma nd (Z.to_nat n_cells) 0%nat ds ch1) as F3.
  destruct (intersect_loop _ _ _) as [r3| |]; simpl; [|done..].
  destruct (F3 r3 Hnd Hfit eq_refl) as (ds' & ch' & -> & Hf').
  intros [= <-]. eauto.
Qed.

End SolutionPass.

(** ** What [propagate] returns from a good state *)

Section PropagateGood.

Variable paths : list path.
Variable index : gmap nat (list (list Z)).
Variable all_mask : gmap nat Z.
Variable n_cells : Z.
Variable words_by_len : gmap nat (list word).
Hypothesis Hok : index_ok words_by_len index all_mask.
Hypothesis Hpaths : paths_wf paths.
Hypothesis Hcells : cells_in_range paths n_cells.

Lemma propagate_pass_good fuel ds pcs ds' pcs' ch :
  good_state paths n_cells ds pcs ->
  propagate_pass paths index all_mask n_cells fuel (ds, pcs)
  = Val (Go ((ds', pcs'), ch)) ->
  good_state paths n_cells ds' pcs' /\ all_sub ds' ds.
Proof.
  intros (Hlen & Hr & Hpcs) H.
  pose proof (propagate_pass_range _ _ _ _ _ _ _ _ _ _ H) as Hr'.
  destruct (propagate_pass_go _ _ _ _ _ _ _ _ _ _ H)
    as ((_ & Hl' & _) & _ & Hsub & _).
  split; [|done]. split_and!; [|done|congruence].
  destruct Hsub as [-> _]. done.
Qed.

Lemma propagate_no_exc e : forall fuel ds pcs,
  good_state paths n_cells ds pcs ->
  propagate paths index all_mask n_cells fuel (ds, pcs) <> Exc e.
Proof.
  induction fuel as [|fuel IH]; intros ds pcs Hgood; [done|].
  rewrite propagate_S.
  pose proof (propagate_pass_no_exc _ _ _ _ _ Hok Hpaths Hcells fuel ds pcs e Hgood)
    as Hne.
  pose proof (propagate_pass_good fuel ds pcs) as Hg.
  destruct (propagate_pass _ _ _ _ _ _) as [[[[ds' pcs'] [|]]|?]|?|];
    simpl; try done; [|congruence].
  apply IH. by destruct (Hg ds' pcs' true Hgood eq_refl).
Qed.

(** With fuel for the sum of the domains, [propagate] returns. *)
Lemma propagate_val k fuel ds pcs :
  good_state paths n_cells ds pcs ->
  weigh (Z.max 0) ds <= Z.of_nat k -> (k + 29 <= fuel)%nat ->
  exists ok ds' pcs',
    propagate paths index all_mask n_cells fuel (ds, pcs) = Val (ok, (ds', pcs')).
Proof.
  intros Hgood Hw Hfuel.
  pose proof (propagate_from_range paths index all_mask n_cells
                (index_ok_wf _ _ _ Hok) k fuel ds pcs
                ltac:(by destruct Hgood as (_ & ? & _)) Hw Hfuel) as Hf.
  pose proof (propagate_no_exc) as He.
  destruct (propagate _ _ _ _ _ _) as [[ok [ds' pcs']]|e|] eqn:E; [eauto| |done].
  exfalso. by eapply (He e fuel ds pcs).
Qed.

(** When [propagate] returns [True], the state it leaves is good, inside
    the one it started from, and a further pass changes nothing. *)
Lemma propagate_true_good : forall fuel ds pcs ds' pcs',
  good_state paths n_cells ds pcs ->
  propagate paths index all_mask n_cells fuel (ds, pcs) = Val (true, (ds', pcs')) ->
  good_state paths n_cells ds' pcs' /\ all_sub ds' ds /\
  exists fuel', propagate_pass paths index all_mask n_cells fuel' (ds', pcs')
                = Val (Go ((ds', pcs'), false)).
Proof.
  induction fuel as [|fuel IH]; intros ds pcs ds' pcs' Hgood H; [done|].
  rewrite propagate_S in H.
  pose proof (propagate_pass_good fuel ds pcs) as Hg.
  destruct (propagate_pass _ _ _ _ _ _) as [[[[ds1 pcs1] [|]]|?]|?|] eqn:E;
    simpl in H; try done.
  - destruct (Hg ds1 pcs1 true Hgood eq_refl) as [Hg1 Hs1].
    destruct (IH _ _ _ _ Hg1 H) as (Hg' & Hs' & Hst).
    split_and!; [done| |done]. by eapply all_sub_trans.
  - simplify_eq. destruct (Hg ds' pcs' false Hgood eq_refl) as [Hg1 Hs1].
    split_and!; [done|done|].
    destruct (propagate_pass_go _ _ _ _ _ _ _ _ _ _ E) as (_ & _ & _ & _ & Heq).
    destruct (Heq eq_refl) as [-> ->]. eauto.
Qed.

Variable sigma : list Z.
Hypothesis Hsol : solution paths words_by_len n_cells sigma.

(** [propagate] does not fail on a state that has a solution inside, and
    keeps the solution inside. *)
Lemma propagate_fits : forall fuel ds pcs ok ds' pcs',
  good_state paths n_cells ds pcs -> fits sigma ds ->
  propagate paths index all_mask n_cells fuel (ds, pcs) = Val (ok, (ds', pcs')) ->
  ok = true /\ fits sigma ds'.
Proof.
  induction fuel as [|fuel IH]; intros ds pcs ok ds' pcs' Hgood Hfit H; [done|].
  rewrite propagate_S in H.
  pose proof (propagate_pass_good fuel ds pcs) as Hg.
  pose proof (propagate_pass_fits _ _ _ _ _ Hok Hpaths Hcells _ Hsol fuel ds pcs)
    as Hf.
  destruct (propagate_pass _ _ _ _ _ _) as [r| |] eqn:E; simpl in H; [|done..].
  destruct (Hf r Hgood Hfit eq_refl) as (ds1 & pcs1 & ch & -> & Hf1).
  destruct ch.
  - destruct (Hg ds1 pcs1 true Hgood eq_refl) as [Hg1 _]. by eapply IH.
  - by simplify_eq.
Qed.

End PropagateGood.

(** ** A stable state with one candidate per path is solved *)

Lemma land_nonzero_bit x y :
  0 <= x -> Z.land x y <> 0 ->
  exists i, 0 <= i /\ Z.testbit x i = true /\ Z.testbit y i = true.
Proof.
  intros Hx Hnz.
  assert (0 <= Z.land x y) as H0 by (apply Z.land_nonneg; by left).
  exists (Z.log2 (Z.land x y)). split; [apply Z.log2_nonneg|].
  apply andb_true_iff. rewrite <- Z.land_spec. apply Z.bit_log2. lia.
Qed.

Lemma single_bit_solved d :
  0 < d ->
  (forall a b, Z.testbit d a = true -> Z.testbit d b = true -> a = b) ->
  Z.land d (d - 1) = 0.
Proof.
  intros Hd Hone. pose proof (Z.log2_spec d Hd) as [Hlo Hhi].
  pose proof (Z.log2_nonneg d) as Hk.
  assert (d = 2 ^ Z.log2 d) as ->.
  { destruct (Z.eq_dec d (2 ^ Z.log2 d)) as [|Hne]; [done|exfalso].
    set (r := d - 2 ^ Z.log2 d). assert (0 < r) as Hr by (unfold r; lia).
    assert (r < 2 ^ Z.log2 d) as Hr2.
    { unfold r. rewrite Z.pow_succ_r in Hhi by done. lia. }
    assert (d mod 2 ^ Z.log2 d = r) as Hmod.
    { symmetry. apply (Z.mod_unique_pos _ _ 1); [lia|]. unfold r. lia. }
    assert (Z.log2 r < Z.log2 d) as Hlt by (apply Z.log2_lt_pow2; lia).
    assert (Z.testbit d (Z.log2 r) = true) as Hb.
    { rewrite <- (Z.mod_pow2_bits_low d (Z.log2 d)) by done.
      rewrite Hmod. by apply Z.bit_log2. }
    pose proof (Hone _ _ Hb (Z.bit_log2 d Hd)). lia. }
  change (2 ^ Z.log2 d - 1) with (Z.pred (2 ^ Z.log2 d)).
  rewrite <- Z.ones_equiv, Z.land_ones by done. apply Z.mod_same.
  assert (0 < 2 ^ Z.log2 d) by (by apply Z.pow_pos_nonneg). lia.
Qed.

Lemma set_bits_le1 c a b :
  0 <= c -> bitcount c <= 1 -> a ∈ set_bits c -> b ∈ set_bits c -> a = b.
Proof.
  intros Hc Hcnt Ha Hb. rewrite <- length_set_bits in Hcnt by done.
  destruct (set_bits c) as [|x [|y l]]; simpl in Hcnt; [|..].
  - by apply elem_of_nil in Ha.
  - apply list_elem_of_singleton in Ha, Hb. congruence.
  - lia.
Qed.

Lemma cell_bound_sub nd nd' cell mask :
  all_sub nd' nd -> cell_bound nd cell mask -> cell_bound nd' cell mask.
Proof.
  intros [Hlen Hsub] (v & Hv & Hvm). unfold cell_bound, py_index in *.
  rewrite (py_pos_length nd' nd) by done.
  destruct (py_pos nd cell) as [n|]; simpl in *; [|done].
  destruct (lookup_lt_is_Some_2 nd' n) as [v' Hv'].
  { rewrite Hlen. by eapply lookup_lt_Some. }
  exists v'. split; [done|]. destruct (Hsub _ _ Hv') as (d & Hd & Hvd).
  assert (d = v) as -> by congruence. by eapply bits_sub_trans.
Qed.

Lemma narrow_cell_step_bound cands idxL pos cell nd1 nd2 :
  narrow_cell_step cands idxL pos cell nd1 = Val (Go nd2) ->
  all_sub nd2 nd1 /\
  exists ip mask, idxL !! pos = Some ip
                  /\ possible_letters_at_pos cands ip = Val mask
                  /\ cell_bound nd2 cell mask.
Proof.
  intros H. split.
  { pose proof (narrow_cell_step_sub cands idxL nd1 pos cell nd1 (all_sub_refl _)) as Hs.
    by rewrite H in Hs. }
  unfold narrow_cell_step in H.
  apply bind_Val in H as (old & Hold%indexed_Val & H).
  apply bind_Val in H as (ip & Hip%indexed_Val & H).
  apply bind_Val in H as (mask & Hmask & H).
  apply bind_Val in H as (nd & Hnd%indexed_Val & H).
  destruct (_ =? 0); [done|]. simplify_eq.
  exists ip, mask. split_and!; [done..|].
  unfold py_store in Hnd. unfold cell_bound, py_index.
  destruct (py_pos nd1 cell) as [n|] eqn:Hn; simpl in Hnd; [|done].
  simplify_eq. unfold py_pos in *. rewrite length_insert, Hn. simpl.
  exists (Z.land old mask). split; [|apply bits_sub_land_r].
  apply list_lookup_insert_eq.
  unfold py_index, py_pos in Hold. rewrite Hn in Hold. simpl in Hold.
  by eapply lookup_lt_Some.
Qed.

Lemma narrow_cells_bound cands idxL cells nd0 nd :
  for_enum (narrow_cell_step cands idxL) 0%nat cells nd0 = Val (Go nd) ->
  all_sub nd nd0 /\
  forall pos cell, cells !! pos = Some cell ->
    exists ip mask, idxL !! pos = Some ip
                    /\ possible_letters_at_pos cands ip = Val mask
                    /\ cell_bound nd cell mask.
Proof.
  intros H.
  pose proof (for_enum_inv (narrow_cell_step cands idxL)
    (fun j nd1 => all_sub nd1 nd0 /\
       forall pos cell, (pos < j)%nat -> cells !! pos = Some cell ->
         exists ip mask, idxL !! pos = Some ip
                         /\ possible_letters_at_pos cands ip = Val mask
                         /\ cell_bound nd1 cell mask)
    (fun _ => True) cells 0%nat nd0) as Hinv.
  rewrite H in Hinv. cbn [Nat.add] in Hinv.
  destruct Hinv as [Hsub Hall].
  - intros j cell nd1 Hj [Hs1 Hb1].
    destruct (narrow_cell_step cands idxL j cell nd1) as [[nd2|?]| |] eqn:E;
      [|done..].
    apply narrow_cell_step_bound in E as (Hs2 & ip & mask & Hip & Hmask & Hcb).
    split; [by eapply all_sub_trans|].
    intros pos cell' Hpos Hcell'. destruct (decide (pos = j)) as [->|Hne].
    + assert (cell' = cell) as -> by congruence. eauto.
    + destruct (Hb1 pos cell') as (ip' & mask' & ? & ? & ?); [lia|done|].
      exists ip', mask'. split_and!; [done..|]. by eapply cell_bound_sub.
  - split; [apply all_sub_refl|]. intros; lia.
  - split; [done|]. intros pos cell Hpos. apply Hall; [|done].
    by eapply lookup_lt_Some.
Qed.

(** Second loop: what it leaves for a cell lies within the letters the
    candidates of any path through the cell have there. *)
Lemma narrow_paths_bound index pcs paths nd0 nd :
  for_enum (narrow_path_step index pcs) 0%nat paths nd0 = Val (Go nd) ->
  forall pid cells L pos cell,
    paths !! pid = Some (cells, L) -> cells !! pos = Some cell ->
    exists cands idxL ip mask,
      pcs !! pid = Some cands /\ index !! L = Some idxL /\ idxL !! pos = Some ip
      /\ possible_letters_at_pos cands ip = Val mask /\ cell_bound nd cell mask.
Proof.
  intros H.
  pose proof (for_enum_inv (narrow_path_step index pcs)
    (fun j nd1 =>
       forall pid cells L pos cell, (pid < j)%nat ->
         paths !! pid = Some (cells, L) -> cells !! pos = Some cell ->
         exists cands idxL ip mask,
           pcs !! pid = Some cands /\ index !! L = Some idxL
           /\ idxL !! pos = Some ip
           /\ possible_letters_at_pos cands ip = Val mask
           /\ cell_bound nd1 cell mask)
    (fun _ => True) paths 0%nat nd0) as Hinv.
  rewrite H in Hinv. cbn [Nat.add] in Hinv.
  intros pid cells L pos cell Hpid Hpos.
  refine (Hinv _ _ pid cells L pos cell _ Hpid Hpos).
  - clear. intros j [cells L] nd1 Hj Hb1. unfold narrow_path_step.
    destruct (pcs !! j) as [cands|] eqn:Hc; simpl; [|done].
    destruct (index !! L) as [idxL|] eqn:Hi; [|done].
    destruct (for_enum (narrow_cell_step cands idxL) 0 cells nd1)
      as [[nd2|?]| |] eqn:E; [|done..].
    apply narrow_cells_bound in E as [Hs2 Hb2].
    intros pid cells' L' pos cell Hlt Hpid Hpos.
    destruct (decide (pid = j)) as [->|Hne].
    + simplify_eq. destruct (Hb2 pos cell Hpos) as (ip & mask & ? & ? & ?).
      by exists cands, idxL, ip, mask.
    + destruct (Hb1 pid cells' L' pos cell) as (c' & i' & ip & mask & ? & ? & ? & ? & ?);
        [lia|done|done|].
      exists c', i', ip, mask. split_and!; [done..|]. by eapply cell_bound_sub.
  - intros; lia.
  - by eapply lookup_lt_Some.
Qed.

Section Stable.

Variable paths : list path.
Variable index : gmap nat (list (list Z)).
Variable all_mask : gmap nat Z.
Variable n_cells : Z.
Variable words_by_len : gmap nat (list word).
Hypothesis Hok : index_ok words_by_len index all_mask.
Hypothesis Hcov : covered paths n_cells.

(** The candidates of a path are word IDs of its list. *)
Lemma candidates_range fuel cells L ds c :
  compute_path_candidates index all_mask fuel cells L ds = Val c -> c <> 0 ->
  exists idxL words,
    index !! L = Some idxL /\ words_by_len !! L = Some words
    /\ tables_ok L words idxL /\ 0 < c < 2 ^ Z.of_nat (length words).
Proof.
  intros Hc Hnz. destruct (index !! L) as [idxL|] eqn:Hi.
  - destruct (index_ok_lookup _ _ _ _ _ Hok Hi) as (words & Hws & _ & Ham & Htab).
    destruct (compute_path_candidates_bits _ _ _ _ _ _ _ _ Hc Hi)
      as (am & Ham' & Hbits).
    exists idxL, words. split_and!; [done..| |].
    all: assert (bits_sub c am) as Hsub
      by (apply bits_sub_of_testbit; intros w Hw; by apply Hbits in Hw as [? _]).
    all: assert (am = Z.shiftl 1 (Z.of_nat (length words)) - 1) as -> by congruence.
    all: pose proof (all_mask_nonneg (length words)) as Hnn.
    all: apply bits_sub_range in Hsub; [|done].
    all: rewrite Z.shiftl_1_l in Hsub; lia.
  - rewrite compute_path_candidates_no_index in Hc by done. congruence.
Qed.

Lemma stable_single_solved fuel ds pcs :
  propagate_pass paths index all_mask n_cells fuel (ds, pcs)
  = Val (Go ((ds, pcs), false)) ->
  good_state paths n_cells ds pcs ->
  (forall i c, pcs !! i = Some c -> bitcount c <= 1) ->
  solved ds = true.
Proof.
  intros Hpass (Hlen & Hr & Hpcs) Hone. unfold solved. apply forallb_forall.
  intros d [i Hi]%list_elem_of_In%list_elem_of_lookup. apply Z.eqb_eq.
  assert (i < Z.to_nat n_cells)%nat as Hin by (rewrite <- Hlen; by eapply lookup_lt_Some).
  destruct (Hr i Hin) as (d' & Hd' & Hd0 & _).
  assert (d' = d) as -> by congruence.
  apply single_bit_solved; [done|].
  destruct (Hcov (Z.of_nat i)) as (cells & L & [pid Hpid]%list_elem_of_lookup
                                    & [pos Hpos]%list_elem_of_lookup); [lia|].
  destruct (propagate_pass_go _ _ _ _ _ _ _ _ _ _ Hpass)
    as ((_ & _ & Hupd & _) & (nd & Hnd & _ & Hnar) & _).
  destruct (Hupd pid cells L) as (c & Hc & Hnz & Hpc);
    [by eapply lookup_lt_Some|done|].
  destruct (candidates_range _ _ _ _ _ Hc Hnz)
    as (idxL & words & Hidx & Hws & [_ Htab] & Hc0 & Hcm).
  destruct (narrow_paths_bound _ _ _ _ _ Hnd pid cells L pos (Z.of_nat i) Hpid Hpos)
    as (c' & idxL' & ip & mask & Hc' & Hidx' & Hip & Hmask & v & Hv & Hvm).
  simplify_eq.
  destruct (Hnar i Hin) as (n & d' & Hn & Hd'' & _ & Hland).
  rewrite py_index_nonneg, Nat2Z.id in Hv by lia.
  assert (d' = d) as -> by congruence. assert (n = v) as -> by congruence.
  assert (bits_sub d mask) as Hdm.
  { eapply bits_sub_trans; [|done]. unfold bits_sub.
    rewrite Z.land_comm. congruence. }
  assert (forall a, Z.testbit d a = true ->
            exists (l : nat) b wid, a = Z.of_nat l /\ ip !! l = Some b
              /\ wid ∈ set_bits c /\ has_letter words pos l wid) as Hbit.
  { intros a Ha. apply (bits_sub_testbit _ _ _ Hdm) in Ha.
    apply (possible_letters_at_pos_spec _ _ _ Hmask) in Ha
      as (l & b & _ & -> & Hb & Hcb).
    apply land_nonzero_bit in Hcb as (wid & Hwid & Hcw & Hbw); [|lia].
    exists l, b, wid. split_and!; [done|done| |].
    - apply elem_of_set_bits; [lia|done].
    - destruct (Htab _ _ Hip) as [_ Hbits]. by apply (Hbits _ _ Hb). }
  intros a b Ha Hb.
  destruct (Hbit a Ha) as (la & ba & wa & -> & _ & Hwa & _ & wda & cha & ? & ? & ?).
  destruct (Hbit b Hb) as (lb & bb & wb & -> & _ & Hwb & _ & wdb & chb & ? & ? & ?).
  assert (wa = wb) as ->
    by (eapply (set_bits_le1 c); [lia|by eapply Hone|done|done]).
  simplify_eq. lia.
Qed.

End Stable.

(** ** Forcing a word onto a path *)

Lemma all_sub_weight n (l' l : list Z) :
  length l = n -> domains_in_range n l -> all_sub l' l ->
  l' = l \/ weigh (Z.max 0) l' < weigh (Z.max 0) l.
Proof.
  intros Hn Hr [Hlen Hsub].
  assert (forall i a b, l' !! i = Some a -> l !! i = Some b -> 0 <= a <= b /\ 0 < b)
    as Hle.
  { intros i a b Ha Hb. destruct (Hr i) as (d & Hd & Hd0).
    { rewrite <- Hn. by eapply lookup_lt_Some. }
    destruct (Hsub i a Ha) as (d' & Hd' & Hs). simplify_eq.
    apply bits_sub_range in Hs; lia. }
  destruct (decide (l' = l)) as [|Hne]; [by left|right].
  apply weigh_lt; [done| |].
  - intros i a b Ha Hb. destruct (Hle i a b Ha Hb). lia.
  - destruct (list_neq_lookup l' l Hne Hlen) as (i & a & b & Ha & Hb & Hab).
    exists i, a, b. split_and!; [done..|]. destruct (Hle i a b Ha Hb). lia.
Qed.

Lemma single_bit_range l : 0 <= l < 26 -> 0 < Z.shiftl 1 l <= ALL.
Proof.
  intros Hl. rewrite Z.shiftl_1_l, ALL_eq.
  assert (0 < 2 ^ l) by (apply Z.pow_pos_nonneg; lia).
  assert (2 ^ l < 2 ^ 26) by (apply Z.pow_lt_mono_r; lia). lia.
Qed.

Lemma testbit_single l i : 0 <= l -> Z.testbit (Z.shiftl 1 l) i = true <-> i = l.
Proof.
  intros Hl. rewrite Z.shiftl_1_l, Z.pow2_bits_eqb by lia.
  destruct (Z.eqb_spec l i); split; (done || lia).
Qed.

(** A domain inside a single letter is that letter. *)
Lemma bits_sub_single v l : 0 <= l -> 0 < v -> bits_sub v (Z.shiftl 1 l) -> v = Z.shiftl 1 l.
Proof.
  intros Hl Hv Hs. apply Z.bits_inj'. intros i Hi.
  destruct (Z.testbit v i) eqn:E.
  - symmetry. by eapply bits_sub_testbit.
  - destruct (Z.testbit (Z.shiftl 1 l) i) eqn:E'; [|done].
    apply testbit_single in E' as ->; [|done].
    assert (Z.testbit v (Z.log2 v) = true) as Hb by (by apply Z.bit_log2).
    pose proof Hb as Hb'.
    apply (bits_sub_testbit _ _ _ Hs), testbit_single in Hb'; [|done].
    congruence.
Qed.

(** The forcing loop on a word whose letters are in the alphabet: it
    raises nothing; when it runs to its end, every cell of the path holds
    the letter of the word there and no cell has gained a letter. *)
Lemma force_loop_run (n : nat) w : forall cells pos ds,
  (forall j cell, cells !! j = Some cell ->
     0 <= cell < Z.of_nat n
     /\ exists ch, w !! (pos + j)%nat = Some ch /\ 0 <= ch - 65 < 26) ->
  length ds = n -> domains_in_range n ds ->
  exists r, for_enum (force_step w) pos cells ds = Val r /\
    match r with
    | Go ds2 =>
        length ds2 = n /\ domains_in_range n ds2 /\ all_sub ds2 ds /\
        forall j cell ch, cells !! j = Some cell -> w !! (pos + j)%nat = Some ch ->
          ds2 !! Z.to_nat cell = Some (Z.shiftl 1 (ch - 65))
    | Stop _ => True
    end.
Proof.
  induction cells as [|cell cells IH]; intros pos ds Hw Hlen Hr; simpl.
  - eexists. split; [done|]. split_and!; [done|done|apply all_sub_refl|done].
  - destruct (Hw 0%nat cell eq_refl) as (Hc & ch & Hch & Hl).
    rewrite Nat.add_0_r in Hch.
    destruct (Hr (Z.to_nat cell)) as (old & Hold & Hold0); [lia|].
    assert (force_step w pos cell ds =
            if Z.land old (Z.shiftl 1 (ch - 65)) =? 0 then Val (Stop ds)
            else Val (Go (<[Z.to_nat cell := Z.shiftl 1 (ch - 65)]> ds))) as ->.
    { unfold force_step. rewrite Hch. simpl.
      destruct (Z.ltb_spec (ch - 65) 0); [lia|].
      rewrite py_index_nonneg by lia. rewrite Hold. simpl.
      destruct (_ =? 0); [done|].
      unfold py_store. by rewrite py_pos_nonneg by lia. }
    destruct (Z.eqb_spec (Z.land old (Z.shiftl 1 (ch - 65))) 0) as [|Hnz]; simpl;
      [by eexists; split|].
    set (ds1 := <[Z.to_nat cell := Z.shiftl 1 (ch - 65)]> ds).
    assert (bits_sub (Z.shiftl 1 (ch - 65)) old) as Hsub1.
    { apply bits_sub_of_testbit. intros i Hi.
      apply testbit_single in Hi as ->; [|lia].
      destruct (Z.testbit old (ch - 65)) eqn:E; [done|]. exfalso. apply Hnz.
      apply Z.bits_inj'. intros i Hi. rewrite Z.land_spec, Z.bits_0.
      destruct (Z.testbit (Z.shiftl 1 (ch - 65)) i) eqn:E';
        [|by rewrite andb_false_r].
      apply testbit_single in E' as ->; [|lia]. by rewrite E. }
    assert (all_sub ds1 ds) as Hs1.
    { unfold ds1. eapply all_sub_insert; [apply all_sub_refl|done..]. }
    destruct (IH (S pos) ds1) as (r & Hrun & Hres).
    { intros j c Hj. destruct (Hw (S j) c Hj) as (? & ch' & Hch' & ?).
      split; [done|]. exists ch'. split; [|done].
      by replace (S pos + j)%nat with (pos + S j)%nat by lia. }
    { unfold ds1. by rewrite length_insert. }
    { intros i Hi. unfold ds1. destruct (decide (i = Z.to_nat cell)) as [->|Hne].
      - rewrite list_lookup_insert_eq by lia. eexists. split; [done|].
        by apply single_bit_range.
      - rewrite list_lookup_insert_ne by done. by apply Hr. }
    exists r. split; [done|]. destruct r as [ds2|]; [|done].
    destruct Hres as (Hl2 & Hr2 & Hs2 & Hcells).
    split_and!; [done|done|by eapply all_sub_trans|].
    intros [|j] c ch' Hj Hch'; simpl in Hj.
    + simplify_eq. rewrite Nat.add_0_r in Hch'. simplify_eq.
      destruct (Hr2 (Z.to_nat c)) as (v & Hv & Hv0); [lia|].
      rewrite Hv. f_equal. apply bits_sub_single; [lia|lia|].
      destruct Hs2 as [_ Hs2]. destruct (Hs2 _ _ Hv) as (d & Hd & Hvd).
      unfold ds1 in Hd. rewrite list_lookup_insert_eq in Hd by lia. congruence.
    + apply (Hcells j c ch' Hj).
      by replace (S pos + j)%nat with (pos + S j)%nat by lia.
Qed.

(** Forcing the word a solution spells on the path meets no conflict and
    keeps the solution inside the domains. *)
Lemma force_loop_fits sigma w cells ds r :
  (forall j cell, cells !! j = Some cell ->
     0 <= cell /\ exists ch, w !! j = Some ch /\ sigma !! Z.to_nat cell = Some (ch - 65)) ->
  fits sigma ds ->
  for_enum (force_step w) 0%nat cells ds = Val r ->
  exists ds2, r = Go ds2 /\ fits sigma ds2.
Proof.
  intros Hw Hfit H.
  assert (forall j cell d1, cells !! j = Some cell -> fits sigma d1 ->
            match force_step w j cell d1 with
            | Val (Go d2) => fits sigma d2
            | Val (Stop _) => False
            | _ => True
            end) as Hstep.
  { intros j cell d1 Hj Hf1. unfold force_step.
    destruct (Hw j cell Hj) as (Hc & ch & Hch & Hs). rewrite Hch. simpl.
    destruct (Z.ltb_spec (ch - 65) 0); [done|].
    rewrite py_index_nonneg by lia.
    destruct (d1 !! Z.to_nat cell) as [old|] eqn:Hold; simpl; [|done].
    destruct (Hf1 _ _ Hold) as (l & Hl & Hbo).
    assert (l = ch - 65) as -> by congruence.
    assert (Z.testbit (Z.shiftl 1 (ch - 65)) (ch - 65) = true) as Hbm
      by (by apply testbit_single).
    pose proof (land_testbit_nonzero _ _ _ Hbo Hbm) as Hnz.
    destruct (Z.eqb_spec (Z.land old (Z.shiftl 1 (ch - 65))) 0); [done|].
    unfold py_store.
    rewrite py_pos_nonneg by (apply lookup_lt_Some in Hold; lia). simpl.
    intros i v Hv. destruct (decide (i = Z.to_nat cell)) as [->|Hne].
    - rewrite list_lookup_insert_eq in Hv by (by eapply lookup_lt_Some).
      simplify_eq. eauto.
    - rewrite list_lookup_insert_ne in Hv by done. by apply Hf1. }
  pose proof (for_enum_inv (force_step w) (fun _ d => fits sigma d) (fun _ => False)
    cells 0%nat ds (fun j x s Hj HI => Hstep j x s Hj HI) Hfit) as Hinv.
  rewrite H in Hinv. destruct r as [d2|?]; [eauto|done].
Qed.

Lemma set_bits_two c :
  0 <= c -> 1 < bitcount c ->
  exists a b, a ∈ set_bits c /\ b ∈ set_bits c /\ a <> b.
Proof.
  intros Hc Hcnt. rewrite <- length_set_bits in Hcnt by done.
  pose proof (set_bits_sorted c) as Hs.
  destruct (set_bits c) as [|x [|y l]]; simpl in Hcnt; [lia|lia|].
  exists x, y. split_and!; [left|right; left|].
  inversion Hs as [|? ? _ Hlt]; subst. inversion Hlt; subst. lia.
Qed.

(** ** The search finds a solution when there is one *)

Section Completeness.

Variable paths : list path.
Variable index : gmap nat (list (list Z)).
Variable all_mask : gmap nat Z.
Variable n_cells : Z.
Variable words_by_len : gmap nat (list word).
Variable bound : nat.
Hypothesis Hok : index_ok words_by_len index all_mask.
Hypothesis Hgrouped : grouped_by_length words_by_len.
Hypothesis Hpaths : paths_wf paths.
Hypothesis Hcells : cells_in_range paths n_cells.
Hypothesis Hdist : distinct_words words_by_len bound.

(** A candidate of a path is a word of its list whose letter at each
    position is in the domain of the cell there. *)
Lemma candidate_letters fuel cells L ds c wid :
  length ds = Z.to_nat n_cells -> domains_in_range (Z.to_nat n_cells) ds ->
  (cells, L) ∈ paths ->
  compute_path_candidates index all_mask fuel cells L ds = Val c ->
  Z.testbit c wid = true -> 0 <= wid ->
  exists idxL words w,
    index !! L = Some idxL /\ words_by_len !! L = Some words
    /\ 0 < c < 2 ^ Z.of_nat (length words)
    /\ words !! Z.to_nat wid = Some w
    /\ forall j cell, cells !! j = Some cell ->
         exists ch d, w !! j = Some ch /\ ds !! Z.to_nat cell = Some d
                      /\ 0 <= ch - 65 < 26 /\ Z.testbit d (ch - 65) = true.
Proof.
  intros Hlen Hr Hin Hc Hbit Hwid.
  pose proof (testbit_nonzero _ _ Hbit) as Hnz.
  destruct (candidates_range _ _ _ Hok _ _ _ _ _ Hc Hnz)
    as (idxL & words & Hi & Hws & [_ Htab] & Hc0).
  destruct (compute_path_candidates_bits _ _ _ _ _ _ _ _ Hc Hi) as (am & Ham & Hbits).
  destruct (index_ok_lookup _ _ _ _ _ Hok Hi) as (words' & Hws' & _ & Ham' & _).
  assert (words' = words) as -> by congruence.
  apply Hbits in Hbit as [Hbam Hsup].
  assert (am = Z.shiftl 1 (Z.of_nat (length words)) - 1) as -> by congruence.
  apply testbit_all_mask in Hbam.
  destruct (lookup_lt_is_Some_2 words (Z.to_nat wid)) as [w Hw]; [lia|].
  exists idxL, words, w. split; [done|]. split; [done|]. split; [done|]. split; [done|].
  intros j cell Hj.
  destruct (Hsup j cell Hj) as (d & ip & Hd & Hip & l & b & Hl & Hb & Hbw).
  assert (0 <= cell < n_cells) as Hcell by (by eapply path_cell).
  destruct (domain_at n_cells ds cell Hlen Hr Hcell) as (d' & _ & Hd' & Hpi & Hd0).
  assert (d' = d) as -> by congruence.
  apply elem_of_set_bits in Hl as [Hl0 Hdl]; [|lia].
  destruct (Htab j ip Hip) as [_ Hb2].
  apply (Hb2 _ _ Hb) in Hbw as (_ & w' & ch & Hw' & Hch & Hl').
  assert (w' = w) as -> by congruence.
  exists ch, d. rewrite Z2Nat.id in Hl' by done. rewrite Hl'.
  split_and!; [done|done| | |done]; apply (testbit_domain d l) in Hdl; lia.
Qed.

(** Forcing a candidate of a path that has more than one shrinks the
    domains: otherwise every candidate would be the same word. *)
Lemma forced_weight fuel cells L ds c wid w ds2 :
  length ds = Z.to_nat n_cells -> domains_in_range (Z.to_nat n_cells) ds ->
  (cells, L) ∈ paths ->
  compute_path_candidates index all_mask fuel cells L ds = Val c ->
  1 < bitcount c ->
  wid ∈ set_bits c ->
  default [] (words_by_len !! L) !! Z.to_nat wid = Some w ->
  all_sub ds2 ds ->
  (forall j cell ch, cells !! j = Some cell -> w !! j = Some ch ->
     ds2 !! Z.to_nat cell = Some (Z.shiftl 1 (ch - 65))) ->
  weigh (Z.max 0) ds2 < weigh (Z.max 0) ds.
Proof.
  intros Hlen Hr Hin Hc Hcnt Hwid Hw Hsub Hforced.
  destruct (all_sub_weight _ ds2 ds Hlen Hr Hsub) as [->|]; [exfalso|done].
  assert (c <> 0) as Hnz by (intros ->; simpl in Hcnt; lia).
  destruct (candidates_range _ _ _ Hok _ _ _ _ _ Hc Hnz)
    as (idxL & words & Hi & Hws & _ & Hc0).
  rewrite Hws in Hw. simpl in Hw.
  assert (forall a, a ∈ set_bits c -> a = wid) as Hall.
  { intros a Ha. apply elem_of_set_bits in Ha as [Ha0 Ha]; [|lia].
    apply elem_of_set_bits in Hwid as [Hwid0 Hwid]; [|lia].
    destruct (candidate_letters _ _ _ _ _ _ Hlen Hr Hin Hc Ha Ha0)
      as (idxL' & words' & wa & _ & Hws' & _ & Hwa & Hla).
    destruct (candidate_letters _ _ _ _ _ _ Hlen Hr Hin Hc Hwid Hwid0)
      as (idxL'' & words'' & w' & _ & Hws'' & _ & Hw' & Hlw).
    assert (words' = words) as -> by congruence.
    assert (words'' = words) as -> by congruence.
    assert (w' = w) as -> by congruence.
    assert (wa = w) as ->.
    { pose proof (Hgrouped _ _ Hws) as Hg. rewrite Forall_forall in Hg.
      pose proof (Hg wa ltac:(by eapply list_elem_of_lookup_2)) as Hlwa.
      pose proof (Hg w ltac:(by eapply list_elem_of_lookup_2)) as Hlw'.
      pose proof (path_length paths Hpaths cells L Hin) as HL.
      apply list_eq. intros j.
      destruct (cells !! j) as [cell|] eqn:Hj.
      - destruct (Hla j cell Hj) as (cha & da & Hcha & Hda & _ & Hba).
        destruct (Hlw j cell Hj) as (chw & dw & Hchw & Hdw & Hrw & _).
        rewrite (Hforced j cell chw Hj Hchw) in Hda. simplify_eq.
        apply testbit_single in Hba; [|lia]. rewrite Hcha, Hchw. f_equal. lia.
      - apply lookup_ge_None in Hj.
        rewrite (proj2 (lookup_ge_None wa j)) by lia.
        by rewrite (proj2 (lookup_ge_None w j)) by lia. }
    destruct (Hdist _ _ Hws) as [Hnd _].
    pose proof (NoDup_lookup _ _ _ _ Hnd Hwa Hw). lia. }
  destruct (set_bits_two c ltac:(lia) Hcnt) as (a & b & Ha & Hb & Hab).
  apply Hall in Ha, Hb. congruence.
Qed.

Section Branch.

Variable fuel : nat.
Variable W : Z.
Hypothesis Hrec : forall d2 pc2 (h2 : heap),
  (d2 < length h2)%nat -> (pc2 < length h2)%nat -> d2 <> pc2 ->
  good_state paths n_cells (deref h2 d2) (deref h2 pc2) ->
  weigh (Z.max 0) (deref h2 d2) < W ->
  finds_solution paths words_by_len n_cells bound (deref h2 d2)
    (solve paths index all_mask n_cells words_by_len fuel d2 pc2 h2).

Variable f0 : nat.
Variables ds pcs : list Z.
Variable pid : nat.
Variable cells : list Z.
Variable L : nat.
Variable c : Z.
Hypothesis Hstable :
  propagate_pass paths index all_mask n_cells f0 (ds, pcs)
  = Val (Go ((ds, pcs), false)).
Hypothesis Hgood : good_state paths n_cells ds pcs.
Hypothesis HW : weigh (Z.max 0) ds <= W.
Hypothesis Hpid : paths !! pid = Some (cells, L).
Hypothesis Hc : pcs !! pid = Some c.
Hypothesis Hcnt : 1 < bitcount c.

Lemma stable_candidates :
  compute_path_candidates index all_mask f0 cells L ds = Val c /\ 0 < c.
Proof.
  destruct (propagate_pass_go _ _ _ _ _ _ _ _ _ _ Hstable)
    as ((_ & _ & Hupd & _) & _).
  destruct (Hupd pid cells L) as (c' & Hc' & Hnz & Hpc);
    [by eapply lookup_lt_Some|done|].
  assert (c' = c) as -> by congruence. split; [done|].
  by destruct (candidates_range _ _ _ Hok _ _ _ _ _ Hc' Hnz) as (? & ? & ? & ? & ? & ? & ?).
Qed.

(** One turn of the loop over the candidates: it returns; when it goes
    on to the next candidate, the store is extended and no solution inside
    the domains spells this candidate on the path. *)
Lemma try_branch_complete d pc wid (hcur : heap) :
  (d < length hcur)%nat -> (pc < length hcur)%nat ->
  deref hcur d = ds -> deref hcur pc = pcs ->
  wid ∈ set_bits c ->
  exists r,
    try_branch (solve paths index all_mask n_cells words_by_len fuel)
      d pc pid cells (default [] (words_by_len !! L)) wid hcur = Val r /\
    match r with
    | Go h' =>
        heap_extends hcur h' /\
        (covered paths n_cells -> Z.of_nat bound < 10 ^ 9 ->
         forall sigma w, solution paths words_by_len n_cells sigma -> fits sigma ds ->
           default [] (words_by_len !! L) !! Z.to_nat wid = Some w ->
           reads sigma cells w -> False)
    | Stop _ => True
    end.
Proof.
  intros Hd Hpc Hds Hpcs Hwid.
  destruct stable_candidates as [Hcomp Hc0].
  destruct Hgood as (Hlen & Hr & Hlpcs).
  assert ((cells, L) ∈ paths) as Hin by (by eapply list_elem_of_lookup_2).
  pose proof Hwid as Hwid'.
  apply elem_of_set_bits in Hwid' as [Hwid0 Hbit]; [|lia].
  destruct (candidate_letters _ _ _ _ _ _ Hlen Hr Hin Hcomp Hbit Hwid0)
    as (idxL & words & w & Hi & Hws & _ & Hw & Hletters).
  pose proof (try_branch_frame
    (solve paths index all_mask n_cells words_by_len fuel) d pc pid cells
    (default [] (words_by_len !! L)) wid hcur
    (solve_frame paths index all_mask n_cells words_by_len fuel)) as Hframe.
  rewrite try_branch_unfold in *. rewrite Hws in *. simpl in *.
  destruct (Z.ltb_spec wid 0); [lia|]. rewrite Hw in *. simpl in *.
  rewrite Hds in *.
  destruct (force_loop_run (Z.to_nat n_cells) w cells 0%nat ds) as (rf & Hrun & Hres);
    [|done|done|].
  { intros j cell Hj. destruct (Hletters j cell Hj) as (ch & d0 & Hch & _ & Hl & _).
    pose proof (path_cell paths n_cells Hcells cells L j cell Hin Hj).
    split; [lia|]. by exists ch. }
  assert (forall sigma, solution paths words_by_len n_cells sigma -> fits sigma ds ->
            reads sigma cells w -> exists ds2, rf = Go ds2 /\ fits sigma ds2) as Hfits.
  { intros sigma Hsol Hfit Hreads.
    apply (force_loop_fits sigma w cells ds rf); [|done|done].
    intros j cell Hj.
    destruct (reads_letter _ _ _ Hcells _ Hsol cells L w j cell Hin Hreads Hj)
      as (ch & l & Hch & He & _ & Hsl & Hcell).
    split; [lia|]. exists ch. split; [done|]. by rewrite He. }
  rewrite Hrun in *. simpl in *. destruct rf as [ds2|dsx].
  - destruct Hres as (Hl2 & Hr2 & Hs2 & Hforced).
    set (hb := branch_heap hcur d pc pid wid ds2) in *.
    destruct (Hrec (length hcur) (S (length hcur)) hb)
      as (res & h' & Hsolve & Hcomplete).
    { unfold hb. rewrite branch_heap_length. lia. }
    { unfold hb. rewrite branch_heap_length. lia. }
    { lia. }
    { unfold hb. rewrite branch_heap_domains, branch_heap_cands by done.
      split_and!; [done|done|]. by rewrite length_insert, Hpcs. }
    { unfold hb. rewrite branch_heap_domains.
      eapply Z.lt_le_trans; [|exact HW].
      eapply (forced_weight f0 cells L ds c wid w); try done.
      by rewrite Hws. }
    rewrite Hsolve in *. simpl in *. destruct res as [res|]; [by eexists; split|].
    eexists. split; [done|]. split; [done|].
    intros Hcov Hb sigma w' Hsol Hfit Hw' Hreads. assert (w' = w) as -> by congruence.
    destruct (Hfits sigma Hsol Hfit Hreads) as (ds2' & [= <-] & Hf2).
    apply (Hcomplete Hcov Hb sigma Hsol); [|done].
    unfold hb. by rewrite branch_heap_domains.
  - eexists. split; [done|]. split; [done|].
    intros _ _ sigma w' Hsol Hfit Hw' Hreads. assert (w' = w) as -> by congruence.
    by destruct (Hfits sigma Hsol Hfit Hreads) as (ds2' & ? & _).
Qed.

(** The loop over the candidates: it returns; when it runs to its end,
    no solution inside the domains spells any of the candidates. *)
Lemma branches_complete d pc (h1 : heap) :
  (d < length h1)%nat -> (pc < length h1)%nat ->
  deref h1 d = ds -> deref h1 pc = pcs ->
  forall l (hcur : heap),
    (forall wid, wid ∈ l -> wid ∈ set_bits c) ->
    heap_extends h1 hcur ->
    exists r,
      for_each (try_branch (solve paths index all_mask n_cells words_by_len fuel)
                  d pc pid cells (default [] (words_by_len !! L))) l hcur = Val r /\
      match r with
      | Go h' =>
          heap_extends h1 h' /\
          (covered paths n_cells -> Z.of_nat bound < 10 ^ 9 ->
           forall sigma w wid, wid ∈ l ->
             solution paths words_by_len n_cells sigma -> fits sigma ds ->
             default [] (words_by_len !! L) !! Z.to_nat wid = Some w ->
             reads sigma cells w -> False)
      | Stop _ => True
      end.
Proof.
  intros Hd Hpc Hds Hpcs.
  induction l as [|wid l IH]; intros hcur Hl Hext; simpl.
  - eexists. split; [done|]. split; [done|].
    intros _ _ ? ? ? Hin. by apply elem_of_nil in Hin.
  - destruct Hext as [Hlen Hsame].
    destruct (try_branch_complete d pc wid hcur) as (r & Hrun & Hres);
      [lia|lia| | |apply Hl; left|].
    { unfold deref. rewrite Hsame by done. exact Hds. }
    { unfold deref. rewrite Hsame by done. exact Hpcs. }
    rewrite Hrun. simpl. destruct r as [h'|[res h']]; [|by eexists].
    destruct Hres as [Hext' Hnone].
    destruct (IH h') as (r & Hrun' & Hres').
    { intros wid' Hin. apply Hl. by right. }
    { eapply heap_extends_trans; [|done]. by split. }
    exists r. split; [done|]. destruct r as [h''|]; [|done].
    destruct Hres' as [Hext'' Hnone']. split; [done|].
    intros Hcov Hb sigma w wid' [->|Hin]%elem_of_cons;
      [by apply Hnone|by eapply Hnone'].
Qed.

End Branch.

(** One call of [solve], given what its recursive calls do on smaller
    domains. *)
Lemma solve_step (k : nat) fuel d pc (h : heap) :
  (forall d2 pc2 (h2 : heap),
     (d2 < length h2)%nat -> (pc2 < length h2)%nat -> d2 <> pc2 ->
     good_state paths n_cells (deref h2 d2) (deref h2 pc2) ->
     weigh (Z.max 0) (deref h2 d2) < weigh (Z.max 0) (deref h d) ->
     finds_solution paths words_by_len n_cells bound (deref h2 d2)
       (solve paths index all_mask n_cells words_by_len fuel d2 pc2 h2)) ->
  weigh (Z.max 0) (deref h d) <= Z.of_nat k ->
  (k + 29 <= fuel)%nat -> (bound < fuel)%nat ->
  (d < length h)%nat -> (pc < length h)%nat -> d <> pc ->
  good_state paths n_cells (deref h d) (deref h pc) ->
  finds_solution paths words_by_len n_cells bound (deref h d)
    (solve paths index all_mask n_cells words_by_len (S fuel) d pc h).
Proof.
  intros Hrec Hk Hfuel Hfb Hd Hpc Hne Hgood. rewrite solve_S.
  destruct (propagate_val _ _ _ _ _ Hok Hpaths Hcells k fuel _ _ Hgood Hk Hfuel)
    as (ok & ds & pcs & Hprop).
  rewrite Hprop. simpl.
  set (h1 := <[pc := pcs]> (<[d := ds]> h)).
  destruct ok; simpl.
  2:{ exists None, h1. split; [done|]. intros _ _ sigma Hsol Hfit.
      by destruct (propagate_fits _ _ _ _ _ Hok Hpaths Hcells _ Hsol
                     _ _ _ _ _ _ Hgood Hfit Hprop). }
  destruct (propagate_true_good paths index all_mask n_cells fuel _ _ _ _ Hgood Hprop)
    as (Hgood' & Hsub & f0 & Hstable).
  destruct (solved ds) eqn:Hsolved; [by exists (Some d), h1|].
  assert (forall i c, pcs !! i = Some c -> 0 <= c /\ bitcount c <= Z.of_nat bound)
    as Hsmall.
  { intros i c Hc.
    destruct (propagate_pass_go _ _ _ _ _ _ _ _ _ _ Hstable)
      as ((_ & _ & Hupd & _) & _).
    destruct Hgood' as (_ & _ & Hlp).
    destruct (lookup_lt_is_Some_2 paths i) as [[cells L] Hp].
    { rewrite <- Hlp. by eapply lookup_lt_Some. }
    destruct (Hupd i cells L) as (c' & Hc' & Hnz & Hpc');
      [by eapply lookup_lt_Some|done|].
    assert (c' = c) as -> by congruence.
    destruct (candidates_range _ _ _ Hok _ _ _ _ _ Hc' Hnz)
      as (idxL & words & Hi & Hws & _ & Hc0).
    split; [lia|]. rewrite <- length_set_bits by lia.
    pose proof (length_set_bits_bound c (Z.of_nat (length words)) ltac:(lia) ltac:(lia)).
    destruct (Hdist _ _ Hws) as [_ Hlb]. lia. }
  pose proof (choose_branch_path_spec pcs) as Hchoose.
  destruct (choose_branch_path pcs) as [pid|].
  2:{ exists None, h1. split; [done|]. intros Hcov Hb _ _ _ _.
      rewrite (stable_single_solved _ _ _ _ _ Hok Hcov f0 ds pcs) in Hsolved;
        [done|done|done|].
      intros i c Hc. destruct (Hsmall i c Hc) as [_ Hlt].
      destruct (Z.le_gt_cases (bitcount c) 1) as [|Hgt]; [done|].
      pose proof (Hchoose i c Hc ltac:(lia)). lia. }
  destruct Hchoose as (c & Hc & Hcnt & _).
  destruct (Hsmall pid c Hc) as [Hc0 Hclt].
  destruct (lookup_lt_is_Some_2 paths pid) as [[cells L] Hp].
  { destruct Hgood' as (_ & _ & <-). by eapply lookup_lt_Some. }
  rewrite Hp. simpl. rewrite Hc. simpl.
  assert (deref h1 d = ds) as Hds1.
  { unfold h1, deref. rewrite list_lookup_insert_ne by done.
    by rewrite list_lookup_insert_eq by done. }
  assert (deref h1 pc = pcs) as Hpcs1.
  { unfold h1, deref. by rewrite list_lookup_insert_eq by (by rewrite length_insert). }
  assert (length h1 = length h) as Hlh1 by (unfold h1; by rewrite !length_insert).
  assert (weigh (Z.max 0) ds <= weigh (Z.max 0) (deref h d)) as Hwle.
  { destruct Hgood as (Hl0 & Hr0 & _).
    destruct (all_sub_weight _ ds (deref h d) Hl0 Hr0 Hsub) as [->|]; lia. }
  rewrite for_bits_set_bits; [|done|].
  2:{ destruct (propagate_pass_go _ _ _ _ _ _ _ _ _ _ Hstable)
        as ((_ & _ & Hupd & _) & _).
      destruct (Hupd pid cells L) as (c' & Hc' & Hnz & Hpc');
        [by eapply lookup_lt_Some|done|].
      assert (c' = c) as -> by congruence.
      destruct (candidates_range _ _ _ Hok _ _ _ _ _ Hc' Hnz)
        as (idxL & words & Hi & Hws & _ & Hcr).
      pose proof (length_set_bits_bound c (Z.of_nat (length words))
                    ltac:(lia) ltac:(lia)).
      destruct (Hdist _ _ Hws) as [_ Hlb]. lia. }
  destruct (branches_complete fuel (weigh (Z.max 0) (deref h d)) Hrec
              f0 ds pcs pid cells L c Hstable Hgood' Hwle Hp Hc Hcnt
              d pc h1 ltac:(lia) ltac:(lia) Hds1 Hpcs1
              (set_bits c) h1 ltac:(done) (heap_extends_refl _))
    as (r & Hrun & Hres).
  rewrite Hrun. simpl. destruct r as [h2|[res h2]]; [|by exists (Some res), h2].
  exists None, h2. split; [done|]. intros Hcov Hb sigma Hsol Hfit _.
  destruct Hres as [_ Hnone].
  destruct (propagate_fits _ _ _ _ _ Hok Hpaths Hcells _ Hsol
              _ _ _ _ _ _ Hgood Hfit Hprop) as [_ Hfit'].
  destruct Hgood' as (Hl' & Hr' & _).
  destruct (stable_candidates f0 ds pcs pid cells L c Hstable Hp Hc) as [Hcomp _].
  destruct (solution_candidate _ _ _ _ _ Hok Hpaths Hcells _ Hsol
              f0 ds cells L c Hl' Hr' Hfit'
              ltac:(by eapply list_elem_of_lookup_2) Hcomp)
    as (idxL & words & wid & w & Hi & Hws & Htab & Hw & Hreads & Hbit).
  apply (Hnone Hcov Hb sigma w (Z.of_nat wid)); [|done|done| |done].
  - apply elem_of_set_bits; [done|]. split; [lia|done].
  - by rewrite Hws, Nat2Z.id.
Qed.

(** [solve] returns from every good state, and returns a list when a
    solution lies inside the domains. *)
Lemma solve_complete : forall (k : nat) fuel d pc (h : heap),
  (k + bound + 30 <= fuel)%nat ->
  (d < length h)%nat -> (pc < length h)%nat -> d <> pc ->
  good_state paths n_cells (deref h d) (deref h pc) ->
  weigh (Z.max 0) (deref h d) <= Z.of_nat k ->
  finds_solution paths words_by_len n_cells bound (deref h d)
    (solve paths index all_mask n_cells words_by_len fuel d pc h).
Proof.
  induction k as [k IH] using lt_wf_ind.
  intros fuel d pc h Hfuel Hd Hpc Hne Hgood Hk.
  destruct fuel as [|fuel]; [lia|].
  apply (solve_step k); [|done|lia|lia|done..].
  intros d2 pc2 h2 Hd2 Hpc2 Hne2 Hgood2 Hlt.
  pose proof (weigh_nonneg (Z.max 0) (deref h2 d2) ltac:(lia)) as H0.
  assert (exists m : nat, weigh (Z.max 0) (deref h2 d2) <= Z.of_nat m /\ (m < k)%nat)
    as (m & Hm & Hmk).
  { revert Hlt Hk H0. generalize (weigh (Z.max 0) (deref h d)).
    generalize (weigh (Z.max 0) (deref h2 d2)). intros a b Hlt Hk H0.
    exists (Z.to_nat a). lia. }
  apply (IH m); [done|lia|done..].
Qed.

End Completeness.

Lemma weigh_replicate f (n : nat) x : weigh f (replicate n x) = Z.of_nat n * f x.
Proof. induction n as [|n IH]; simpl; [done|]. rewrite IH. lia. Qed.

(** C2 as stated fails: on a 2 x 2 grid whose cell 2 lies on no path, the
    letters A, T, A, O make both paths spell a word, yet [solve] returns
    [None]: cell 2 keeps all its letters, no path has two candidates left,
    and [choose_branch_path] finds nothing to branch on. *)
Lemma solve_incomplete_counterexample :
  build_index at_to = Val (at_to_index, at_to_mask) /\
  solution corner at_to 4 [0; 19; 0; 14] /\
  solve corner at_to_index at_to_mask 4 at_to 40 0 1
    (initial_store corner at_to_mask 4)
  = Val (None, [[1; 524288; ALL; 16384]; [1; 2]]).
Proof.
  split_and!; [by vm_compute| |by vm_compute].
  split_and!; [done|repeat constructor; lia|].
  intros cells L Hin.
  apply elem_of_cons in Hin as [[= -> ->]|Hin].
  { exists (codepoints "AT"). split; [left|repeat constructor]. }
  apply elem_of_cons in Hin as [[= -> ->]|Hin].
  { exists (codepoints "TO"). split; [right; left|repeat constructor]. }
  by apply elem_of_nil in Hin.
Qed.

(** C2 (amended): completeness of the search.  For a dictionary whose
    word lists hold no word twice and at most [bound] < 10^9 words each,
    and paths that carry their own length, stay on the grid and together
    pass through every cell: when some assignment of a letter A-Z to every
    cell makes every path spell a word of the list for its length, [solve],
    started from full domains and all-words candidate sets with enough
    fuel, returns a list, and that list is a valid board. *)
Theorem solve_completeness paths words_by_len index all_mask n_cells bound
    sigma fuel :
  build_index words_by_len = Val (index, all_mask) ->
  grouped_by_length words_by_len ->
  paths_wf paths ->
  cells_in_range paths n_cells ->
  covered paths n_cells ->
  distinct_words words_by_len bound ->
  Z.of_nat bound < 10 ^ 9 ->
  solution paths words_by_len n_cells sigma ->
  (solve_fuel n_cells bound <= fuel)%nat ->
  exists res h',
    solve paths index all_mask n_cells words_by_len fuel 0 1
      (initial_store paths all_mask n_cells) = Val (Some res, h')
    /\ board_sound paths words_by_len n_cells (deref h' res).
Proof.
  intros Hbuild Hgrouped Hpaths Hcells Hcov Hdist Hbound Hsol Hfuel.
  pose proof (build_index_ok _ _ _ Hbuild) as Hok.
  assert (0 < ALL) as HALL by done.
  destruct (solve_complete paths index all_mask n_cells words_by_len bound
              Hok Hgrouped Hpaths Hcells Hdist
              (Z.to_nat (ALL * n_cells)) fuel 0%nat 1%nat
              (initial_store paths all_mask n_cells))
    as (res & h' & Hrun & Hsome).
  - unfold solve_fuel in Hfuel. lia.
  - simpl. lia.
  - simpl. lia.
  - done.
  - unfold initial_store, deref. simpl. split_and!.
    + by rewrite length_replicate.
    + intros i Hi. exists ALL. split; [|lia]. by apply lookup_replicate.
    + by rewrite length_map.
  - unfold initial_store, deref. simpl. rewrite weigh_replicate.
    rewrite Z.max_r by lia. generalize dependent ALL. intros. nia.
  - destruct res as [res|].
    + exists res, h'. split; [done|].
      apply (solve_sound paths index all_mask n_cells words_by_len Hok Hgrouped Hpaths
               fuel 0%nat 1%nat (initial_store paths all_mask n_cells) res h');
        [simpl; lia|simpl; lia|done| |done].
      unfold initial_store, deref. simpl. by rewrite length_replicate.
    + exfalso. apply (Hsome Hcov Hbound sigma Hsol); [|done].
      unfold initial_store, deref. simpl.
      intros i d [-> Hi]%lookup_replicate.
      destruct Hsol as (Hsl & Hsr & _).
      destruct (lookup_lt_is_Some_2 sigma i) as [l Hl]; [lia|].
      exists l. split; [done|]. apply testbit_ALL.
      rewrite Forall_forall in Hsr. apply Hsr. by eapply list_elem_of_lookup_2.
Qed.

Lemma solve_completeness_witness :
  exists res h',
    solve square at_to_so_index at_to_so_mask 4 at_to_so (solve_fuel 4 3) 0 1
      (initial_store square at_to_so_mask 4) = Val (Some res, h')
    /\ board_sound square at_to_so 4 (deref h' res).
Proof.
  apply (solve_completeness square at_to_so at_to_so_index at_to_so_mask 4 3
           [0; 19; 18; 14] (solve_fuel 4 3)).
  - vm_compute. reflexivity.
  - apply singleton_grouped. repeat constructor.
  - repeat constructor.
  - intros cells L Hin.
    repeat (apply elem_of_cons in Hin as [[= -> ->]|Hin];
            [repeat constructor; lia|]).
    by apply elem_of_nil in Hin.
  - intros i Hi.
    assert (i = 0 \/ i = 1 \/ i = 2 \/ i = 3) as [-> | [-> | [-> | ->]]] by lia.
    + exists [0; 1], 2%nat. split; [left|left].
    + exists [0; 1], 2%nat. split; [left|right; left].
    + exists [2; 3], 2%nat. split; [right; right; left|left].
    + exists [2; 3], 2%nat. split; [right; right; left|right; left].
  - intros L ws Hl. unfold at_to_so in Hl.
    apply lookup_singleton_Some in Hl as [<- <-]. split; [|simpl; lia].
    apply NoDup_cons. split; [intros Hin|apply NoDup_cons; split;
      [intros Hin|apply NoDup_singleton]].
    + repeat (apply elem_of_cons in Hin as [[=]|Hin]). by apply elem_of_nil in Hin.
    + repeat (apply elem_of_cons in Hin as [[=]|Hin]). by apply elem_of_nil in Hin.
  - lia.
  - split_and!; [done|repeat constructor; lia|].
    intros cells L Hin.
    apply elem_of_cons in Hin as [[= -> ->]|Hin].
    { exists (codepoints "AT"). split; [left|repeat constructor]. }
    apply elem_of_cons in Hin as [[= -> ->]|Hin].
    { exists (codepoints "TO"). split; [right; left|repeat constructor]. }
    apply elem_of_cons in Hin as [[= -> ->]|Hin].
    { exists (codepoints "SO"). split; [right; right; left|repeat constructor]. }
    by apply elem_of_nil in Hin.
  - apply le_n.
Defined.

(** * Further properties of the code *)

(** ** The bit loops *)

(** The table lookups of [allowed_words_for_pos] over a list of letters
    one of which is not in the table. *)
Lemma allowed_words_out_of_table index_pos (l : list Z) : forall acc,
  Forall (fun i => 0 <= i) l ->
  (exists i, i ∈ l /\ Z.of_nat (length index_pos) <= i) ->
  for_each (fun letter out =>
              b ← indexed (py_index index_pos letter);
              Val (Go (R := Z) (Z.lor out b))) l acc = Exc IndexError.
Proof.
  induction l as [|x l IH]; intros acc Hpos (i & Hi & Hlen).
  - by apply elem_of_nil in Hi.
  - apply Forall_cons in Hpos as [Hx Hpos]. simpl.
    rewrite py_index_nonneg by done.
    destruct (index_pos !! Z.to_nat x) as [b|] eqn:Hb; simpl; [|done].
    apply IH; [done|]. exists i. split; [|done].
    apply elem_of_cons in Hi as [->|Hi]; [|done].
    apply lookup_lt_Some in Hb. lia.
Qed.

Lemma letters_from_short cands index_pos : forall letters mask,
  (exists l, l ∈ letters /\ (length index_pos <= l)%nat) ->
  letters_from cands index_pos letters mask = Exc IndexError.
Proof.
  induction letters as [|x letters IH]; intros mask (l & Hl & Hlen).
  - by apply elem_of_nil in Hl.
  - simpl. destruct (index_pos !! x) as [b|] eqn:Hb; simpl; [|done].
    apply IH. exists l. split; [|done].
    apply elem_of_cons in Hl as [->|Hl]; [|done].
    apply lookup_lt_Some in Hb. lia.
Qed.

(** X1: [iter_bits] on a non-negative integer.  With more turns than [x]
    has 1-bits, the loop of [iter_bits] runs its body once for each index
    of a 1-bit of [x], in increasing order, and [bitcount x] is the number
    of indices it yields. *)
Theorem iter_bits_yields_set_bits {S R} (body : Z -> S -> outcome (flow S R))
    x fuel s :
  0 <= x -> bitcount x < Z.of_nat fuel ->
  exists l,
    for_bits fuel body x s = for_each body l s
    /\ StronglySorted Z.lt l
    /\ (forall j, j ∈ l <-> 0 <= j /\ Z.testbit x j = true)
    /\ Z.of_nat (length l) = bitcount x.
Proof.
  intros Hx Hfuel. exists (set_bits x).
  pose proof (length_set_bits x Hx) as Hlen. split_and!.
  - apply for_bits_set_bits; [done|lia].
  - apply set_bits_sorted.
  - intros j. by apply elem_of_set_bits.
  - done.
Qed.

Lemma iter_bits_yields_set_bits_witness :
  exists l,
    for_bits 3 (fun i (s : list Z) => Val (Go (R := unit) (s ++ [i]))) 6 []
    = for_each (fun i (s : list Z) => Val (Go (R := unit) (s ++ [i]))) l []
    /\ StronglySorted Z.lt l
    /\ (forall j, j ∈ l <-> 0 <= j /\ Z.testbit 6 j = true)
    /\ Z.of_nat (length l) = bitcount 6.
Proof. apply iter_bits_yields_set_bits; [lia|simpl; lia]. Defined.

(** X2: [iter_bits] on a negative integer never ends.  [x & -x] clears
    the lowest 1-bit and a negative integer has infinitely many: whatever
    the number of turns allowed, a loop whose body always goes on is still
    running. *)
Theorem iter_bits_negative_never_ends {S R} (body : Z -> S -> outcome (flow S R))
    fuel x s :
  x < 0 ->
  (forall i s0, exists s1, body i s0 = Val (Go s1)) ->
  for_bits fuel body x s = OutOfFuel.
Proof.
  intros Hx Hbody. revert x s Hx.
  induction fuel as [|fuel IH]; intros x s Hx; [done|].
  simpl. destruct (Z.eqb_spec x 0); [lia|].
  destruct (Hbody (bit_length (Z.land x (- x)) - 1) s) as [s1 ->]. simpl.
  apply IH.
  assert (0 <= Z.land x (- x)) by (apply Z.land_nonneg; lia).
  destruct (Z.lt_ge_cases (Z.lxor x (Z.land x (- x))) 0) as [|Hge]; [done|].
  apply Z.lxor_nonneg in Hge. lia.
Qed.

Lemma iter_bits_negative_never_ends_witness :
  for_bits 50 (fun i (s : Z) => Val (Go (R := unit) (s + i))) (-1) 0 = OutOfFuel.
Proof.
  apply iter_bits_negative_never_ends; [lia|]. intros i s0. by eexists.
Defined.

(** X3: [allowed_words_for_pos] on a letter table of 26 entries and a
    domain over the alphabet returns the union of the word sets of the
    letters of the domain: word [w] is in the result exactly when some
    letter of the domain has [w] in its entry. *)
Theorem allowed_words_for_pos_union fuel index_pos m :
  0 <= m <= ALL -> length index_pos = 26%nat -> (26 < fuel)%nat ->
  exists aw,
    allowed_words_for_pos fuel index_pos m = Val aw /\
    forall w, Z.testbit aw w = true <->
      exists l b, 0 <= l < 26 /\ Z.testbit m l = true
                  /\ index_pos !! Z.to_nat l = Some b /\ Z.testbit b w = true.
Proof.
  intros Hm Hlen Hfuel.
  destruct (allowed_words_for_pos_safe fuel index_pos m Hm Hlen Hfuel) as [aw Haw].
  exists aw. split; [done|].
  destruct (allowed_words_for_pos_val _ _ _ _ Haw) as [_ Hbits].
  intros w. rewrite Hbits. unfold in_allowed. split.
  - intros (l & b & Hl & Hb & Hw). apply elem_of_set_bits in Hl as [Hl0 Hl]; [|lia].
    exists l, b. split_and!; [lia|by eapply testbit_domain|done..].
  - intros (l & b & Hl & Hml & Hb & Hw). exists l, b. split_and!; [|done..].
    apply elem_of_set_bits; [lia|]. split; [lia|done].
Qed.

Lemma allowed_words_for_pos_union_witness :
  exists aw,
    allowed_words_for_pos 27 (replicate 26 5) 3 = Val aw /\
    forall w, Z.testbit aw w = true <->
      exists l b, 0 <= l < 26 /\ Z.testbit 3 l = true
                  /\ replicate 26 5 !! Z.to_nat l = Some b /\ Z.testbit b w = true.
Proof.
  apply allowed_words_for_pos_union; [|reflexivity|lia].
  split; [lia|]. vm_compute. discriminate.
Defined.

(** X4: a domain with a 1-bit at or beyond the length of the letter
    table makes [allowed_words_for_pos] raise [IndexError]
    ([index_pos[letter]]), whatever the bits below it. *)
Theorem allowed_words_for_pos_out_of_table fuel index_pos m l :
  0 <= m -> Z.testbit m l = true -> Z.of_nat (length index_pos) <= l ->
  bitcount m < Z.of_nat fuel ->
  allowed_words_for_pos fuel index_pos m = Exc IndexError.
Proof.
  intros Hm Hl Hlen Hfuel. unfold allowed_words_for_pos.
  rewrite for_bits_set_bits; [|done|rewrite <- length_set_bits in Hfuel by done; lia].
  rewrite allowed_words_out_of_table; [done| |].
  - apply Forall_forall. intros i Hi. by apply elem_of_set_bits in Hi as [? _].
  - exists l. split; [|done]. apply elem_of_set_bits; [done|]. split; [lia|done].
Qed.

Lemma allowed_words_for_pos_out_of_table_witness :
  allowed_words_for_pos 5 [1; 2] 6 = Exc IndexError.
Proof.
  apply (allowed_words_for_pos_out_of_table 5 [1; 2] 6 2);
    [lia|reflexivity|simpl; lia|simpl; lia].
Defined.

(** X5: [possible_letters_at_pos] on a letter table of 26 entries
    returns a domain over the alphabet whose letters are exactly those
    with a candidate word in their entry. *)
Theorem possible_letters_at_pos_letters cands index_pos :
  length index_pos = 26%nat ->
  exists mask,
    possible_letters_at_pos cands index_pos = Val mask /\
    0 <= mask <= ALL /\
    forall i, Z.testbit mask i = true <->
      exists (l : nat) b, (l < 26)%nat /\ i = Z.of_nat l /\ index_pos !! l = Some b
                          /\ Z.land cands b <> 0.
Proof.
  intros Hlen. destruct (possible_letters_at_pos_safe cands index_pos Hlen)
    as [mask Hmask].
  exists mask. split; [done|].
  pose proof (possible_letters_at_pos_spec _ _ _ Hmask) as Hbits.
  split; [|done]. apply bits_sub_range; [done|].
  apply bits_sub_of_testbit. intros w Hw.
  apply Hbits in Hw as (l & b & Hl & -> & _). apply testbit_ALL. lia.
Qed.

Lemma possible_letters_at_pos_letters_witness :
  exists mask,
    possible_letters_at_pos 2 (replicate 26 3) = Val mask /\
    0 <= mask <= ALL /\
    forall i, Z.testbit mask i = true <->
      exists (l : nat) b, (l < 26)%nat /\ i = Z.of_nat l
                          /\ replicate 26 3 !! l = Some b /\ Z.land 2 b <> 0.
Proof. apply possible_letters_at_pos_letters. reflexivity. Defined.

(** X6: a letter table with fewer than 26 entries makes
    [possible_letters_at_pos] raise [IndexError]: the loop reads
    [index_pos[letter]] for every letter of the alphabet. *)
Theorem possible_letters_at_pos_short_table cands index_pos :
  (length index_pos < 26)%nat ->
  possible_letters_at_pos cands index_pos = Exc IndexError.
Proof.
  intros Hlen. unfold possible_letters_at_pos. apply letters_from_short.
  exists (length index_pos). split; [|lia]. apply elem_of_seq. lia.
Qed.

Lemma possible_letters_at_pos_short_table_witness :
  possible_letters_at_pos 1 [1; 1] = Exc IndexError.
Proof. apply possible_letters_at_pos_short_table. simpl. lia. Defined.

(** ** The dictionary and its index *)

Lemma letter_bits_at_total words pos :
  Forall (fun w : word => (pos < length w)%nat) words ->
  exists lb, letter_bits_at words pos = Val lb.
Proof.
  intros Hw. unfold letter_bits_at.
  assert (forall ws i0 lb0, Forall (fun w : word => (pos < length w)%nat) ws ->
            exists lb, for_enum (letter_bits_step pos) i0 ws lb0 = Val (Go lb)) as H.
  { induction ws as [|w ws IH]; intros i0 lb0 Hws; simpl; [eauto|].
    apply Forall_cons in Hws as [Hlen Hws].
    assert (exists lb1, letter_bits_step pos i0 w lb0 = Val (Go lb1)) as [lb1 ->].
    { unfold letter_bits_step.
      destruct (lookup_lt_is_Some_2 w pos Hlen) as [ch ->]. simpl.
      destruct (_ && _); eauto. }
    simpl. by apply IH. }
  destruct (H words 0%nat (replicate 26 0) Hw) as [lb ->]. simpl. eauto.
Qed.

Lemma pos_tables_from_total words : forall positions,
  Forall (fun pos => Forall (fun w : word => (pos < length w)%nat) words) positions ->
  exists tables, pos_tables_from words positions = Val tables.
Proof.
  induction positions as [|pos positions IH]; intros Hp; simpl; [eauto|].
  apply Forall_cons in Hp as [Hpos Hp].
  destruct (letter_bits_at_total words pos Hpos) as [lb ->]. simpl.
  destruct (IH Hp) as [tables ->]. simpl. eauto.
Qed.

(** [build_index] raises nothing on a dictionary grouped by length. *)
Lemma build_index_total words_by_len :
  grouped_by_length words_by_len ->
  exists index all_mask, build_index words_by_len = Val (index, all_mask).
Proof.
  unfold build_index.
  apply (map_fold_weak_ind
    (fun acc m => grouped_by_length m -> exists index all_mask, acc = Val (index, all_mask))).
  - eauto.
  - intros L words m acc Hm IH Hg.
    destruct IH as (index & all_mask & ->).
    { intros L' ws Hl. apply (Hg L' ws). rewrite lookup_insert_ne; [done|].
      intros ->. congruence. }
    unfold build_index_step. simpl.
    destruct (length words =? 0)%nat; [eauto|].
    destruct (pos_tables_from_total words (seq 0 L)) as [tables ->]; [|simpl; eauto].
    apply Forall_forall. intros pos Hpos%elem_of_seq.
    pose proof (Hg L words (lookup_insert_eq _ _ _)) as Hw.
    eapply Forall_impl; [exact Hw|]. simpl. intros w ->. lia.
Qed.

(** Every list of [load_dictionary] is nonempty and sits at a length
    between 1 and [max_len]. *)
Lemma load_dictionary_nonempty str_strip str_isalpha str_upper max_len lines :
  forall L ws,
    load_dictionary str_strip str_isalpha str_upper max_len lines !! L = Some ws ->
    ws <> [] /\ (1 <= L <= max_len)%nat.
Proof.
  unfold load_dictionary.
  assert (forall (m : gmap nat (list word)),
    (forall L ws, m !! L = Some ws -> ws <> [] /\ (1 <= L <= max_len)%nat) ->
    forall L ws,
      fold_left (load_line str_strip str_isalpha str_upper max_len) lines m !! L
      = Some ws -> ws <> [] /\ (1 <= L <= max_len)%nat) as H.
  { induction lines as [|line lines IH]; intros m Hm; simpl; [done|].
    apply IH. unfold load_line.
    destruct (_ || _); [done|].
    destruct (Nat.leb_spec 1 (length (str_upper (str_strip line)))); simpl; [|done].
    destruct (Nat.leb_spec (length (str_upper (str_strip line))) max_len);
      simpl; [|done].
    intros L ws. unfold dict_append.
    destruct (decide (L = length (str_upper (str_strip line)))) as [->|Hne].
    - rewrite lookup_insert_eq. intros [= <-]. split; [|lia].
      by destruct (default [] _).
    - rewrite lookup_insert_ne by done. apply Hm. }
  apply H. intros L ws. by rewrite lookup_empty.
Qed.

(** X7: what [load_dictionary] returns.  Every key is a length between 1
    and [max_len], its list is not empty, and every word of the list has
    that length: the [if m == 0: continue] of [build_index] never fires on
    it, and [w[pos]] is defined for every [pos] in [range(L)]. *)
Theorem load_dictionary_keys str_strip str_isalpha str_upper max_len lines L ws :
  load_dictionary str_strip str_isalpha str_upper max_len lines !! L = Some ws ->
  ws <> [] /\ (1 <= L <= max_len)%nat /\ Forall (fun w => length w = L) ws.
Proof.
  intros H.
  destruct (load_dictionary_nonempty _ _ _ _ _ _ _ H) as [Hne HL].
  split_and!; [done|lia|lia|].
  by apply (load_dictionary_grouped str_strip str_isalpha str_upper max_len lines L).
Qed.

Lemma load_dictionary_keys_witness :
  [codepoints "CAT"; codepoints "DOG"; codepoints "CAT"; codepoints "CAT"] <> []
  /\ (1 <= 3 <= 3)%nat
  /\ Forall (fun w => length w = 3%nat)
       [codepoints "CAT"; codepoints "DOG"; codepoints "CAT"; codepoints "CAT"].
Proof.
  apply (load_dictionary_keys latin_strip latin_isalpha latin_upper 3 cat_lines).
  vm_compute. reflexivity.
Defined.

(** X8: [build_index] after [load_dictionary] raises nothing, whatever
    the lines of the file.  For every length [L], with [ws] the accepted
    words of that length in file order: when there is none, [L] is a key of
    neither [index] nor [all_mask]; otherwise [all_mask[L]] is
    [2^len(ws) - 1] and [index[L]] holds [L] tables of 26 entries. *)
Theorem build_index_of_dictionary str_strip str_isalpha str_upper max_len lines :
  exists index all_mask,
    build_index (load_dictionary str_strip str_isalpha str_upper max_len lines)
    = Val (index, all_mask) /\
    forall L,
      let ws := filter (fun w => length w = L)
                  (omap (accepted str_strip str_isalpha str_upper max_len) lines) in
      match ws with
      | [] => index !! L = None /\ all_mask !! L = None
      | _ :: _ =>
          all_mask !! L = Some (2 ^ Z.of_nat (length ws) - 1) /\
          exists tables,
            index !! L = Some tables /\ length tables = L
            /\ Forall (fun lb => length lb = 26%nat) tables
      end.
Proof.
  destruct (build_index_total
              (load_dictionary str_strip str_isalpha str_upper max_len lines))
    as (index & all_mask & Hbuild).
  { apply load_dictionary_grouped. }
  exists index, all_mask. split; [done|]. intros L. cbv zeta.
  rewrite <- (load_dictionary_lookup str_strip str_isalpha str_upper max_len lines L).
  pose proof (build_index_ok _ _ _ Hbuild L) as Hok.
  destruct (load_dictionary str_strip str_isalpha str_upper max_len lines !! L)
    as [[|w ws0]|] eqn:Hws; simpl; [done| |done].
  destruct Hok as (tables & Hi & Ham & [Hlen Htab]).
  rewrite Z.shiftl_1_l in Ham. split; [done|].
  exists tables. split_and!; [done|done|].
  apply Forall_forall. intros lb [pos Hpos]%list_elem_of_lookup.
  by destruct (Htab pos lb Hpos).
Qed.

(** ** Candidates and propagation *)

Lemma set_bits_elem x l : l ∈ set_bits x -> 0 < x /\ 0 <= l /\ Z.testbit x l = true.
Proof.
  intros Hl. destruct x as [|p|p]; simpl in Hl; [by apply elem_of_nil in Hl| |
    by apply elem_of_nil in Hl].
  change (pos_bits p 0) with (set_bits (Z.pos p)) in Hl.
  apply elem_of_set_bits in Hl; [|lia]. split; [lia|done].
Qed.

Lemma supports_mono idxL ds' ds j cell w :
  Forall (fun d => 0 <= d) ds -> all_sub ds' ds ->
  supports idxL ds' j cell w -> supports idxL ds j cell w.
Proof.
  intros Hpos [Hlen Hsub] (d' & ip & Hd' & Hip & l & b & Hl & Hb & Hw).
  unfold py_index in Hd'. destruct (py_pos ds' cell) as [n|] eqn:Hn; simpl in Hd'; [|done].
  destruct (Hsub _ _ Hd') as (d & Hd & Hdd).
  exists d, ip. split_and!; [|done|].
  - unfold py_index. by rewrite <- (py_pos_length ds' ds cell Hlen), Hn.
  - exists l, b. split_and!; [|done..].
    apply set_bits_elem in Hl as (_ & Hl0 & Hl).
    apply elem_of_set_bits.
    + rewrite Forall_forall in Hpos. apply Hpos. by eapply list_elem_of_lookup_2.
    + split; [done|]. by eapply bits_sub_testbit.
Qed.

(** X9: [compute_path_candidates] is monotone in the domains.  When no
    domain of [ds'] has a letter that the domain of the same cell in [ds]
    lacks, every candidate of a path under [ds'] is a candidate under
    [ds]: narrowing cells can only remove candidate words. *)
Theorem compute_path_candidates_monotone index all_mask f f' cells L ds ds' c c' :
  Forall (fun d => 0 <= d) ds ->
  all_sub ds' ds ->
  compute_path_candidates index all_mask f cells L ds = Val c ->
  compute_path_candidates index all_mask f' cells L ds' = Val c' ->
  bits_sub c' c.
Proof.
  intros Hpos Hsub Hc Hc'. destruct (index !! L) as [idxL|] eqn:Hi.
  - destruct (compute_path_candidates_bits _ _ _ _ _ _ _ _ Hc Hi) as (am & Ham & Hb).
    destruct (compute_path_candidates_bits _ _ _ _ _ _ _ _ Hc' Hi)
      as (am' & Ham' & Hb').
    assert (am' = am) as -> by congruence.
    apply bits_sub_of_testbit. intros w Hw. apply Hb' in Hw as [Hwam Hsup].
    apply Hb. split; [done|]. intros j cell Hj.
    eapply supports_mono; [done|done|]. by apply Hsup.
  - rewrite compute_path_candidates_no_index in Hc, Hc' by done.
    by simplify_eq.
Qed.

Lemma compute_path_candidates_monotone_witness : bits_sub 3 7.
Proof.
  apply (compute_path_candidates_monotone ab_index ab_mask 30 30 [0; 1] 2
           [ALL; ALL] [1; 2] 7 3).
  - repeat constructor; done.
  - split; [done|]. intros [|[|i]] v Hv; simplify_eq/=; eexists; (split; [done|]);
      by vm_compute.
  - by vm_compute.
  - by vm_compute.
Defined.

(** X10: [propagate] reaches a fixed point.  When it has returned [True],
    a second call on the state it left returns [True] again and changes
    neither list. *)
Theorem propagate_idempotent paths index all_mask n_cells fuel fuel2
    ds pcs ds' pcs' :
  index_wf index ->
  propagate paths index all_mask n_cells fuel (ds, pcs) = Val (true, (ds', pcs')) ->
  (27 < fuel2)%nat ->
  propagate paths index all_mask n_cells fuel2 (ds', pcs') = Val (true, (ds', pcs')).
Proof.
  intros Hwf H Hfuel. apply propagate_true in H as [_ [f' Hstable]].
  destruct fuel2 as [|fuel2]; [lia|]. rewrite propagate_S.
  rewrite (propagate_pass_stable paths index all_mask n_cells Hwf f' fuel2
             ds' pcs' pcs' false ltac:(lia) Hstable).
  done.
Qed.

Lemma propagate_idempotent_witness :
  propagate one_path ab_index ab_mask 2 28 ([5; 10], [7]) = Val (true, ([5; 10], [7])).
Proof.
  apply (propagate_idempotent one_path ab_index ab_mask 2 30 28 [ALL; ALL] [7]).
  - apply (index_ok_wf ab_ab_cd ab_index ab_mask), build_index_ok.
    by vm_compute.
  - by vm_compute.
  - lia.
Defined.

(** X11: [propagate] discards no solution.  From a state with one domain
    over the alphabet per cell and one candidate set per path, when an
    assignment that makes every path spell a dictionary word uses only
    letters of the domains, [propagate] does not return [False] and the
    assignment still uses only letters of the domains it leaves. *)
Theorem propagate_keeps_solutions paths words_by_len index all_mask n_cells
    sigma fuel ds pcs ok ds' pcs' :
  build_index words_by_len = Val (index, all_mask) ->
  paths_wf paths ->
  cells_in_range paths n_cells ->
  good_state paths n_cells ds pcs ->
  solution paths words_by_len n_cells sigma ->
  fits sigma ds ->
  propagate paths index all_mask n_cells fuel (ds, pcs) = Val (ok, (ds', pcs')) ->
  ok = true /\ fits sigma ds'.
Proof.
  intros Hbuild Hpaths Hcells Hgood Hsol Hfit H.
  by apply (propagate_fits paths index all_mask n_cells words_by_len
              (build_index_ok _ _ _ Hbuild) Hpaths Hcells sigma Hsol
              fuel ds pcs ok ds' pcs').
Qed.

Lemma propagate_keeps_solutions_witness :
  true = true /\ fits [0; 19; 18; 14] [1; 524288; 786432; 16384].
Proof.
  apply (propagate_keeps_solutions square at_to_so at_to_so_index at_to_so_mask 4
           [0; 19; 18; 14] 30 [ALL; ALL; ALL; ALL] [7; 7; 7] true
           [1; 524288; 786432; 16384] [1; 2; 6]).
  - by vm_compute.
  - repeat constructor.
  - intros cells L Hin.
    repeat (apply elem_of_cons in Hin as [[= -> ->]|Hin];
            [repeat constructor; lia|]).
    by apply elem_of_nil in Hin.
  - split_and!; [done| |done].
    intros i Hi. exists ALL. split; [|done].
    apply (lookup_replicate_2 (Z.to_nat 4) ALL i Hi).
  - split_and!; [done|repeat constructor; lia|].
    intros cells L Hin.
    apply elem_of_cons in Hin as [[= -> ->]|Hin].
    { exists (codepoints "AT"). split; [left|repeat constructor]. }
    apply elem_of_cons in Hin as [[= -> ->]|Hin].
    { exists (codepoints "TO"). split; [right; left|repeat constructor]. }
    apply elem_of_cons in Hin as [[= -> ->]|Hin].
    { exists (codepoints "SO"). split; [right; right; left|repeat constructor]. }
    by apply elem_of_nil in Hin.
  - intros i d Hd.
    destruct i as [|[|[|[|i]]]]; simplify_eq/=; eexists; (split; [done|]);
      by vm_compute.
  - by vm_compute.
Defined.

(** X12: [propagate] returns.  From a state with one domain over the
    alphabet per cell and one candidate set per path, on paths that stay on
    the grid and an index built by [build_index], [propagate] raises no
    exception and its [while] loop ends: it returns [True] or [False]. *)
Theorem propagate_returns paths words_by_len index all_mask n_cells ds pcs fuel :
  build_index words_by_len = Val (index, all_mask) ->
  paths_wf paths ->
  cells_in_range paths n_cells ->
  good_state paths n_cells ds pcs ->
  (propagate_fuel ds <= fuel)%nat ->
  exists ok ds' pcs',
    propagate paths index all_mask n_cells fuel (ds, pcs) = Val (ok, (ds', pcs')).
Proof.
  intros Hbuild Hpaths Hcells Hgood Hfuel. unfold propagate_fuel in Hfuel.
  assert (0 <= ALL) as HALL by done.
  apply (propagate_val paths index all_mask n_cells words_by_len
           (build_index_ok _ _ _ Hbuild) Hpaths Hcells
           (Z.to_nat (weigh (Z.max ALL) ds))); [done| |lia].
  rewrite Z2Nat.id by (apply weigh_nonneg; lia).
  apply weigh_le; [done|]. intros i a b Ha Hb. simplify_eq. lia.
Qed.

Lemma propagate_returns_witness :
  exists ok ds' pcs',
    propagate one_path ab_index ab_mask 2 (propagate_fuel [1; 2]) ([1; 2], [1])
    = Val (ok, (ds', pcs')).
Proof.
  apply (propagate_returns one_path ab_ab_cd).
  - by vm_compute.
  - repeat constructor.
  - intros cells L Hin.
    repeat (apply elem_of_cons in Hin as [[= -> ->]|Hin];
            [repeat constructor; lia|]).
    by apply elem_of_nil in Hin.
  - split_and!; [done| |done].
    intros [|[|i]] Hi; [| |simpl in Hi; lia]; eexists; (split; [done|]); by vm_compute.
  - apply le_n.
Defined.

(** ** The search *)

(** X13: [solve] returns.  For a dictionary with no word twice in a
    list and at most [bound] words per list, its index, and paths that
    carry their own length and stay on the grid: [solve], started from
    full domains and all-words candidate sets with enough fuel, raises no
    exception and its recursion ends; it returns a list or [None], whether
    or not the paths cover the grid. *)
Theorem solve_returns paths words_by_len index all_mask n_cells bound fuel :
  build_index words_by_len = Val (index, all_mask) ->
  grouped_by_length words_by_len ->
  paths_wf paths ->
  cells_in_range paths n_cells ->
  distinct_words words_by_len bound ->
  (solve_fuel n_cells bound <= fuel)%nat ->
  exists res h',
    solve paths index all_mask n_cells words_by_len fuel 0 1
      (initial_store paths all_mask n_cells) = Val (res, h').
Proof.
  intros Hbuild Hgrouped Hpaths Hcells Hdist Hfuel.
  pose proof (build_index_ok _ _ _ Hbuild) as Hok.
  assert (0 < ALL) as HALL by done.
  destruct (solve_complete paths index all_mask n_cells words_by_len bound
              Hok Hgrouped Hpaths Hcells Hdist
              (Z.to_nat (ALL * n_cells)) fuel 0%nat 1%nat
              (initial_store paths all_mask n_cells))
    as (res & h' & Hrun & _); [| | | | | |by eauto].
  - unfold solve_fuel in Hfuel. lia.
  - simpl. lia.
  - simpl. lia.
  - done.
  - unfold initial_store, deref. simpl. split_and!.
    + by rewrite length_replicate.
    + intros i Hi. exists ALL. split; [|lia]. by apply lookup_replicate.
    + by rewrite length_map.
  - unfold initial_store, deref. simpl. rewrite weigh_replicate.
    rewrite Z.max_r by lia. generalize dependent ALL. intros. nia.
Qed.

Lemma solve_returns_witness :
  exists res h',
    solve corner at_to_index at_to_mask 4 at_to (solve_fuel 4 2) 0 1
      (initial_store corner at_to_mask 4) = Val (res, h').
Proof.
  apply (solve_returns corner at_to at_to_index at_to_mask 4 2).
  - by vm_compute.
  - apply singleton_grouped. repeat constructor.
  - repeat constructor.
  - intros cells L Hin.
    repeat (apply elem_of_cons in Hin as [[= -> ->]|Hin];
            [repeat constructor; lia|]).
    by apply elem_of_nil in Hin.
  - intros L ws Hl. unfold at_to in Hl.
    apply lookup_singleton_Some in Hl as [<- <-]. split; [|simpl; lia].
    apply NoDup_cons. split; [intros Hin|apply NoDup_singleton].
    repeat (apply elem_of_cons in Hin as [[=]|Hin]). by apply elem_of_nil in Hin.
  - apply le_n.
Defined.

(** X14: [solve] writes only to its own two lists.  Whatever it returns,
    every list that existed before the call, other than the [domains] and
    [path_cands] it was given, is left as it was: the copies made for the
    branches are new lists. *)
Theorem solve_writes_only_its_lists paths index all_mask n_cells words_by_len
    fuel d pc (h : heap) res h' :
  solve paths index all_mask n_cells words_by_len fuel d pc h = Val (res, h') ->
  (length h <= length h')%nat /\
  forall l, (l < length h)%nat -> l <> d -> l <> pc -> h' !! l = h !! l.
Proof. apply solve_frame. Qed.

Lemma solve_writes_only_its_lists_witness :
  let h : heap := [[ALL; ALL; ALL]; [3; 3; 3]; [42]] in
  let h' : heap := [[3; 3; 3]; [3; 3; 3]; [42]; [1; 2; 3]; [1; 2; 2];
                    [2; 1; 3]; [2; 1; 1]] in
  (length h <= length h')%nat /\
  forall l, (l < length h)%nat -> l <> 0%nat -> l <> 1%nat -> h' !! l = h !! l.
Proof.
  apply (solve_writes_only_its_lists triangle ab_ba_index ab_ba_mask 3 ab_ba 40
           0 1 [[ALL; ALL; ALL]; [3; 3; 3]; [42]] None).
  by vm_compute.
Defined.

(** ** More fuel changes no result *)

Section Fuel.

Variable paths : list path.
Variable index : gmap nat (list (list Z)).
Variable all_mask : gmap nat Z.
Variable n_cells : Z.
Hypothesis Hwf : index_wf index.

Lemma update_paths_fuel f1 f2 ds : forall ps i0 s r,
  (26 < f2)%nat ->
  for_enum (update_path_step index all_mask f1 ds) i0 ps s = Val r ->
  for_enum (update_path_step index all_mask f2 ds) i0 ps s = Val r.
Proof.
  induction ps as [|[cells L] ps IH]; intros i0 [pcs ch] r Hf H;
    cbn [for_enum] in *; [done|].
  apply bind_Val in H as (r1 & Hstep & H).
  assert (update_path_step index all_mask f2 ds i0 (cells, L) (pcs, ch) = Val r1)
    as ->.
  { unfold update_path_step in *.
    apply bind_Val in Hstep as (c & Hc & Hstep).
    by rewrite (compute_path_candidates_fuel index all_mask f1 f2 cells L ds c Hwf Hf Hc). }
  simpl. destruct r1 as [s1|]; [by apply IH|done].
Qed.

Lemma propagate_pass_fuel f1 f2 st r :
  (26 < f2)%nat ->
  propagate_pass paths index all_mask n_cells f1 st = Val r ->
  propagate_pass paths index all_mask n_cells f2 st = Val r.
Proof.
  intros Hf H. destruct st as [ds pcs]. unfold propagate_pass in *.
  apply bind_Val in H as (r1 & H1 & H).
  by rewrite (update_paths_fuel f1 f2 ds paths 0%nat (pcs, false) r1 Hf H1).
Qed.

Lemma propagate_fuel_mono : forall f1 f2 st r,
  (f1 + 27 <= f2)%nat ->
  propagate paths index all_mask n_cells f1 st = Val r ->
  propagate paths index all_mask n_cells f2 st = Val r.
Proof.
  induction f1 as [|f1 IH]; intros f2 st r Hf H; [done|].
  destruct f2 as [|f2]; [lia|]. rewrite propagate_S in *.
  apply bind_Val in H as (rp & Hp & H).
  rewrite (propagate_pass_fuel f1 f2 st rp ltac:(lia) Hp). simpl.
  destruct rp as [[st' [|]]|st']; [|done..].
  apply IH; [lia|done].
Qed.

(** Two runs of [propagate] that both return agree. *)
Lemma propagate_agree f1 f2 st r1 r2 :
  propagate paths index all_mask n_cells f1 st = Val r1 ->
  propagate paths index all_mask n_cells f2 st = Val r2 ->
  r1 = r2.
Proof.
  intros H1 H2.
  apply (propagate_fuel_mono f1 (f1 + f2 + 27)) in H1; [|lia].
  apply (propagate_fuel_mono f2 (f1 + f2 + 27)) in H2; [|lia].
  congruence.
Qed.

End Fuel.

(** ** A repeated word can keep [solve] forcing the same path *)

Lemma ab_index_wf : index_wf ab_index.
Proof.
  apply (index_ok_wf ab_ab_cd ab_index ab_mask), build_index_ok. by vm_compute.
Qed.

(** [propagate] on the paths [two_rows]: it runs out of fuel or returns
    what it returns with 30 turns. *)
Lemma two_rows_propagate fuel ds pcs r :
  good_state two_rows 4 ds pcs ->
  propagate two_rows ab_index ab_mask 4 30 (ds, pcs) = Val r ->
  propagate two_rows ab_index ab_mask 4 fuel (ds, pcs) = OutOfFuel \/
  propagate two_rows ab_index ab_mask 4 fuel (ds, pcs) = Val r.
Proof.
  intros Hgood H30.
  destruct (propagate two_rows ab_index ab_mask 4 fuel (ds, pcs)) as [r'|e|] eqn:E;
    [right|exfalso|by left].
  - f_equal. by eapply (propagate_agree two_rows ab_index ab_mask 4 ab_index_wf).
  - eapply (propagate_no_exc two_rows ab_index ab_mask 4 ab_ab_cd); [| | |done|done].
    + apply build_index_ok. by vm_compute.
    + repeat constructor.
    + intros cells L Hin.
      repeat (apply elem_of_cons in Hin as [[= -> ->]|Hin];
              [repeat constructor; lia|]).
      by apply elem_of_nil in Hin.
Qed.

(** Once the first path is forced to "AB", every call of [solve] forces
    it again and recurses on the same two lists. *)
Lemma two_rows_stuck : forall fuel d pc (h : heap),
  (d < length h)%nat -> (pc < length h)%nat -> d <> pc ->
  deref h d = [1; 2; 5; 10] -> deref h pc = [1; 7] ->
  solve two_rows ab_index ab_mask 4 ab_ab_cd fuel d pc h = OutOfFuel.
Proof.
  induction fuel as [|fuel IH]; intros d pc h Hd Hpc Hne Hds Hpcs; [done|].
  rewrite solve_S, Hds, Hpcs.
  destruct (two_rows_propagate fuel [1; 2; 5; 10] [1; 7]
              (true, ([1; 2; 5; 10], [3; 7]))) as [-> | ->];
    [|by vm_compute|done|].
  { split_and!; [done| |done].
    intros i Hi. destruct i as [|[|[|[|i]]]]; [..|simpl in Hi; lia];
      eexists; (split; [done|]); by vm_compute. }
  cbn [mbind outcome_bind negb].
  change (solved [1; 2; 5; 10]) with false.
  change (choose_branch_path [3; 7]) with (Some 0%nat).
  cbn [two_rows lookup list_lookup indexed mbind outcome_bind].
  destruct fuel as [|fuel']; [done|].
  set (h1 := <[pc := [3; 7]]> (<[d := [1; 2; 5; 10]]> h)).
  assert (length h1 = length h) as Hl1 by (unfold h1; by rewrite !length_insert).
  assert (deref h1 d = [1; 2; 5; 10]) as Hd1.
  { unfold h1, deref. rewrite list_lookup_insert_ne by done.
    by rewrite list_lookup_insert_eq by done. }
  assert (deref h1 pc = [3; 7]) as Hpc1.
  { unfold h1, deref. by rewrite list_lookup_insert_eq by (by rewrite length_insert). }
  change 3 with ((2 * 1 + 1) * 2 ^ 0). rewrite for_bits_step by done.
  rewrite try_branch_unfold, Hd1.
  change (0 <? 0) with false. cbv iota.
  change (default [] (ab_ab_cd !! 2%nat) !! Z.to_nat 0)
    with (Some (codepoints "AB")).
  cbn [indexed mbind outcome_bind].
  change (for_enum (force_step (codepoints "AB")) 0 [0; 1] [1; 2; 5; 10])
    with (Val (Go (R := list Z) [1; 2; 5; 10])).
  cbn [mbind outcome_bind].
  rewrite (IH (length h1) (S (length h1))); [done| | |lia| |].
  - rewrite branch_heap_length. lia.
  - rewrite branch_heap_length. lia.
  - apply branch_heap_domains.
  - rewrite branch_heap_cands by lia. by rewrite Hpc1.
Qed.

(** X15: with a repeated dictionary word [solve] can recurse for ever.
    The dictionary holds "AB" twice and "CD"; two paths share no cell; the
    letters A, B, A, B fill the grid.  [solve] forces the first path to
    word 0, after which the path still has the two candidates 0 and 1,
    fewer than the other path's three; it is chosen again, forcing it
    changes nothing, and the recursion never ends: no amount of fuel lets
    the call return. *)
Theorem solve_diverges_on_repeated_word fuel :
  covered two_rows 4 /\
  solution two_rows ab_ab_cd 4 [0; 1; 0; 1] /\
  solve two_rows ab_index ab_mask 4 ab_ab_cd fuel 0 1
    (initial_store two_rows ab_mask 4) = OutOfFuel.
Proof.
  split_and!.
  - intros i Hi.
    assert (i = 0 \/ i = 1 \/ i = 2 \/ i = 3) as [-> | [-> | [-> | ->]]] by lia.
    + exists [0; 1], 2%nat. split; [left|left].
    + exists [0; 1], 2%nat. split; [left|right; left].
    + exists [2; 3], 2%nat. split; [right; left|left].
    + exists [2; 3], 2%nat. split; [right; left|right; left].
  - split_and!; [done|repeat constructor; lia|].
    intros cells L Hin.
    apply elem_of_cons in Hin as [[= -> ->]|Hin].
    { exists (codepoints "AB"). split; [left|repeat constructor]. }
    apply elem_of_cons in Hin as [[= -> ->]|Hin].
    { exists (codepoints "AB"). split; [left|repeat constructor]. }
    by apply elem_of_nil in Hin.
  - destruct fuel as [|fuel]; [done|]. rewrite solve_S.
    change (deref (initial_store two_rows ab_mask 4) 0) with [ALL; ALL; ALL; ALL].
    change (deref (initial_store two_rows ab_mask 4) 1) with [7; 7].
    destruct (two_rows_propagate fuel [ALL; ALL; ALL; ALL] [7; 7]
                (true, ([5; 10; 5; 10], [7; 7]))) as [-> | ->];
      [|by vm_compute|done|].
    { split_and!; [done| |done].
      intros i Hi. destruct i as [|[|[|[|i]]]]; [..|simpl in Hi; lia];
        eexists; (split; [done|]); by vm_compute. }
    cbn [mbind outcome_bind negb].
    change (solved [5; 10; 5; 10]) with false.
    change (choose_branch_path [7; 7]) with (Some 0%nat).
    cbn [two_rows lookup list_lookup indexed mbind outcome_bind].
    destruct fuel as [|fuel']; [done|].
    set (h1 := <[1%nat := [7; 7]]>
                 (<[0%nat := [5; 10; 5; 10]]> (initial_store two_rows ab_mask 4))).
    change 7 with ((2 * 3 + 1) * 2 ^ 0) at 1. rewrite for_bits_step by done.
    rewrite try_branch_unfold.
    change (deref h1 0) with [5; 10; 5; 10].
    change (0 <? 0) with false. cbv iota.
    change (default [] (ab_ab_cd !! 2%nat) !! Z.to_nat 0)
      with (Some (codepoints "AB")).
    cbn [indexed mbind outcome_bind].
    change (for_enum (force_step (codepoints "AB")) 0 [0; 1] [5; 10; 5; 10])
      with (Val (Go (R := list Z) [1; 2; 5; 10])).
    cbn [mbind outcome_bind].
    rewrite (two_rows_stuck (S fuel') (length h1) (S (length h1))); [done| | |lia| |].
    + rewrite branch_heap_length. lia.
    + rewrite branch_heap_length. lia.
    + apply branch_heap_domains.
    + by rewrite branch_heap_cands by (simpl; lia).
Qed.

(** ** A cell that no path visits *)

Section Uncovered.

Variable paths : list path.
Variable index : gmap nat (list (list Z)).
Variable all_mask : gmap nat Z.
Variable n_cells : Z.
Variable words_by_len : gmap nat (list word).
Variable i : nat.
Variable v : Z.
Hypothesis Hcells : cells_in_range paths n_cells.
Hypothesis Hi : (i < Z.to_nat n_cells)%nat.
Hypothesis Hfree : forall cells L, (cells, L) ∈ paths -> Z.of_nat i ∉ cells.
Hypothesis Hv : 0 <= v <= ALL.
Hypothesis Hmany : Z.land v (v - 1) <> 0.

Lemma free_cell cells L pos cell :
  (cells, L) ∈ paths -> cells !! pos = Some cell ->
  0 <= cell < n_cells /\ Z.to_nat cell <> i.
Proof.
  intros Hin Hpos. pose proof (path_cell paths n_cells Hcells cells L pos cell Hin Hpos).
  split; [done|]. intros <-. apply (Hfree cells L Hin).
  rewrite Z2Nat.id by lia. by eapply list_elem_of_lookup_2.
Qed.

Lemma narrow_cells_frame cands idxL cells L nd0 nd :
  (cells, L) ∈ paths -> length nd0 = Z.to_nat n_cells ->
  for_enum (narrow_cell_step cands idxL) 0%nat cells nd0 = Val (Go nd) ->
  length nd = Z.to_nat n_cells /\ nd !! i = nd0 !! i.
Proof.
  intros Hin Hlen H.
  pose proof (for_enum_inv (narrow_cell_step cands idxL)
    (fun _ nd1 => length nd1 = Z.to_nat n_cells /\ nd1 !! i = nd0 !! i)
    (fun _ => True) cells 0%nat nd0) as Hinv.
  rewrite H in Hinv. apply Hinv; [|done]. clear Hinv H.
  intros pos cell nd1 Hpos [Hl1 Hsame]. cbn [Nat.add].
  destruct (free_cell cells L pos cell Hin Hpos) as [Hc Hne].
  destruct (narrow_cell_step cands idxL pos cell nd1) as [[nd2|?]| |] eqn:E; [|done..].
  unfold narrow_cell_step in E.
  apply bind_Val in E as (old & _ & E). apply bind_Val in E as (ip & _ & E).
  apply bind_Val in E as (mask & _ & E).
  apply bind_Val in E as (nd' & Hst%indexed_Val & E).
  destruct (_ =? 0); simplify_eq.
  unfold py_store in Hst. rewrite py_pos_nonneg in Hst by lia. simplify_eq/=.
  rewrite length_insert, list_lookup_insert_ne by done. done.
Qed.

Lemma narrow_paths_frame pcs nd0 nd :
  length nd0 = Z.to_nat n_cells ->
  for_enum (narrow_path_step index pcs) 0%nat paths nd0 = Val (Go nd) ->
  length nd = Z.to_nat n_cells /\ nd !! i = nd0 !! i.
Proof.
  intros Hlen H.
  pose proof (for_enum_inv (narrow_path_step index pcs)
    (fun _ nd1 => length nd1 = Z.to_nat n_cells /\ nd1 !! i = nd0 !! i)
    (fun _ => True) paths 0%nat nd0) as Hinv.
  rewrite H in Hinv. apply Hinv; [|done]. clear Hinv H.
  intros pid [cells L] nd1 Hpid [Hl1 Hsame]. cbn [Nat.add].
  destruct (narrow_path_step index pcs pid (cells, L) nd1) as [[nd2|?]| |] eqn:E;
    [|done..].
  unfold narrow_path_step in E.
  apply bind_Val in E as (cands & _ & E).
  destruct (index !! L) as [idxL|]; [|done].
  destruct (narrow_cells_frame cands idxL cells L nd1 nd2) as [Hl2 Hs2];
    [by eapply list_elem_of_lookup_2|done|done|].
  split; [done|congruence].
Qed.

Lemma land_ALL d : 0 <= d <= ALL -> Z.land ALL d = d.
Proof.
  intros Hd. rewrite Z.land_comm.
  change ALL with (Z.ones 26). rewrite Z.land_ones by lia.
  apply Z.mod_small. rewrite ALL_eq in Hd. lia.
Qed.

(** A pass leaves the domain of the cell as it was. *)
Lemma propagate_pass_frame fuel ds pcs ds' pcs' ch :
  ds !! i = Some v ->
  propagate_pass paths index all_mask n_cells fuel (ds, pcs)
  = Val (Go ((ds', pcs'), ch)) ->
  ds' !! i = Some v.
Proof.
  intros Hds H.
  destruct (propagate_pass_go _ _ _ _ _ _ _ _ _ _ H)
    as (_ & (nd & Hnd & _ & Hnar) & _).
  destruct (narrow_paths_frame _ _ _ (length_replicate _ _) Hnd) as [_ Hsame].
  destruct (Hnar i Hi) as (n & d & Hn & Hd & _ & Hd').
  rewrite Hsame, lookup_replicate_2 in Hn by done.
  simplify_eq. by rewrite land_ALL in Hd'.
Qed.

Lemma propagate_frame : forall fuel ds pcs ds' pcs',
  ds !! i = Some v ->
  propagate paths index all_mask n_cells fuel (ds, pcs) = Val (true, (ds', pcs')) ->
  ds' !! i = Some v.
Proof.
  induction fuel as [|fuel IH]; intros ds pcs ds' pcs' Hds H; [done|].
  rewrite propagate_S in H. apply bind_Val in H as (r & Hr & H).
  destruct r as [[[ds1 pcs1] ch]|?]; [|done].
  pose proof (propagate_pass_frame _ _ _ _ _ _ Hds Hr) as Hds1.
  destruct ch; [by eapply IH|by simplify_eq].
Qed.

(** Forcing a word onto a path leaves the domain of the cell as it was. *)
Lemma force_loop_frame w cells L ds ds2 :
  (cells, L) ∈ paths -> length ds = Z.to_nat n_cells ->
  for_enum (force_step w) 0%nat cells ds = Val (Go ds2) ->
  ds2 !! i = ds !! i.
Proof.
  intros Hin Hlen H.
  pose proof (for_enum_inv (force_step w)
    (fun _ d1 => length d1 = Z.to_nat n_cells /\ d1 !! i = ds !! i)
    (fun _ => True) cells 0%nat ds) as Hinv.
  rewrite H in Hinv. apply Hinv; [|done]. clear Hinv H.
  intros pos cell d1 Hpos [Hl1 Hsame]. cbn [Nat.add].
  destruct (free_cell cells L pos cell Hin Hpos) as [Hc Hne].
  destruct (force_step w pos cell d1) as [[d2|?]| |] eqn:E; [|done..].
  unfold force_step in E.
  apply bind_Val in E as (ch & _ & E). destruct (_ <? 0); [done|].
  apply bind_Val in E as (old & _ & E). destruct (_ =? 0); [done|].
  apply bind_Val in E as (d' & Hst%indexed_Val & E). simplify_eq.
  unfold py_store in Hst. rewrite py_pos_nonneg in Hst by lia. simplify_eq/=.
  rewrite length_insert, list_lookup_insert_ne by done. done.
Qed.

(** While the cell has more than one letter, [solve] returns no list. *)
Lemma solve_uncovered : forall fuel d pc (h : heap) res h',
  (d < length h)%nat -> (pc < length h)%nat -> d <> pc ->
  length (deref h d) = Z.to_nat n_cells ->
  deref h d !! i = Some v ->
  solve paths index all_mask n_cells words_by_len fuel d pc h = Val (res, h') ->
  res = None.
Proof.
  induction fuel as [|fuel IH]; intros d pc h res h' Hd Hpc Hne Hlen Hdi H; [done|].
  rewrite solve_S in H. apply bind_Val in H as ([ok [ds pcs]] & Hprop & H).
  destruct ok; simpl in H; [|by simplify_eq].
  pose proof (propagate_frame _ _ _ _ _ Hdi Hprop) as Hds.
  destruct (propagate_true _ _ _ _ _ _ _ _ _ Hprop) as [[Hlds _] _].
  destruct (solved ds) eqn:Hsolved.
  { exfalso. unfold solved in Hsolved. rewrite forallb_forall in Hsolved.
    specialize (Hsolved v). rewrite Z.eqb_eq in Hsolved. apply Hmany, Hsolved.
    apply list_elem_of_In. by eapply list_elem_of_lookup_2. }
  destruct (choose_branch_path pcs) as [pid|]; [|by simplify_eq].
  apply bind_Val in H as ([cells L] & Hpid%indexed_Val & H).
  apply bind_Val in H as (c & Hc & H). apply bind_Val in H as (r & Hr & H).
  assert ((cells, L) ∈ paths) as Hin by (by eapply list_elem_of_lookup_2).
  set (h1 := <[pc := pcs]> (<[d := ds]> h)) in *.
  assert (forall wid (hcur : heap),
            (d < length hcur)%nat /\ deref hcur d = ds ->
            match try_branch (solve paths index all_mask n_cells words_by_len fuel)
                    d pc pid cells (default [] (words_by_len !! L)) wid hcur with
            | Val (Go h2) => (d < length h2)%nat /\ deref h2 d = ds
            | Val (Stop _) => False
            | _ => True
            end) as Hstep.
  { intros wid hcur [Hdc Hdsc].
    pose proof (try_branch_frame
      (solve paths index all_mask n_cells words_by_len fuel) d pc pid cells
      (default [] (words_by_len !! L)) wid hcur
      (solve_frame paths index all_mask n_cells words_by_len fuel)) as Hframe.
    destruct (try_branch _ d pc pid cells _ wid hcur) as [[h2|[res2 h2]]| |] eqn:E;
      [| |done..].
    - destruct Hframe as [Hle Hsame]. split; [lia|].
      unfold deref in *. by rewrite Hsame.
    - apply try_branch_stop in E as (w & ds2 & _ & _ & Hforce & Hrec).
      rewrite Hdsc in Hforce.
      apply IH in Hrec; [done| | | | |].
      + rewrite branch_heap_length. lia.
      + rewrite branch_heap_length. lia.
      + lia.
      + rewrite branch_heap_domains.
        apply force_loop_length in Hforce. simpl in Hforce. congruence.
      + rewrite branch_heap_domains.
        rewrite (force_loop_frame w cells L ds ds2 Hin ltac:(congruence) Hforce).
        done. }
  pose proof (for_bits_inv
    (try_branch (solve paths index all_mask n_cells words_by_len fuel)
       d pc pid cells (default [] (words_by_len !! L)))
    (fun hcur : heap => (d < length hcur)%nat /\ deref hcur d = ds)
    (fun _ => False) Hstep fuel c h1) as Hinv.
  rewrite Hr in Hinv. destruct r as [h2|[res2 h2]]; [by simplify_eq|].
  exfalso. apply Hinv. unfold h1. rewrite !length_insert. split; [done|].
  unfold deref. rewrite list_lookup_insert_ne by done.
  by rewrite list_lookup_insert_eq by done.
Qed.

End Uncovered.

(** X16: [solve] returns no board when some cell of the grid lies on no
    path.  The cell keeps all 26 letters: [propagate] narrows only cells on
    paths and no branch forces it, so [solved] never holds and every call
    ends in [None], whatever the dictionary. *)
Theorem solve_fails_on_uncovered_cell paths index all_mask n_cells words_by_len
    fuel i res h' :
  cells_in_range paths n_cells ->
  0 <= i < n_cells ->
  (forall cells L, (cells, L) ∈ paths -> i ∉ cells) ->
  solve paths index all_mask n_cells words_by_len fuel 0 1
    (initial_store paths all_mask n_cells) = Val (res, h') ->
  res = None.
Proof.
  intros Hcells Hi Hfree H.
  apply (solve_uncovered paths index all_mask n_cells words_by_len (Z.to_nat i) ALL
           Hcells) in H; try done.
  - lia.
  - intros cells L Hin. rewrite Z2Nat.id by lia. by apply (Hfree cells L).
  - simpl. lia.
  - simpl. lia.
  - unfold initial_store, deref. simpl. by rewrite length_replicate.
  - unfold initial_store, deref. simpl. apply lookup_replicate_2. lia.
Qed.

Lemma solve_fails_on_uncovered_cell_witness : @None nat = None.
Proof.
  apply (solve_fails_on_uncovered_cell corner at_to_index at_to_mask 4 at_to 40 2
           None [[1; 524288; ALL; 16384]; [1; 2]]).
  - intros cells L Hin.
    repeat (apply elem_of_cons in Hin as [[= -> ->]|Hin];
            [repeat constructor; lia|]).
    by apply elem_of_nil in Hin.
  - lia.
  - intros cells L Hin Hc.
    repeat (apply elem_of_cons in Hin as [[= -> ->]|Hin];
            [repeat (apply elem_of_cons in Hc as [[=]|Hc]); by apply elem_of_nil in Hc|]).
    by apply elem_of_nil in Hin.
  - by vm_compute.
Defined.

(** ** Branch choice, solved boards, letters *)

(** X17: [choose_branch_path] returns [None] exactly when no path has
    more than one and fewer than 10^9 candidates: a path with 10^9
    candidates or more is never chosen, [best_cnt] starting at [10**9]. *)
Theorem choose_branch_path_none_iff path_cands :
  choose_branch_path path_cands = None <->
  forall i c, path_cands !! i = Some c -> ~ (1 < bitcount c < 10 ^ 9).
Proof.
  unfold choose_branch_path.
  pose proof (choose_from_inv path_cands [] (None, 10 ^ 9)) as H. simpl in H.
  destruct (choose_from 0 path_cands (None, 10 ^ 9)) as [best bc].
  destruct H as (Hnone & Hsome & Hbest).
  { split_and!; [done| |done]. intros i c Hi. by rewrite lookup_nil in Hi. }
  simpl in *. split.
  - intros -> i c Hc [H1 H2]. by destruct (Hsome i c Hc H1 H2).
  - intros Hall. destruct best as [p|]; [exfalso|done].
    destruct (Hbest p eq_refl) as (c & Hc & Hbc & Hr & _).
    apply (Hall p c Hc). lia.
Qed.

Lemma land_pred_zero d :
  Z.land d (d - 1) = 0 <-> d = 0 \/ exists k, 0 <= k /\ d = 2 ^ k.
Proof.
  split.
  - intros Hz. destruct (Z.lt_trichotomy d 0) as [Hneg|[->|Hpos]]; [exfalso|by left|right].
    + assert (Z.land d (d - 1) < 0) by (apply Z.land_neg; lia). lia.
    + exists (Z.log2 d). split; [apply Z.log2_nonneg|by apply pow2_of_land].
  - intros [->|(k & Hk & ->)]; [done|].
    change (2 ^ k - 1) with (Z.pred (2 ^ k)).
    rewrite <- Z.ones_equiv, Z.land_ones by done. apply Z.mod_same.
    assert (0 < 2 ^ k) by (by apply Z.pow_pos_nonneg). lia.
Qed.

(** X18: what [solved] accepts.  It returns [True] exactly when every
    domain is a single bit or zero: the test [d & (d - 1)] does not tell an
    empty domain from a domain with one letter, and rejects every negative
    integer. *)
Theorem solved_iff domains :
  solved domains = true <->
  Forall (fun d => d = 0 \/ exists k, 0 <= k /\ d = 2 ^ k) domains.
Proof.
  unfold solved. rewrite forallb_forall, Forall_forall. split.
  - intros H d Hd. apply land_pred_zero, Z.eqb_eq, H. by apply list_elem_of_In.
  - intros H d Hd. apply Z.eqb_eq, land_pred_zero, H. by apply list_elem_of_In.
Qed.

(** X19: [mask_to_letter] on a domain over the alphabet.  It raises
    nothing; on a domain with letters it returns the last of them in
    alphabetical order (the highest bit), a capital letter; on the empty
    domain it returns the character before "A", "@". *)
Theorem mask_to_letter_highest mask :
  0 <= mask <= ALL ->
  exists c, mask_to_letter mask = Val c /\
    (mask = 0 -> c = 64) /\
    (0 < mask -> c = 65 + Z.log2 mask /\ 65 <= c <= 90
                 /\ Z.testbit mask (c - 65) = true
                 /\ forall l, Z.testbit mask l = true -> l <= c - 65).
Proof.
  intros [H0 HALL]. unfold mask_to_letter, bit_length.
  destruct (Z.eqb_spec mask 0) as [->|Hnz].
  - exists 64. split; [done|]. split; [done|lia].
  - assert (0 < mask) as Hpos by lia.
    pose proof (Z.log2_nonneg mask) as Hk.
    assert (Z.log2 mask < 26) as Hk26.
    { apply Z.log2_lt_pow2; [done|]. rewrite ALL_eq in HALL. lia. }
    rewrite Z.abs_eq by lia.
    exists (65 + Z.log2 mask). split_and!.
    + unfold chr.
      destruct (Z.leb_spec 0 (65 + (Z.log2 mask + 1 - 1))); [|lia].
      destruct (Z.ltb_spec (65 + (Z.log2 mask + 1 - 1)) 1114112); [|lia].
      simpl. f_equal. lia.
    + lia.
    + intros _. split_and!; [done|lia|lia| |].
      * replace (65 + Z.log2 mask - 65) with (Z.log2 mask) by lia.
        by apply Z.bit_log2.
      * intros l Hl. replace (65 + Z.log2 mask - 65) with (Z.log2 mask) by lia.
        destruct (Z.le_gt_cases l (Z.log2 mask)) as [|Hgt]; [done|].
        rewrite Z.bits_above_log2 in Hl by lia. done.
Qed.

Lemma mask_to_letter_highest_witness :
  exists c, mask_to_letter 5 = Val c /\
    (5 = 0 -> c = 64) /\
    (0 < 5 -> c = 65 + Z.log2 5 /\ 65 <= c <= 90
              /\ Z.testbit 5 (c - 65) = true
              /\ forall l, Z.testbit 5 l = true -> l <= c - 65).
Proof. apply mask_to_letter_highest. split; [lia|]. by vm_compute. Defined.

(** ** The grid [load_paths] infers *)

Lemma scan_coords_tight coords : forall max_r max_c,
  let '(max_r', max_c') := scan_coords coords (max_r, max_c) in
  (max_r' = max_r \/ exists c, (max_r', c) ∈ coords) /\
  (max_c' = max_c \/ exists r, (r, max_c') ∈ coords).
Proof.
  unfold scan_coords.
  induction coords as [|[r0 c0] coords IH]; intros max_r max_c; simpl.
  - by split; left.
  - specialize (IH (if r0 >? max_r then r0 else max_r)
                   (if c0 >? max_c then c0 else max_c)).
    destruct (fold_left _ coords _) as [max_r' max_c'].
    destruct IH as [Hr Hc]. split.
    + destruct Hr as [->|[c Hc']]; [|right; exists c; by right].
      destruct (r0 >? max_r); [right; exists c0; left|by left].
    + destruct Hc as [->|[r Hr']]; [|right; exists r; by right].
      destruct (c0 >? max_c); [right; exists r0; left|by left].
Qed.

Lemma load_paths_fold_tight data : forall raw0 max_r max_c max_len,
  let '(raw, (max_r', max_c'), max_len') :=
    fold_left (fun '(raw, mx, max_len) coords =>
                 let L := length coords in
                 (raw ++ [(coords, L)],
                  scan_coords coords mx,
                  if (max_len <? L)%nat then L else max_len))
              data (raw0, (max_r, max_c), max_len) in
  (max_r' = max_r \/ exists coords c, coords ∈ data /\ (max_r', c) ∈ coords) /\
  (max_c' = max_c \/ exists coords r, coords ∈ data /\ (r, max_c') ∈ coords) /\
  (max_len' = max_len \/ exists coords, coords ∈ data /\ length coords = max_len').
Proof.
  induction data as [|coords data IH]; intros raw0 max_r max_c max_len; simpl.
  - split_and!; by left.
  - pose proof (scan_coords_tight coords max_r max_c) as Hs.
    destruct (scan_coords coords (max_r, max_c)) as [mr mc].
    destruct Hs as [Hr Hc].
    specialize (IH (raw0 ++ [(coords, length coords)]) mr mc
                   (if (max_len <? length coords)%nat then length coords else max_len)).
    destruct (fold_left _ data _) as [[raw [max_r' max_c']] max_len'].
    destruct IH as (Hr' & Hc' & Hl'). split_and!.
    + destruct Hr' as [->|(cs & c & Hin & Hc0)];
        [|right; exists cs, c; split; [by right|done]].
      destruct Hr as [->|[c Hc0]]; [by left|].
      right. exists coords, c. split; [left|done].
    + destruct Hc' as [->|(cs & r & Hin & Hr0)];
        [|right; exists cs, r; split; [by right|done]].
      destruct Hc as [->|[r Hr0]]; [by left|].
      right. exists coords, r. split; [left|done].
    + destruct Hl' as [->|(cs & Hin & Hlen)];
        [|right; exists cs; split; [by right|done]].
      destruct (max_len <? length coords)%nat; [|by left].
      right. exists coords. split; [left|done].
Qed.

(** X20: the grid of [load_paths] is the bounding box of the paths and
    of the cell (0, 0).  It has at least one row and one column, even with
    no path at all; every coordinate pair lies below [nrows] and [ncols];
    when there is more than one row (column), some path reaches the last
    one; [max_len] is the length of a longest path, 0 when there is
    none. *)
Theorem load_paths_bounding_box data :
  let '(raw, nrows, ncols, max_len) := load_paths data in
  1 <= nrows /\ 1 <= ncols /\
  (forall coords r c, coords ∈ data -> (r, c) ∈ coords -> r < nrows /\ c < ncols) /\
  (nrows = 1 \/ exists coords c, coords ∈ data /\ (nrows - 1, c) ∈ coords) /\
  (ncols = 1 \/ exists coords r, coords ∈ data /\ (r, ncols - 1) ∈ coords) /\
  (forall coords, coords ∈ data -> length coords <= max_len)%nat /\
  (max_len = 0%nat \/ exists coords, coords ∈ data /\ length coords = max_len).
Proof.
  pose proof (load_paths_spec data) as Hs. unfold load_paths in *.
  pose proof (load_paths_fold_tight data [] 0 0 0%nat) as Ht.
  destruct (fold_left _ data _) as [[raw [max_r max_c]] max_len].
  destruct Hs as (_ & Hr & Hc & Hall & Hlens).
  destruct Ht as (Htr & Htc & Htl).
  split_and!; [done|done|done| | |done|done].
  - destruct Htr as [->|(cs & c & ? & ?)]; [by left|right].
    exists cs, c. split; [done|]. by replace (max_r + 1 - 1) with max_r by lia.
  - destruct Htc as [->|(cs & r & ? & ?)]; [by left|right].
    exists cs, r. split; [done|]. by replace (max_c + 1 - 1) with max_c by lia.
Qed.

(** ** The program as a whole *)

Lemma linear_cell_range nrows ncols r c :
  0 <= r < nrows -> 0 <= c < ncols -> 0 <= r * ncols + c < nrows * ncols.
Proof. intros Hr Hc. nia. Qed.

Lemma linear_cell_inj ncols r c r' c' :
  0 <= c < ncols -> 0 <= c' < ncols ->
  r * ncols + c = r' * ncols + c' -> r = r' /\ c = c'.
Proof. intros Hc Hc' He. assert (r = r') by nia. subst. lia. Qed.

(** The paths [main] builds stay on the grid when no coordinate is
    negative. *)
Lemma main_paths_in_range data :
  (forall coords r c, coords ∈ data -> (r, c) ∈ coords -> 0 <= r /\ 0 <= c) ->
  let '(_, nrows, ncols, _) := load_paths data in
  cells_in_range (main_paths data) (nrows * ncols).
Proof.
  intros Hpos. unfold main_paths. pose proof (load_paths_spec data) as H.
  destruct (load_paths data) as [[[raw nrows] ncols] max_len].
  destruct H as (-> & _ & _ & Hall & _).
  intros cells L Hin.
  apply list_elem_of_fmap in Hin as ([coords L'] & [= -> ->] & Hin).
  apply list_elem_of_fmap in Hin as (coords' & [= -> ->] & Hin).
  apply Forall_forall. intros cell Hcell. unfold linear_cells in Hcell.
  apply list_elem_of_fmap in Hcell as ([r c] & -> & Hrc).
  destruct (Hall _ _ _ Hin Hrc), (Hpos _ _ _ Hin Hrc).
  by apply linear_cell_range.
Qed.

(** X21: [main] prints no board when some cell of the inferred grid is
    on no path.  With no negative coordinate in the paths file, if the cell
    (r0, c0) of the grid is visited by no path, then whatever the
    dictionary, all that [main] can print is "No solution found.". *)
Theorem main_no_board_on_unvisited_cell str_strip str_isalpha str_upper
    fuel data lines out r0 c0 :
  (forall coords r c, coords ∈ data -> (r, c) ∈ coords -> 0 <= r /\ 0 <= c) ->
  (let '(_, nrows, ncols, _) := load_paths data in
   0 <= r0 < nrows /\ 0 <= c0 < ncols) ->
  (forall coords, coords ∈ data -> (r0, c0) ∉ coords) ->
  main str_strip str_isalpha str_upper fuel data lines = Val out ->
  out = [no_solution_line].
Proof.
  intros Hpos Hcell Hfree H. unfold main in H.
  pose proof (main_paths_in_range data Hpos) as Hrange.
  pose proof (load_paths_spec data) as Hspec.
  unfold main_paths in *.
  destruct (load_paths data) as [[[raw nrows] ncols] max_len].
  destruct Hspec as (-> & _ & _ & Hall & _). destruct Hcell as [Hr0 Hc0].
  apply bind_Val in H as [[index all_mask] [Hb H]].
  apply bind_Val in H as [[res h] [Hs H]].
  pose proof (linear_cell_range nrows ncols r0 c0 Hr0 Hc0) as Hi.
  apply (solve_uncovered _ index all_mask (nrows * ncols) _
           (Z.to_nat (r0 * ncols + c0)) ALL Hrange) in Hs.
  - subst res. by simplify_eq.
  - lia.
  - intros cells L Hin Hc. rewrite Z2Nat.id in Hc by lia.
    apply list_elem_of_fmap in Hin as ([coords L'] & [= -> ->] & Hin).
    apply list_elem_of_fmap in Hin as (coords' & [= -> ->] & Hin).
    unfold linear_cells in Hc.
    apply list_elem_of_fmap in Hc as ([r c] & He & Hrc).
    destruct (Hall _ _ _ Hin Hrc), (Hpos _ _ _ Hin Hrc).
    destruct (linear_cell_inj ncols r0 c0 r c) as [-> ->]; [lia|lia|done|].
    by apply (Hfree coords').
  - done.
  - by vm_compute.
  - simpl. lia.
  - simpl. lia.
  - lia.
  - unfold deref. simpl. by rewrite length_replicate.
  - unfold deref. simpl. apply lookup_replicate_2. lia.
Qed.

Lemma main_no_board_on_unvisited_cell_witness :
  [no_solution_line] = [no_solution_line].
Proof.
  apply (main_no_board_on_unvisited_cell latin_strip latin_isalpha latin_upper 40
           [[(0, 0); (0, 1)]; [(0, 1); (1, 1)]]
           [codepoints "at"; codepoints "to"] [no_solution_line] 1 0).
  - intros coords r c Hin Hrc.
    repeat (apply elem_of_cons in Hin as [->|Hin];
            [repeat (apply elem_of_cons in Hrc as [[= -> ->]|Hrc]; [lia|]);
             by apply elem_of_nil in Hrc|]).
    by apply elem_of_nil in Hin.
  - simpl. lia.
  - intros coords Hin Hrc.
    repeat (apply elem_of_cons in Hin as [->|Hin];
            [repeat (apply elem_of_cons in Hrc as [[=]|Hrc]);
             by apply elem_of_nil in Hrc|]).
    by apply elem_of_nil in Hin.
  - by vm_compute.
Defined.

Lemma traverse_total {A B} (f : A -> outcome B) l :
  (forall x, x ∈ l -> exists y, f x = Val y) -> exists ys, traverse f l = Val ys.
Proof.
  induction l as [|x l IH]; intros Hf; simpl; [eauto|].
  destruct (Hf x) as [y ->]; [left|]. simpl.
  destruct IH as [ys ->]; [|simpl; eauto].
  intros x' Hx'. apply Hf. by right.
Qed.

Lemma board_row_total sol nrows ncols r :
  Forall single_letter sol -> length sol = Z.to_nat (nrows * ncols) ->
  (r < Z.to_nat nrows)%nat ->
  exists row, board_row sol ncols r = Val row.
Proof.
  intros Hsol Hlen Hr. unfold board_row. apply traverse_total.
  intros c Hc%elem_of_seq.
  pose proof (linear_cell_range nrows ncols (Z.of_nat r) (Z.of_nat c)
                ltac:(lia) ltac:(lia)) as Hi.
  rewrite py_index_nonneg by lia.
  destruct (lookup_lt_is_Some_2 sol (Z.to_nat (Z.of_nat r * ncols + Z.of_nat c)))
    as [mask Hmask]; [lia|].
  rewrite Hmask. simpl.
  rewrite Forall_forall in Hsol.
  destruct (Hsol mask ltac:(by eapply list_elem_of_lookup_2)) as (k & Hk & ->).
  unfold mask_to_letter, chr. rewrite Z.shiftl_1_l, bit_length_pow2 by lia.
  replace (65 + (k + 1 - 1)) with (65 + k) by lia.
  destruct (Z.leb_spec 0 (65 + k)); [|lia].
  destruct (Z.ltb_spec (65 + k) 1114112); [|lia].
  simpl. eauto.
Qed.

(** X22: [main] runs to its end.  With no negative coordinate in the
    paths file and no word twice among the accepted words of one length,
    [main] raises no exception and its search ends: it prints a grid or
    "No solution found.". *)
Theorem main_returns str_strip str_isalpha str_upper fuel data lines bound :
  (forall coords r c, coords ∈ data -> (r, c) ∈ coords -> 0 <= r /\ 0 <= c) ->
  distinct_words (main_words str_strip str_isalpha str_upper data lines) bound ->
  (let '(_, nrows, ncols, _) := load_paths data in
   solve_fuel (nrows * ncols) bound <= fuel)%nat ->
  exists out, main str_strip str_isalpha str_upper fuel data lines = Val out.
Proof.
  intros Hpos Hdist Hfuel. unfold main.
  pose proof (main_paths_in_range data Hpos) as Hrange.
  pose proof (main_paths_wf data) as Hwf.
  unfold main_paths, main_words in *.
  destruct (load_paths data) as [[[raw nrows] ncols] max_len].
  destruct (build_index_total
              (load_dictionary str_strip str_isalpha str_upper max_len lines)
              (load_dictionary_grouped _ _ _ _ _)) as (index & all_mask & Hb).
  rewrite Hb. simpl.
  pose proof (build_index_ok _ _ _ Hb) as Hok.
  assert (0 < ALL) as HALL by done.
  destruct (solve_complete _ index all_mask (nrows * ncols) _ bound
              Hok (load_dictionary_grouped _ _ _ _ _) Hwf Hrange Hdist
              (Z.to_nat (ALL * (nrows * ncols))) fuel 0%nat 1%nat
              (initial_store
                 (map (fun '(coords, L) => (linear_cells ncols coords, L)) raw)
                 all_mask (nrows * ncols)))
    as (res & h' & Hrun & _).
  - unfold solve_fuel in Hfuel. lia.
  - simpl. lia.
  - simpl. lia.
  - done.
  - unfold initial_store, deref. simpl. split_and!.
    + by rewrite length_replicate.
    + intros i Hi. exists ALL. split; [|lia]. by apply lookup_replicate.
    + by rewrite length_map.
  - unfold initial_store, deref. simpl. rewrite weigh_replicate.
    rewrite Z.max_r by lia. generalize dependent ALL. intros. nia.
  - unfold initial_store in Hrun. rewrite Hrun. simpl.
    destruct res as [sol|]; [|eauto].
    assert (board_sound
              (map (fun '(coords, L) => (linear_cells ncols coords, L)) raw)
              (load_dictionary str_strip str_isalpha str_upper max_len lines)
              (nrows * ncols) (deref h' sol)) as (Hlen & Hsingle & _).
    { eapply (solve_sound _ _ _ _ _ Hok (load_dictionary_grouped _ _ _ _ _) Hwf
                fuel 0%nat 1%nat); [| | | |exact Hrun].
      - simpl. lia.
      - simpl. lia.
      - lia.
      - apply length_replicate. }
    destruct (traverse_total (board_row (deref h' sol) ncols)
                (seq 0 (Z.to_nat nrows))) as [rows ->]; [|simpl; eauto].
    intros r Hr%elem_of_seq. apply (board_row_total _ nrows); [done|done|lia].
Qed.

Lemma main_returns_witness :
  exists out,
    main latin_strip latin_isalpha latin_upper
      (solve_fuel (2 * 2) 2) [[(0, 0); (0, 1)]; [(0, 1); (1, 1)]]
      [codepoints "at"; codepoints "to"] = Val out.
Proof.
  apply (main_returns latin_strip latin_isalpha latin_upper
           (solve_fuel (2 * 2) 2) [[(0, 0); (0, 1)]; [(0, 1); (1, 1)]]
           [codepoints "at"; codepoints "to"] 2).
  - intros coords r c Hin Hrc.
    repeat (apply elem_of_cons in Hin as [->|Hin];
            [repeat (apply elem_of_cons in Hrc as [[= -> ->]|Hrc]; [lia|]);
             by apply elem_of_nil in Hrc|]).
    by apply elem_of_nil in Hin.
  - change (main_words latin_strip latin_isalpha latin_upper
              [[(0, 0); (0, 1)]; [(0, 1); (1, 1)]]
              [codepoints "at"; codepoints "to"]) with at_to.
    intros L ws Hl. unfold at_to in Hl.
    apply lookup_singleton_Some in Hl as [<- <-]. split; [|simpl; lia].
    apply NoDup_cons. split; [intros Hin|apply NoDup_singleton].
    repeat (apply elem_of_cons in Hin as [[=]|Hin]). by apply elem_of_nil in Hin.
  - apply le_n.
Defined.

(** ** The state [propagate] leaves *)

(** X23: when [propagate] returns [True] the two lists agree with each
    other.  The entry of every path in [path_cands] is the non-empty set
    that [compute_path_candidates] gives for the path under the final
    domains, and the domain of the cell at every position of a path holds
    only letters that some candidate of the path has at that position. *)
Theorem propagate_true_consistent paths index all_mask n_cells fuel
    ds pcs ds' pcs' :
  length ds = Z.to_nat n_cells ->
  propagate paths index all_mask n_cells fuel (ds, pcs) = Val (true, (ds', pcs')) ->
  exists fuel',
    (forall pid cells L, paths !! pid = Some (cells, L) ->
       exists c, pcs' !! pid = Some c /\ c <> 0
                 /\ compute_path_candidates index all_mask fuel' cells L ds' = Val c) /\
    (forall pid cells L pos cell,
       paths !! pid = Some (cells, L) -> cells !! pos = Some cell ->
       exists cands idxL index_pos letters d,
         pcs' !! pid = Some cands /\ index !! L = Some idxL
         /\ idxL !! pos = Some index_pos
         /\ possible_letters_at_pos cands index_pos = Val letters
         /\ py_index ds' cell = Some d /\ bits_sub d letters).
Proof.
  intros Hlen H. apply propagate_true in H as [[Hlen' _] [f' Hstable]].
  exists f'.
  destruct (propagate_pass_go _ _ _ _ _ _ _ _ _ _ Hstable)
    as ((_ & _ & Hupd & _) & (nd & Hnd & [Hlnd _] & Hnar) & _).
  rewrite length_replicate in Hlnd. split.
  - intros pid cells L Hpid.
    destruct (Hupd pid cells L) as (c & Hc & Hnz & Hpc);
      [by eapply lookup_lt_Some|done|].
    by exists c.
  - intros pid cells L pos cell Hpid Hpos.
    destruct (narrow_paths_bound _ _ _ _ _ Hnd pid cells L pos cell Hpid Hpos)
      as (cands & idxL & ip & mask & Hc & Hi & Hip & Hmask & v & Hv & Hvm).
    unfold py_index in Hv.
    destruct (py_pos nd cell) as [i|] eqn:Hpp; simpl in Hv; [|done].
    pose proof (py_pos_lt _ _ _ Hpp) as Hi'.
    destruct (Hnar i ltac:(lia)) as (n & d & Hn & Hd & _ & Hland).
    assert (n = v) as -> by congruence.
    exists cands, idxL, ip, mask, d. split_and!; [done..| |].
    + unfold py_index.
      rewrite (py_pos_length ds' nd cell) by congruence. by rewrite Hpp.
    + eapply bits_sub_trans; [|done]. unfold bits_sub.
      rewrite Z.land_comm. congruence.
Qed.

Lemma propagate_true_consistent_witness :
  exists fuel',
    (forall pid cells L, square !! pid = Some (cells, L) ->
       exists c, [1; 2; 6] !! pid = Some c /\ c <> 0
                 /\ compute_path_candidates at_to_so_index at_to_so_mask fuel' cells L
                      [1; 524288; 786432; 16384] = Val c) /\
    (forall pid cells L pos cell,
       square !! pid = Some (cells, L) -> cells !! pos = Some cell ->
       exists cands idxL index_pos letters d,
         [1; 2; 6] !! pid = Some cands /\ at_to_so_index !! L = Some idxL
         /\ idxL !! pos = Some index_pos
         /\ possible_letters_at_pos cands index_pos = Val letters
         /\ py_index [1; 524288; 786432; 16384] cell = Some d /\ bits_sub d letters).
Proof.
  apply (propagate_true_consistent square at_to_so_index at_to_so_mask 4 30
           [ALL; ALL; ALL; ALL] [7; 7; 7]).
  - reflexivity.
  - by vm_compute.
Defined.

(** ** No candidate set grows after a completed pass *)

Lemma nonzero_bit c : c <> 0 -> exists i, 0 <= i /\ Z.testbit c i = true.
Proof.
  intros Hc. destruct (Z.lt_trichotomy c 0) as [Hneg|[->|Hpos]]; [|done|].
  - exists (Z.log2 (Z.abs c) + 1).
    pose proof (Z.log2_nonneg (Z.abs c)). split; [lia|].
    apply Z.bits_iff_neg; lia.
  - exists (Z.log2 c). split; [apply Z.log2_nonneg|by apply Z.bit_log2].
Qed.

(** Candidates computed from narrower domains are candidates under the
    wider ones, when the wider ones leave the path a candidate at all. *)
Lemma candidates_shrink index all_mask f f' cells L ds ds' c c' :
  all_sub ds' ds ->
  compute_path_candidates index all_mask f cells L ds = Val c -> c <> 0 ->
  compute_path_candidates index all_mask f' cells L ds' = Val c' ->
  bits_sub c' c.
Proof.
  intros [Hlen Hsub] Hc Hnz Hc'. destruct (index !! L) as [idxL|] eqn:Hi.
  2:{ rewrite compute_path_candidates_no_index in Hc by done. congruence. }
  destruct (compute_path_candidates_bits _ _ _ _ _ _ _ _ Hc Hi) as (am & Ham & Hb).
  destruct (compute_path_candidates_bits _ _ _ _ _ _ _ _ Hc' Hi) as (am' & Ham' & Hb').
  assert (am' = am) as -> by congruence.
  destruct (nonzero_bit c Hnz) as (w0 & _ & Hw0). apply Hb in Hw0 as [_ Hsup0].
  apply bits_sub_of_testbit. intros w Hw. apply Hb' in Hw as [Hwam Hsup].
  apply Hb. split; [done|]. intros j cell Hj.
  destruct (Hsup j cell Hj) as (d' & ip & Hd' & Hip & l & b & Hl & Hlb & Hbw).
  destruct (Hsup0 j cell Hj) as (d & ip0 & Hd & Hip0 & l0 & _ & Hl0 & _).
  apply set_bits_elem in Hl0 as (Hdpos & _). apply set_bits_elem in Hl as (_ & Hl & Hdl).
  exists d, ip. split_and!; [done|done|]. exists l, b. split_and!; [|done..].
  apply elem_of_set_bits; [lia|]. split; [done|].
  unfold py_index in Hd, Hd'. rewrite (py_pos_length ds' ds cell Hlen) in Hd'.
  destruct (py_pos ds cell) as [n|]; simpl in *; [|done].
  destruct (Hsub _ _ Hd') as (d0 & Hd0 & Hs). assert (d0 = d) as -> by congruence.
  by eapply bits_sub_testbit.
Qed.

(** C3 (amended): across one propagation pass, however it ends, no cell
    domain gains a bit.  A path's candidate set is either left as it was or
    replaced by the set [compute_path_candidates] derives from the all-words
    set of its length and the domains before the pass, not from its
    previous value; it therefore stays inside the all-words set.  No
    candidate set gains a bit in a pass that starts from the all-words
    sets, nor in a pass that follows a pass that ran to its end: from the
    second pass of a call of [propagate] on, candidate sets only lose bits
    or stay equal. *)
Theorem propagate_pass_shrinks paths index all_mask n_cells fuel ds pcs r :
  propagate_pass paths index all_mask n_cells fuel (ds, pcs) = Val r ->
  (forall i old new,
      ds !! i = Some old -> fst (pass_state r) !! i = Some new ->
      ~ gains_bit old new) /\
  (forall pid old new,
      pcs !! pid = Some old -> snd (pass_state r) !! pid = Some new ->
      new = old \/
      exists cells L am,
        paths !! pid = Some (cells, L)
        /\ compute_path_candidates index all_mask fuel cells L ds = Val new
        /\ all_mask !! L = Some am /\ bits_sub new am) /\
  (forall pid old new,
      pcs !! pid = Some old -> snd (pass_state r) !! pid = Some new ->
      (forall cells L, paths !! pid = Some (cells, L) ->
                       old = default 0 (all_mask !! L)) ->
      ~ gains_bit old new) /\
  (forall fuel0 ds0 pcs0 ch0,
      propagate_pass paths index all_mask n_cells fuel0 (ds0, pcs0)
      = Val (Go ((ds, pcs), ch0)) ->
      forall pid old new,
        pcs !! pid = Some old -> snd (pass_state r) !! pid = Some new ->
        ~ gains_bit old new).
Proof.
  intros H. apply propagate_pass_state in H as [[_ Hsub] [j Hup]]. split_and!.
  - intros i old new Hold Hnew.
    destruct (Hsub i new Hnew) as (d & Hd & Hs).
    assert (d = old) as -> by congruence. by apply bits_sub_no_gain.
  - intros pid old new Hold Hnew.
    by apply (paths_updated_entry _ _ _ _ _ _ _ _ _ _ _ Hup Hold Hnew).
  - intros pid old new Hold Hnew Hall. apply bits_sub_no_gain.
    destruct (paths_updated_entry _ _ _ _ _ _ _ _ _ _ _ Hup Hold Hnew)
      as [->|(cells & L & am & Hp & _ & Ham & Hs)]; [apply bits_sub_refl|].
    rewrite (Hall cells L Hp), Ham. done.
  - intros fuel0 ds0 pcs0 ch0 H0 pid old new Hold Hnew. apply bits_sub_no_gain.
    destruct (paths_updated_entry _ _ _ _ _ _ _ _ _ _ _ Hup Hold Hnew)
      as [->|(cells & L & am & Hp & Hc & _)]; [apply bits_sub_refl|].
    destruct (propagate_pass_go _ _ _ _ _ _ _ _ _ _ H0)
      as ((_ & _ & Hupd0 & _) & _ & Hsub0 & _).
    destruct (Hupd0 pid cells L) as (c0 & Hc0 & Hnz & Hpc0);
      [by eapply lookup_lt_Some|done|].
    assert (c0 = old) as -> by congruence.
    by eapply candidates_shrink.
Qed.

Lemma propagate_pass_shrinks_witness :
  (forall i old new,
      [786433; 524288; 786433; 540672] !! i = Some old ->
      [1; 524288; 786433; 16384] !! i = Some new -> ~ gains_bit old new) /\
  (forall pid old new,
      [7; 7; 7] !! pid = Some old -> [1; 2; 7] !! pid = Some new ->
      ~ gains_bit old new).
Proof.
  destruct (propagate_pass_shrinks square at_to_so_index at_to_so_mask 4 30
              [786433; 524288; 786433; 540672] [7; 7; 7]
              (Go (([1; 524288; 786433; 16384], [1; 2; 7]), true))
              ltac:(vm_compute; reflexivity)) as (Hcells & _ & _ & Hpaths).
  split; [exact Hcells|].
  exact (Hpaths 30%nat [ALL; ALL; ALL; ALL] [7; 7; 7] true
           ltac:(vm_compute; reflexivity)).
Defined.

(** ** What [main] prints *)

(** A row of a board of single letters: [board_row] returns it, one
    capital letter per column, the letter of the cell. *)
Lemma board_row_spec sol nrows ncols r :
  Forall single_letter sol -> length sol = Z.to_nat (nrows * ncols) ->
  (r < Z.to_nat nrows)%nat ->
  exists row,
    board_row sol ncols r = Val row /\
    forall c ch, row !! c = Some ch ->
      exists k, 0 <= k < 26
        /\ sol !! Z.to_nat (Z.of_nat r * ncols + Z.of_nat c) = Some (Z.shiftl 1 k)
        /\ ch = 65 + k.
Proof.
  intros Hsol Hlen Hr.
  destruct (board_row_total sol nrows ncols r Hsol Hlen Hr) as [row Hrow].
  exists row. split; [done|]. intros c ch Hch.
  unfold board_row in Hrow. apply traverse_spec in Hrow.
  destruct (Forall2_lookup_r _ _ _ _ _ Hrow Hch) as (c' & Hc' & Hf).
  apply lookup_seq in Hc' as [-> Hc]. simpl in Hf.
  apply bind_Val in Hf as (mask & Hm%indexed_Val & Hf).
  pose proof (linear_cell_range nrows ncols (Z.of_nat r) (Z.of_nat c)
                ltac:(lia) ltac:(lia)) as Hi.
  rewrite py_index_nonneg in Hm by lia.
  rewrite Forall_forall in Hsol.
  destruct (Hsol mask ltac:(by eapply list_elem_of_lookup_2)) as (k & Hk & ->).
  exists k. split_and!; [lia|lia|done|].
  unfold mask_to_letter, chr in Hf.
  rewrite Z.shiftl_1_l, bit_length_pow2 in Hf by lia.
  destruct (_ && _); simplify_eq. lia.
Qed.

(** C4: [main] never prints a partially resolved grid.  [build_index]
    returns on the loaded dictionary, and whenever [solve] then returns,
    [main] prints: for [None], the single line "No solution found." and no
    grid; for a list, a list with one domain per cell, each of exactly one
    letter, and the full grid, every cell printed as the capital letter A-Z
    of its domain, [mask_to_letter] raising on none of them.  And [main]
    prints nothing unless [solve] has returned. *)
Theorem main_prints_grid_or_signal str_strip str_isalpha str_upper fuel data lines :
  let '(_, nrows, ncols, _) := load_paths data in
  let words_by_len := main_words str_strip str_isalpha str_upper data lines in
  let paths := main_paths data in
  exists index all_mask,
    build_index words_by_len = Val (index, all_mask) /\
    (forall res h,
       solve paths index all_mask (nrows * ncols) words_by_len fuel 0%nat 1%nat
         [replicate (Z.to_nat (nrows * ncols)) ALL;
          map (fun p : path => default 0 (all_mask !! snd p)) paths]
       = Val (res, h) ->
       match res with
       | None =>
           main str_strip str_isalpha str_upper fuel data lines
           = Val [no_solution_line]
       | Some sol =>
           length (deref h sol) = Z.to_nat (nrows * ncols) /\
           Forall single_letter (deref h sol) /\
           exists rows,
             main str_strip str_isalpha str_upper fuel data lines
             = Val (map join_spaces rows)
             /\ letter_grid nrows ncols rows
             /\ forall r c row ch,
                  rows !! r = Some row -> row !! c = Some ch ->
                  exists k, 0 <= k < 26
                    /\ deref h sol !! Z.to_nat (Z.of_nat r * ncols + Z.of_nat c)
                       = Some (Z.shiftl 1 k)
                    /\ ch = 65 + k
       end) /\
    (forall out,
       main str_strip str_isalpha str_upper fuel data lines = Val out ->
       exists res h,
         solve paths index all_mask (nrows * ncols) words_by_len fuel 0%nat 1%nat
           [replicate (Z.to_nat (nrows * ncols)) ALL;
            map (fun p : path => default 0 (all_mask !! snd p)) paths]
         = Val (res, h)).
Proof.
  pose proof (main_paths_wf data) as Hwf. unfold main.
  unfold main_words, main_paths in *.
  destruct (load_paths data) as [[[raw nrows] ncols] max_len].
  destruct (build_index_total
              (load_dictionary str_strip str_isalpha str_upper max_len lines)
              (load_dictionary_grouped _ _ _ _ _)) as (index & all_mask & Hb).
  exists index, all_mask. split; [done|]. rewrite Hb. simpl. split.
  - intros res h Hs. rewrite Hs. simpl. destruct res as [sol|]; [|done].
    assert (board_sound
              (map (fun '(coords, L) => (linear_cells ncols coords, L)) raw)
              (load_dictionary str_strip str_isalpha str_upper max_len lines)
              (nrows * ncols) (deref h sol)) as (Hlen & Hsingle & _).
    { eapply (solve_sound _ _ _ _ _ (build_index_ok _ _ _ Hb)
                (load_dictionary_grouped _ _ _ _ _) Hwf fuel 0%nat 1%nat);
        [| | | |exact Hs].
      - simpl. lia.
      - simpl. lia.
      - lia.
      - apply length_replicate. }
    split; [done|]. split; [done|].
    destruct (traverse_total (board_row (deref h sol) ncols)
                (seq 0 (Z.to_nat nrows))) as [rows Hrows].
    { intros r Hr%elem_of_seq. apply (board_row_total _ nrows); [done|done|lia]. }
    exists rows. rewrite Hrows. simpl. split; [done|].
    apply traverse_spec in Hrows. split; [split|].
    + apply Forall2_length in Hrows. by rewrite length_seq in Hrows.
    + apply Forall_forall. intros row [i Hi]%list_elem_of_lookup.
      destruct (Forall2_lookup_r _ _ _ _ _ Hrows Hi) as (r & _ & Hr).
      by eapply board_row_letters.
    + intros r c row ch Hrow Hch.
      destruct (Forall2_lookup_r _ _ _ _ _ Hrows Hrow) as (r' & Hr' & Hr).
      apply lookup_seq in Hr' as [-> Hlt]. simpl in Hr.
      destruct (board_row_spec (deref h sol) nrows ncols r Hsingle Hlen Hlt)
        as (row' & Hrow' & Hcells).
      assert (row' = row) as -> by congruence. by apply Hcells.
  - intros out H. apply bind_Val in H as [[res h] [Hs _]]. eauto.
Qed.

Lemma main_prints_grid_or_signal_witness :
  exists rows,
    main latin_strip latin_isalpha latin_upper 40
      [[(0, 0); (0, 1)]; [(0, 1); (1, 1)]; [(1, 0); (1, 1)]]
      [codepoints "at"; codepoints "to"; codepoints "so"]
    = Val (map join_spaces rows)
    /\ letter_grid 2 2 rows
    /\ forall r c row ch,
         rows !! r = Some row -> row !! c = Some ch ->
         exists k, 0 <= k < 26
           /\ [1; 524288; 524288; 16384] !! Z.to_nat (Z.of_nat r * 2 + Z.of_nat c)
              = Some (Z.shiftl 1 k)
           /\ ch = 65 + k.
Proof.
  pose proof (main_prints_grid_or_signal latin_strip latin_isalpha latin_upper 40
                [[(0, 0); (0, 1)]; [(0, 1); (1, 1)]; [(1, 0); (1, 1)]]
                [codepoints "at"; codepoints "to"; codepoints "so"]) as H.
  change (load_paths [[(0, 0); (0, 1)]; [(0, 1); (1, 1)]; [(1, 0); (1, 1)]])
    with ([([(0, 0); (0, 1)], 2%nat); ([(0, 1); (1, 1)], 2%nat);
           ([(1, 0); (1, 1)], 2%nat)], 2, 2, 2%nat) in H.
  cbv zeta iota beta in H.
  destruct H as (index & all_mask & Hb & Hsolve & _).
  change (main_words latin_strip latin_isalpha latin_upper
            [[(0, 0); (0, 1)]; [(0, 1); (1, 1)]; [(1, 0); (1, 1)]]
            [codepoints "at"; codepoints "to"; codepoints "so"])
    with at_to_so in Hb, Hsolve.
  change (main_paths [[(0, 0); (0, 1)]; [(0, 1); (1, 1)]; [(1, 0); (1, 1)]])
    with square in Hsolve.
  assert (index = at_to_so_index /\ all_mask = at_to_so_mask) as [-> ->].
  { assert (build_index at_to_so = Val (at_to_so_index, at_to_so_mask))
      as Hb' by (by vm_compute).
    rewrite Hb' in Hb. by simplify_eq. }
  destruct (Hsolve (Some 2%nat)
              [[1; 524288; 786432; 16384]; [1; 2; 6];
               [1; 524288; 524288; 16384]; [1; 2; 2]]
              ltac:(by vm_compute)) as (_ & _ & rows & Hmain & Hgrid & Hcells).
  exists rows. split; [exact Hmain|]. split; [exact Hgrid|exact Hcells].
Defined.

(** ** The forcing loop *)

Lemma shiftl_1_land a b :
  0 <= a -> 0 <= b -> Z.land (Z.shiftl 1 a) (Z.shiftl 1 b) <> 0 -> a = b.
Proof.
  intros Ha Hb Hnz. destruct (decide (a = b)) as [|Hne]; [done|]. exfalso. apply Hnz.
  apply Z.bits_inj'. intros i Hi. rewrite Z.land_spec, Z.bits_0.
  destruct (Z.testbit (Z.shiftl 1 a) i) eqn:E; [|done].
  apply testbit_single in E as ->; [|done].
  destruct (Z.testbit (Z.shiftl 1 b) a) eqn:E'; [|done].
  apply testbit_single in E'; [|done]. congruence.
Qed.

Lemma land_single_testbit d l :
  0 <= l -> Z.land d (Z.shiftl 1 l) <> 0 <-> Z.testbit d l = true.
Proof.
  intros Hl. split.
  - intros Hnz. destruct (Z.testbit d l) eqn:E; [done|]. exfalso. apply Hnz.
    apply Z.bits_inj'. intros i Hi. rewrite Z.land_spec, Z.bits_0.
    destruct (Z.testbit (Z.shiftl 1 l) i) eqn:E'; [|by rewrite andb_false_r].
    apply testbit_single in E' as ->; [|done]. by rewrite E.
  - intros Hb. eapply land_testbit_nonzero; [done|]. by apply testbit_single.
Qed.

(** One turn of the forcing loop that goes on. *)
Lemma force_step_go w p cell ds ds' :
  force_step w p cell ds = Val (Go ds') <->
  exists ch i d,
    w !! p = Some ch /\ 0 <= ch - 65 /\ py_pos ds cell = Some i /\ ds !! i = Some d
    /\ Z.testbit d (ch - 65) = true /\ ds' = <[i := Z.shiftl 1 (ch - 65)]> ds.
Proof.
  unfold force_step, py_index, py_store. split.
  - intros H. apply bind_Val in H as (ch & Hch%indexed_Val & H).
    destruct (Z.ltb_spec (ch - 65) 0); [done|].
    apply bind_Val in H as (old & Hold%indexed_Val & H).
    destruct (py_pos ds cell) as [i|]; simpl in *; [|done].
    destruct (Z.eqb_spec (Z.land old (Z.shiftl 1 (ch - 65))) 0); [done|].
    simplify_eq/=. exists ch, i, old. split_and!; try done.
    by apply land_single_testbit.
  - intros (ch & i & d & -> & Hl & -> & Hd & Hb & ->). simpl.
    destruct (Z.ltb_spec (ch - 65) 0); [lia|]. rewrite Hd. simpl.
    apply land_single_testbit in Hb; [|done].
    by destruct (Z.eqb_spec (Z.land d (Z.shiftl 1 (ch - 65))) 0).
Qed.

(** One turn of the forcing loop that breaks. *)
Lemma force_step_stop w p cell ds ds1 :
  force_step w p cell ds = Val (Stop ds1) <->
  exists ch old,
    w !! p = Some ch /\ 0 <= ch - 65 /\ py_index ds cell = Some old
    /\ Z.land old (Z.shiftl 1 (ch - 65)) = 0 /\ ds1 = ds.
Proof.
  unfold force_step. split.
  - intros H. apply bind_Val in H as (ch & Hch%indexed_Val & H).
    destruct (Z.ltb_spec (ch - 65) 0); [done|].
    apply bind_Val in H as (old & Hold%indexed_Val & H).
    destruct (Z.eqb_spec (Z.land old (Z.shiftl 1 (ch - 65))) 0).
    + simplify_eq. by exists ch, old.
    + apply bind_Val in H as (? & _ & ?). done.
  - intros (ch & old & -> & Hl & -> & Hz & ->). simpl.
    destruct (Z.ltb_spec (ch - 65) 0); [lia|].
    by destruct (Z.eqb_spec (Z.land old (Z.shiftl 1 (ch - 65))) 0).
Qed.

Lemma forced_nil p0 w ds ds2 : forced p0 w [] ds ds2 <-> ds2 = ds.
Proof.
  split.
  - intros (Hlen & _ & Hrest). apply list_eq. intros i. apply Hrest.
    intros k cell Hk. by rewrite lookup_nil in Hk.
  - intros ->. split_and!; [done| |done]. intros k cell Hk. by rewrite lookup_nil in Hk.
Qed.

(** Forcing a path is forcing its first cell, then the others. *)
Lemma forced_cons p0 w cell rest ds ds2 :
  forced p0 w (cell :: rest) ds ds2 <->
  exists ch i d,
    w !! p0 = Some ch /\ 0 <= ch - 65 /\ py_pos ds cell = Some i /\ ds !! i = Some d
    /\ Z.testbit d (ch - 65) = true
    /\ forced (S p0) w rest (<[i := Z.shiftl 1 (ch - 65)]> ds) ds2.
Proof.
  split.
  - intros (Hlen & Hcells & Hrest).
    destruct (Hcells 0%nat cell eq_refl) as (ch & i & d & Hch & Hl & Hi & Hd & Hb & H2).
    rewrite Nat.add_0_r in Hch.
    exists ch, i, d. split_and!; try done. split_and!.
    + by rewrite length_insert.
    + intros k c Hk.
      destruct (Hcells (S k) c Hk) as (ch' & i' & d' & Hch' & Hl' & Hi' & Hd' & Hb' & H2').
      replace (p0 + S k)%nat with (S p0 + k)%nat in Hch' by lia.
      unfold py_pos in *. rewrite length_insert.
      destruct (decide (i' = i)) as [->|Hne].
      * exists ch', i, (Z.shiftl 1 (ch - 65)).
        assert (ch' - 65 = ch - 65) as He.
        { assert (Z.shiftl 1 (ch' - 65) = Z.shiftl 1 (ch - 65)) as Hm by congruence.
          apply shiftl_1_land; [done|done|]. rewrite Hm, Z.land_diag.
          rewrite Z.shiftl_1_l. apply Z.pow_nonzero; lia. }
        split_and!; try done.
        -- apply list_lookup_insert_eq. by eapply lookup_lt_Some.
        -- rewrite He. by apply testbit_single.
      * exists ch', i', d'. split_and!; try done.
        by rewrite list_lookup_insert_ne.
    + intros j Hj. unfold py_pos in Hj. rewrite length_insert in Hj.
      destruct (decide (j = i)) as [->|Hne].
      * rewrite H2. symmetry. apply list_lookup_insert_eq. by eapply lookup_lt_Some.
      * rewrite list_lookup_insert_ne by done. apply Hrest.
        intros [|k] c Hk; simplify_eq/=; [congruence|]. by eapply Hj.
  - intros (ch & i & d & Hch & Hl & Hi & Hd & Hb & Hlen & Hcells & Hrest).
    rewrite length_insert in Hlen.
    assert (forall c, py_pos (<[i := Z.shiftl 1 (ch - 65)]> ds) c = py_pos ds c) as Hpp.
    { intros c. unfold py_pos. by rewrite length_insert. }
    assert (ds2 !! i = Some (Z.shiftl 1 (ch - 65))) as H2.
    { destruct (decide (Some i ∈ (py_pos ds <$> rest))) as [Hin|Hnin].
      - apply list_elem_of_fmap in Hin as (c & Hc & [k Hk]%list_elem_of_lookup).
        destruct (Hcells k c Hk) as (ch' & i' & d' & Hch' & Hl' & Hi' & Hd' & Hb' & H2').
        rewrite Hpp in Hi'. assert (i' = i) as -> by congruence.
        rewrite list_lookup_insert_eq in Hd' by (by eapply lookup_lt_Some).
        simplify_eq. apply testbit_single in Hb'; [|done]. by rewrite <- Hb'.
      - rewrite Hrest.
        + apply list_lookup_insert_eq. by eapply lookup_lt_Some.
        + intros k c Hk Hc. rewrite Hpp in Hc. apply Hnin.
          apply list_elem_of_fmap. exists c. split; [done|].
          by eapply list_elem_of_lookup_2. }
    split_and!; [done| |].
    + intros [|k] c Hk; simplify_eq/=.
      * exists ch, i, d. rewrite Nat.add_0_r. by split_and!.
      * destruct (Hcells k c Hk) as (ch' & i' & d' & Hch' & Hl' & Hi' & Hd' & Hb' & H2').
        rewrite Hpp in Hi'.
        assert (w !! (p0 + S k)%nat = Some ch') as Hch2 by (by rewrite Nat.add_succ_r).
        destruct (decide (i' = i)) as [->|Hne].
        -- rewrite list_lookup_insert_eq in Hd' by (by eapply lookup_lt_Some).
           simplify_eq. apply testbit_single in Hb'; [|done].
           exists ch', i, d. rewrite Hb'. by split_and!.
        -- rewrite list_lookup_insert_ne in Hd' by done.
           exists ch', i', d'. by split_and!.
    + intros j Hj.
      assert (j <> i) as Hne by (intros ->; by apply (Hj 0%nat cell)).
      rewrite Hrest; [by rewrite list_lookup_insert_ne|].
      intros k c Hk. rewrite Hpp. by apply (Hj (S k) c).
Qed.

(** The forcing loop runs to its end exactly when the word fits. *)
Lemma force_loop_go w : forall cells p0 ds ds2,
  for_enum (force_step w) p0 cells ds = Val (Go ds2) <-> forced p0 w cells ds ds2.
Proof.
  induction cells as [|cell rest IH]; intros p0 ds ds2.
  - rewrite forced_nil. simpl. split; [by intros [= ->]|by intros ->].
  - rewrite forced_cons. cbn [for_enum]. split.
    + intros H. apply bind_Val in H as (r1 & Hstep & H).
      destruct r1 as [ds'|?]; [|done].
      apply force_step_go in Hstep as (ch & i & d & ? & ? & ? & ? & ? & ->).
      exists ch, i, d. split_and!; try done. by apply IH.
    + intros (ch & i & d & Hch & Hl & Hi & Hd & Hb & Hf).
      assert (force_step w p0 cell ds = Val (Go (<[i := Z.shiftl 1 (ch - 65)]> ds)))
        as -> by (apply force_step_go; by exists ch, i, d).
      simpl. by apply IH.
Qed.

(** The forcing loop breaks exactly on a conflict, and leaves the list
    as forced so far. *)
Lemma force_loop_stop w : forall cells p0 ds ds1,
  for_enum (force_step w) p0 cells ds = Val (Stop ds1) <-> conflict p0 w cells ds ds1.
Proof.
  induction cells as [|cell rest IH]; intros p0 ds ds1.
  - simpl. split; [done|]. intros (k & c & ? & ? & Hk & _). by rewrite lookup_nil in Hk.
  - cbn [for_enum]. split.
    + intros H. apply bind_Val in H as (r1 & Hstep & H).
      destruct r1 as [ds'|x].
      * apply IH in H as (k & c & ch & old & Hk & Hch & Hl & Hf & Hold & Hz).
        exists (S k), c, ch, old.
        replace (p0 + S k)%nat with (S p0 + k)%nat by lia.
        split_and!; try done. simpl. apply forced_cons.
        apply force_step_go in Hstep as (ch0 & i & d & ? & ? & ? & ? & ? & ->).
        by exists ch0, i, d.
      * simplify_eq.
        apply force_step_stop in Hstep as (ch & old & Hch & Hl & Hold & Hz & ->).
        exists 0%nat, cell, ch, old. rewrite Nat.add_0_r.
        split_and!; first [done | by apply forced_nil].
    + intros (k & c & ch & old & Hk & Hch & Hl & Hf & Hold & Hz).
      destruct k as [|k]; simpl in Hk, Hf.
      * simplify_eq. apply forced_nil in Hf as ->. rewrite Nat.add_0_r in Hch.
        assert (force_step w p0 c ds = Val (Stop ds)) as ->
          by (apply force_step_stop; by exists ch, old).
        done.
      * apply forced_cons in Hf as (ch0 & i & d & Hch0 & Hl0 & Hi & Hd & Hb & Hf).
        assert (force_step w p0 cell ds = Val (Go (<[i := Z.shiftl 1 (ch0 - 65)]> ds)))
          as -> by (apply force_step_go; by exists ch0, i, d).
        simpl. apply IH. exists k, c, ch, old.
        replace (S p0 + k)%nat with (p0 + S k)%nat by lia. by split_and!.
Qed.

(** ** The loop over the candidate words *)

Lemma branch_heap_eq (h : heap) d pc pid wid ds2 :
  (pc < length h)%nat ->
  branch_heap h d pc pid wid ds2
  = h ++ [ds2; <[pid := Z.shiftl 1 wid]> (deref h pc)].
Proof.
  intros Hpc. apply list_eq. intros l.
  pose proof (branch_heap_length h d pc pid wid ds2) as Hlen.
  destruct (decide (l < length h)%nat) as [Hl|Hl].
  - destruct (branch_heap_extends h d pc pid wid ds2) as [_ Hsame].
    rewrite Hsame by done. by rewrite lookup_app_l.
  - rewrite lookup_app_r by lia.
    destruct (l - length h)%nat as [|[|k]] eqn:E; simpl.
    + assert (l = length h) as -> by lia.
      pose proof (branch_heap_domains h d pc pid wid ds2) as Hd. unfold deref in Hd.
      destruct (branch_heap h d pc pid wid ds2 !! length h) eqn:E'; simpl in Hd;
        [congruence|].
      apply lookup_ge_None in E'. lia.
    + assert (l = S (length h)) as -> by lia.
      pose proof (branch_heap_cands h d pc pid wid ds2 Hpc) as Hc. unfold deref in Hc at 1.
      destruct (branch_heap h d pc pid wid ds2 !! S (length h)) eqn:E'; simpl in Hc;
        [congruence|].
      apply lookup_ge_None in E'. lia.
    + apply lookup_ge_None. lia.
Qed.

(** The loop of [solve] over a list of word IDs returns what [tries]
    describes. *)
Lemma for_each_tries rec d pc pid cells words :
  (forall d2 pc2 (h2 : heap) res h3,
      rec d2 pc2 h2 = Val (res, h3) -> (length h2 <= length h3)%nat) ->
  forall wids (h : heap) t,
    (pc < length h)%nat -> Forall (fun wid => 0 <= wid) wids ->
    for_each (try_branch rec d pc pid cells words) wids h = Val t <->
    tries rec d pc pid cells words wids h (loop_result t).
Proof.
  intros Hrec. induction wids as [|wid wids IH]; intros h t Hpc Hpos.
  - simpl. split.
    + intros [= <-]. constructor.
    + intros H. inversion H; subst. destruct t as [?|[??]]; simplify_eq/=. done.
  - apply Forall_cons in Hpos as [Hwid Hpos]. cbn [for_each].
    rewrite try_branch_unfold. destruct (Z.ltb_spec wid 0) as [?|_]; [lia|].
    split.
    + intros H. apply bind_Val in H as (t1 & H1 & H).
      apply bind_Val in H1 as (w & Hw%indexed_Val & H1).
      apply bind_Val in H1 as (rl & Hloop & H1).
      destruct rl as [ds2|ds1]; rewrite branch_heap_eq in H1 by done.
      * apply force_loop_go in Hloop.
        apply bind_Val in H1 as ([res h'] & Hcall & H1).
        destruct res as [res|]; simplify_eq.
        -- simplify_eq/=. by eapply tries_found.
        -- eapply tries_fail; [done|done|done|]. apply IH; [|done|done].
           apply Hrec in Hcall. rewrite length_app in Hcall. simpl in Hcall. lia.
      * apply force_loop_stop in Hloop. simplify_eq.
        eapply tries_skip; [done|done|]. apply IH; [|done|done].
        rewrite length_app. simpl. lia.
    + intros Ht. inversion Ht as [|? ? ? w ds1 r Hw Hc Hrest|? ? ? w ds2 h' r Hw Hf Hcall Hrest
                                |? ? ? w ds2 res h' Hw Hf Hcall]; subst.
      * rewrite Hw. simpl. apply force_loop_stop in Hc. rewrite Hc. simpl.
        rewrite branch_heap_eq by done. apply IH; [|done|done].
        rewrite length_app. simpl. lia.
      * rewrite Hw. simpl. apply force_loop_go in Hf. rewrite Hf. simpl.
        rewrite branch_heap_eq by done. rewrite Hcall. simpl.
        apply IH; [|done|done].
        apply Hrec in Hcall. rewrite length_app in Hcall. simpl in Hcall. lia.
      * rewrite Hw. simpl. apply force_loop_go in Hf. rewrite Hf. simpl.
        rewrite branch_heap_eq by done. rewrite Hcall. simpl.
        destruct t as [?|[??]]; simplify_eq/=. done.
Qed.

(** C8: the branching order of [solve].  When propagation succeeds and the
    board is not solved, [solve] branches on the path that
    [choose_branch_path] picks: the one with the fewest candidates among the
    paths with more than one, the earliest among equals.  It then tries the
    candidate words of that path in strictly increasing word-ID order, each
    on its own copies of the two lists: a word that conflicts with a domain
    is skipped, a word that fits is forced and [solve] is called on the
    copies.  What [solve] returns is the list returned by the first of
    these calls that returns one, no later word being tried, and [None]
    when every word was skipped or its call returned [None]. *)
Theorem solve_branching_order paths index all_mask n_cells words_by_len fuel
    d pc (h : heap) ds pcs :
  (d < length h)%nat -> (pc < length h)%nat ->
  propagate paths index all_mask n_cells fuel (deref h d, deref h pc)
  = Val (true, (ds, pcs)) ->
  solved ds = false ->
  let h1 : heap := <[pc := pcs]> (<[d := ds]> h) in
  match choose_branch_path pcs with
  | None =>
      solve paths index all_mask n_cells words_by_len (S fuel) d pc h = Val (None, h1)
  | Some pid =>
      fewest_candidates pcs pid /\
      forall cells L c,
        paths !! pid = Some (cells, L) -> pcs !! pid = Some c ->
        0 <= c -> (length (set_bits c) < fuel)%nat ->
        StronglySorted Z.lt (set_bits c) /\
        (forall wid, wid ∈ set_bits c <-> 0 <= wid /\ Z.testbit c wid = true) /\
        forall r,
          solve paths index all_mask n_cells words_by_len (S fuel) d pc h = Val r <->
          tries (solve paths index all_mask n_cells words_by_len fuel)
            d pc pid cells (default [] (words_by_len !! L)) (set_bits c) h1 r
  end.
Proof.
  intros Hd Hpc Hp Hs h1. rewrite solve_S, Hp. simpl. rewrite Hs. fold h1.
  pose proof (choose_branch_path_spec pcs) as Hc.
  destruct (choose_branch_path pcs) as [pid|]; [|done].
  split; [done|]. intros cells L c Hpid Hcand Hc0 Hfuel.
  split; [apply set_bits_sorted|]. split; [intros wid; by apply elem_of_set_bits|].
  intros r. rewrite Hpid. simpl. rewrite Hcand. simpl.
  rewrite for_bits_set_bits by done.
  assert (forall t,
    for_each (try_branch (solve paths index all_mask n_cells words_by_len fuel)
                d pc pid cells (default [] (words_by_len !! L))) (set_bits c) h1
    = Val t <->
    tries (solve paths index all_mask n_cells words_by_len fuel)
      d pc pid cells (default [] (words_by_len !! L)) (set_bits c) h1 (loop_result t))
    as Hloop.
  { intros t. apply for_each_tries.
    - intros d2 pc2 h2 res h3 Hcall. by apply solve_frame in Hcall as [? _].
    - unfold h1. by rewrite !length_insert.
    - apply Forall_forall. intros wid Hwid. by apply elem_of_set_bits in Hwid as [? _]. }
  split.
  - intros H. apply bind_Val in H as (t & Ht & H). apply Hloop in Ht.
    destruct t as [h2|[res h2]]; by simplify_eq/=.
  - intros H.
    assert (exists t, loop_result t = r) as [t <-].
    { destruct r as [[res|] h2]; [by exists (Stop (res, h2))|by exists (Go h2)]. }
    apply Hloop in H. rewrite H. simpl. by destruct t as [h2|[res h2]].
Qed.

Lemma solve_branching_order_witness :
  fewest_candidates [1; 2; 6] 2 /\
  StronglySorted Z.lt (set_bits 6) /\
  tries (solve square at_to_so_index at_to_so_mask 4 at_to_so 39)
    0 1 2 [2; 3] (default [] (at_to_so !! 2%nat)) (set_bits 6)
    [[1; 524288; 786432; 16384]; [1; 2; 6]]
    (Some 2%nat,
     [[1; 524288; 786432; 16384]; [1; 2; 6];
      [1; 524288; 524288; 16384]; [1; 2; 2]]).
Proof.
  pose proof (solve_branching_order square at_to_so_index at_to_so_mask 4 at_to_so
                39 0 1 [[ALL; ALL; ALL; ALL]; [7; 7; 7]]
                [1; 524288; 786432; 16384] [1; 2; 6]
                ltac:(simpl; lia) ltac:(simpl; lia)
                ltac:(vm_compute; reflexivity) ltac:(vm_compute; reflexivity)) as H.
  cbv zeta in H.
  change (choose_branch_path [1; 2; 6]) with (Some 2%nat) in H.
  destruct H as [Hfew Hloop]. split; [exact Hfew|].
  destruct (Hloop [2; 3] 2%nat 6) as (Hsorted & _ & Hiff);
    [reflexivity|reflexivity|lia|simpl; lia|].
  split; [exact Hsorted|]. apply Hiff. vm_compute. reflexivity.
Defined.
